(** * Handwritten-Digit-Classification: Matrix and NeuralNet

    A shallow embedding of [Matrix.cpp] (contiguous storage), of the
    earlier nested-vector [Matrix.cpp], of [NeuralNet.cpp] and of the
    driver [main.cpp], with the properties of the specification stated
    and proved over it, and further properties of the code after them.

    Conventions of the embedding.
    - [size_t] values are [N]; loop counters and vector indices are [nat]
      (they range below a vector's size).  Arithmetic on sizes is exact:
      a matrix that exists in memory has fewer than 2^64 entries.
    - [int] values are [Z]; where the code narrows a value into an [int]
      (stream extraction) the 32-bit range is written out.
    - A failed [assert], an exception and an out-of-range access of a
      [std::vector] (undefined behaviour) all end the computation: the
      operations return [option], and [None] stands for "no result".
      The driver catches nothing but tells its exceptions apart by their
      message: its functions return an [outcome].
    - The scalar type [Val] and the scalar functions of [Matrix.h] and
      [NeuralNet.h] are operations of a class without laws, so that every
      theorem holds for whatever arithmetic [Val] has (in particular for
      floating point, evaluated in the order the code evaluates it). *)

From Stdlib Require Import ZArith NArith List Ascii String Lia Decimal DecimalN DecimalPos.
From stdpp Require Import base option list.
Import ListNotations.

(** ** Scalars *)

(** [Val] is declared in [Matrix.h]; the code uses the literal [0], [+=],
    [*] on it ([Matrix.cpp]), [-], the conversion from [int] and the two
    activation functions ([NeuralNet.cpp]). *)
Class Scalar := {
  Val : Type;
  zero : Val;
  add : Val → Val → Val;
  sub : Val → Val → Val;
  mul : Val → Val → Val;
  of_int : Z → Val;
  sigmoid : Val → Val;
  invSigmoid : Val → Val
}.

(** ** Loops and vectors *)

(** [for (i : range) body], with a body that may fail. *)
Fixpoint for_ {I St : Type} (range : list I) (body : I → St → option St) (s : St)
  : option St :=
  match range with
  | [] => Some s
  | i :: range' => s' ← body i s; for_ range' body s'
  end.

(** [for (size_t i = 0; i < n; i++)]. *)
Definition upto (n : N) : list nat := seq 0 (N.to_nat n).

(** [v[i] = x] on a [std::vector]: undefined outside the vector. *)
Definition store {A : Type} (v : list A) (i : nat) (x : A) : option (list A) :=
  if decide (i < length v) then Some (<[i:=x]> v) else None.

Section MatrixOps.
Context `{Sc : Scalar}.

(** ** Matrix (contiguous storage, [Matrix.cpp]) *)

Record Matrix := mkMatrix { data : list Val; rows : N; cols : N }.

(** [Matrix::Matrix(row, col, initVal)].  Where the code leaves [initVal]
    out, the model passes [zero]: the default arguments are declared in
    [Matrix.h], and the specification gives "fill=0". *)
Definition Matrix_init (row col : N) (initVal : Val) : Matrix :=
  {| data := replicate (N.to_nat (row * col)) initVal; rows := row; cols := col |}.

(** Modelled from the spec: the accessors of [Matrix.h], which is not part
    of the sources ("width() == cols, height() == rows"). *)
Definition height (m : Matrix) : N := rows m.
Definition width (m : Matrix) : N := cols m.

Definition nrows (m : Matrix) : nat := N.to_nat (rows m).
Definition ncols (m : Matrix) : nat := N.to_nat (cols m).

(** The class invariant: the backing store has [rows * cols] entries. *)
Definition wf (m : Matrix) : Prop := length (data m) = nrows m * ncols m.

(** Modelled from the spec: element access [m[i][j]] of [Matrix.h], the
    entry at row [i] and column [j] of the row-major store; outside the
    shape there is no value. *)
Definition get (m : Matrix) (i j : nat) : option Val :=
  if decide (i < nrows m ∧ j < ncols m) then data m !! (i * ncols m + j) else None.

(** [Matrix::transpose]. *)
Definition transpose (this : Matrix) : option Matrix :=
  if decide (rows this = 0 ∨ cols this = 0)%N then Some this else
  let result := Matrix_init (width this) (height this) zero in
  d ← for_ (upto (height this)) (λ row d,
         for_ (upto (width this)) (λ col d,
           x ← data this !! (row * ncols this + col);
           store d (col * nrows this + row) x) d)
       (data result);
  Some {| data := d; rows := rows result; cols := cols result |}.

(** [Matrix::dot]. *)
Definition dot (this rhs : Matrix) : option Matrix :=
  guard (cols this = rows rhs);;
  let mWidth := cols rhs in
  let width := cols this in
  let result := Matrix_init (rows this) mWidth zero in
  transposed_rhs ← transpose rhs;
  d ← for_ (upto (rows this)) (λ row d,
         for_ (upto mWidth) (λ col d,
           d ← store d (row * N.to_nat mWidth + col) zero;
           for_ (upto width) (λ i d,
             acc ← d !! (row * N.to_nat mWidth + col);
             a ← data this !! (row * N.to_nat width + i);
             b ← data transposed_rhs !! (col * N.to_nat width + i);
             store d (row * N.to_nat mWidth + col) (add acc (mul a b))) d) d)
       (data result);
  Some {| data := d; rows := rows result; cols := cols result |}.

(** The sum the inner loop accumulates, in the loop's order:
    [((0 + a_0 * b_0) + a_1 * b_1) + ...]. *)
Definition dot_sum (a b : nat → Val) (n : nat) : Val :=
  foldl (λ acc k, add acc (mul (a k) (b k))) zero (seq 0 n).

(** Total reading of an entry, [zero] outside the shape. *)
Definition elem (m : Matrix) (i j : nat) : Val := default zero (get m i j).

(** The row-major store of the [m] by [n] grid with entry [f i j]. *)
Definition tabulate (m n : nat) (f : nat → nat → Val) : list Val :=
  i ← seq 0 m; j ← seq 0 n; [f i j].

(** The matrix product as the specification defines it:
    entry [(i, j)] is the sum over [k] of [a[i][k] * b[k][j]]. *)
Definition mat_mul (a b : Matrix) : Matrix :=
  {| data := tabulate (nrows a) (ncols b)
               (λ i j, dot_sum (elem a i) (λ k, elem b k j) (ncols a));
     rows := rows a; cols := cols b |}.

(** The transposed grid, with the dimensions swapped. *)
Definition mat_transpose (a : Matrix) : Matrix :=
  {| data := tabulate (ncols a) (nrows a) (λ j i, elem a i j);
     rows := cols a; cols := rows a |}.

(** *** The operators of [Matrix.h] *)

Definition mat_map (f : Val → Val) (m : Matrix) : Matrix :=
  {| data := f <$> data m; rows := rows m; cols := cols m |}.

Definition mat_zip (f : Val → Val → Val) (a b : Matrix) : Matrix :=
  {| data := zip_with f (data a) (data b); rows := rows a; cols := cols a |}.

Definition same_shape (a b : Matrix) : Prop := rows a = rows b ∧ cols a = cols b.

(** Modelled from the spec: [apply(unaryFn)] of [Matrix.h], "new matrix
    with unaryFn mapped over every element". *)
Definition apply (m : Matrix) (f : Val → Val) : Matrix := mat_map f m.

(** Modelled from the spec: [operator+], [operator-] and the element-wise
    [operator*] of [Matrix.h], "element-wise, same-shape required, else
    fails". *)
Definition plus (a b : Matrix) : option Matrix :=
  guard (same_shape a b);; Some (mat_zip add a b).
Definition minus (a b : Matrix) : option Matrix :=
  guard (same_shape a b);; Some (mat_zip sub a b).
Definition hadamard (a b : Matrix) : option Matrix :=
  guard (same_shape a b);; Some (mat_zip mul a b).

(** Modelled from the spec: [operator*] of [Matrix.h] with a scalar, "new
    matrix scaled element-wise". *)
Definition scale (m : Matrix) (val : Val) : Matrix := mat_map (λ x, mul x val) m.

End MatrixOps.

(** ** Matrix (nested vectors, the earlier [Matrix.cpp]) *)

Module Baseline.

(** [class Matrix : public std::vector<std::vector<Val>>]. *)
Abbreviation Matrix := (list (list Val)) (only parsing).

Section Ops.
Context `{Sc : Scalar}.

(** [Matrix::Matrix(row, col, initVal)]. *)
Definition Matrix_init (row col : nat) (initVal : Val) : Matrix :=
  replicate row (replicate col initVal).

(** [v.front()]: undefined on an empty vector. *)
Definition front {A : Type} (v : list A) : option A := head v.

(** [result[row][col] = x]. *)
Definition store2 (m : Matrix) (row col : nat) (x : Val) : option Matrix :=
  r ← m !! row; r' ← store r col x; store m row r'.

(** [Matrix::dot]. *)
Definition dot (this rhs : Matrix) : option Matrix :=
  f ← front this;
  guard (length f = length rhs);;
  rf ← front rhs;
  let mWidth := length rf in
  let width := length f in
  let result := Matrix_init (length this) mWidth zero in
  for_ (seq 0 (length this)) (λ row result,
    for_ (seq 0 mWidth) (λ col result,
      sum ← for_ (seq 0 width) (λ i sum,
               r ← this !! row; a ← r !! i;
               ri ← rhs !! i; b ← ri !! col;
               Some (add sum (mul a b))) zero;
      store2 result row col sum) result) result.

(** Modelled from the spec: the accessors of the earlier [Matrix.h], which
    is not part of the sources ("width() == cols, height() == rows"); for
    nested vectors the number of rows and the length of the first row. *)
Definition height (m : Matrix) : nat := length m.
Definition width (m : Matrix) : option nat := length <$> front m.

(** [Matrix::transpose]. *)
Definition transpose (this : Matrix) : option Matrix :=
  match this with
  | [] => Some this
  | _ :: _ =>
      w ← width this;
      let result := Matrix_init w (height this) zero in
      for_ (seq 0 (height this)) (λ row result,
        for_ (seq 0 w) (λ col result,
          r ← this !! row; x ← r !! col;
          store2 result col row x) result) result
  end.

End Ops.
End Baseline.

Section Representation.
Context `{Sc : Scalar}.

(** The nested-vector matrix with the same entries as a contiguous one:
    row [i] is the slice of the store that starts at [i * cols]. *)
Definition to_nested (m : Matrix) : Baseline.Matrix :=
  (λ i, take (ncols m) (drop (i * ncols m) (data m))) <$> seq 0 (nrows m).



End Representation.

(** ** NeuralNet ([NeuralNet.cpp]) *)

(** An [int] used as a vector index or as an argument of type [size_t]:
    a negative value converts to a size beyond any vector. *)
Definition at_ {A : Type} (v : list A) (i : Z) : option A :=
  if decide (0 ≤ i)%Z then v !! Z.to_nat i else None.

Definition store_at {A : Type} (v : list A) (i : Z) (x : A) : option (list A) :=
  if decide (0 ≤ i)%Z then store v (Z.to_nat i) x else None.

Definition size_t_of_int (z : Z) : N := Z.to_N (z mod 2 ^ 64).

(** [for (int i = lo; i < hi; i++)]. *)
Definition zrange (lo hi : Z) : list Z :=
  (λ k, lo + Z.of_nat k)%Z <$> seq 0 (Z.to_nat (hi - lo)).

Section Net.
Context `{Sc : Scalar}.

Record NeuralNet := mkNeuralNet {
  layerSizes : Matrix;
  biases : list Matrix;
  weights : list Matrix
}.

(** [NeuralNet::initBiasAndWeightMatrices]. *)
Definition initBiasAndWeightMatrices (layerSizes : list Z)
    (biases weights : list Matrix) : option (list Matrix * list Matrix) :=
  for_ (seq 1 (length layerSizes - 1)) (λ lyr '(biases, weights),
    rows ← layerSizes !! lyr;
    cols ← layerSizes !! (lyr - 1);
    let biases := biases ++ [Matrix_init (size_t_of_int rows) 1 zero] in
    let weights := weights ++
      [Matrix_init (size_t_of_int rows) (size_t_of_int cols) zero] in
    Some (biases, weights)) (biases, weights).

(** [NeuralNet::NeuralNet(layers)].  [layerSizes[0].begin()] is the start
    of row 0 of the store (the row accessor is declared in [Matrix.h]);
    [std::copy_n] converts each [int] to [Val]. *)
Definition NeuralNet_init (layers : list Z) : option NeuralNet :=
  let layerSizes := Matrix_init 1 (N.of_nat (length layers)) zero in
  d ← for_ (seq 0 (length layers)) (λ k d,
         x ← layers !! k; store d k (of_int x)) (data layerSizes);
  let layerSizes := {| data := d; rows := rows layerSizes; cols := cols layerSizes |} in
  '(biases, weights) ← initBiasAndWeightMatrices layers [] [];
  Some {| layerSizes := layerSizes; biases := biases; weights := weights |}.

(** [NeuralNet::learn].  [layerSizes[0].size()] is the length of row 0,
    that is [cols]. *)
Definition learn (net : NeuralNet) (inputs expected : Matrix) (eta : Val)
  : option NeuralNet :=
  '(activation, activations, zs) ←
    for_ (seq 0 (length (biases net))) (λ lyr '(activation, activations, zs),
      w ← weights net !! lyr;
      wa ← dot w activation;
      b ← biases net !! lyr;
      z ← plus wa b;
      let zs := zs ++ [z] in
      zb ← last zs;
      let activation := apply zb sigmoid in
      Some (activation, activations ++ [activation], zs))
    (inputs, [inputs], []);
  ab ← last activations;
  diff ← minus ab expected;
  zb ← last zs;
  delta ← hadamard diff (apply zb invSigmoid);
  let nabla_b := [delta] in
  let lastLyr := (Z.of_N (cols (layerSizes net)) - 1)%Z in
  a ← at_ activations (lastLyr - 1);
  aT ← transpose a;
  nw ← dot delta aT;
  let nabla_w := [nw] in
  '(delta, nabla_b, nabla_w) ←
    for_ (zrange 2 (lastLyr + 1)) (λ lyr '(delta, nabla_b, nabla_w),
      z ← at_ zs (lastLyr - lyr);
      let sp := apply z invSigmoid in
      w ← at_ (weights net) (lastLyr - lyr + 1);
      wT ← transpose w;
      wd ← dot wT delta;
      delta ← hadamard wd sp;
      a ← at_ activations (lastLyr - lyr);
      aT ← transpose a;
      nw ← dot delta aT;
      Some (delta, nabla_b ++ [delta], nabla_w ++ [nw]))
    (delta, nabla_b, nabla_w);
  '(weights, biases) ←
    for_ (zrange 0 lastLyr) (λ lyr '(weights, biases),
      let revLyr := (lastLyr - 1 - lyr)%Z in
      w ← at_ weights lyr;
      gw ← at_ nabla_w revLyr;
      w' ← minus w (scale gw eta);
      weights ← store_at weights lyr w';
      b ← at_ biases lyr;
      gb ← at_ nabla_b revLyr;
      b' ← minus b (scale gb eta);
      biases ← store_at biases lyr b';
      Some (weights, biases))
    (weights net, biases net);
  Some {| layerSizes := layerSizes net; biases := biases; weights := weights |}.

(** [NeuralNet::classify]. *)
Definition classify (net : NeuralNet) (inputs : Matrix) : option Matrix :=
  for_ (seq 0 (length (weights net))) (λ lyr result,
    w ← weights net !! lyr;
    wr ← dot w result;
    b ← biases net !! lyr;
    s ← plus wr b;
    Some (apply s sigmoid)) inputs.

(** *** The object and its callers *)

(** The calls a caller makes on a constructed network.  [learn] replaces
    the parameters; [classify] is a [const] member function and leaves the
    object as it is. *)
Inductive call : Type :=
  | Learn (inputs expected : Matrix) (eta : Val)
  | Classify (inputs : Matrix).

Definition run_call (net : NeuralNet) (c : call)
  : option (NeuralNet * option Matrix) :=
  match c with
  | Learn inputs expected eta =>
      net' ← learn net inputs expected eta; Some (net', None)
  | Classify inputs =>
      out ← classify net inputs; Some (net, Some out)
  end.

(** The arguments of a call are matrices: they satisfy the class
    invariant. *)
Definition call_ok (c : call) : Prop :=
  match c with
  | Learn inputs expected _ => wf inputs ∧ wf expected
  | Classify inputs => wf inputs
  end.

(** The networks a caller can reach from [net] by calls that return. *)
Inductive reachable (net : NeuralNet) : NeuralNet → Prop :=
  | reachable_here : reachable net net
  | reachable_call net1 net2 c out :
      reachable net net1 → call_ok c → run_call net1 c = Some (net2, out) →
      reachable net net2.

(** *** The data model of the specification *)

(** A matrix of the given shape. *)
Definition has_shape (r c : N) (m : Matrix) : Prop :=
  wf m ∧ rows m = r ∧ cols m = c.

(** The invariant of a network with layer widths [ls]: [layerSizes] is
    the 1 by L matrix of the widths, there are L-1 biases and L-1 weights,
    [weights[l]] is [ls[l+1]] by [ls[l]] and [biases[l]] is [ls[l+1]] by 1. *)
Definition params_ok (ls : list N) (bs ws : list Matrix) : Prop :=
  length bs = length ls - 1 ∧
  length ws = length ls - 1 ∧
  ∀ l wl wl1, ls !! l = Some wl → ls !! (S l) = Some wl1 →
    ∃ w b, ws !! l = Some w ∧ bs !! l = Some b ∧
           has_shape wl1 wl w ∧ has_shape wl1 1 b.

Definition net_inv (ls : list N) (net : NeuralNet) : Prop :=
  layerSizes net = {| data := (λ w, of_int (Z.of_N w)) <$> ls;
                      rows := 1; cols := N.of_nat (length ls) |} ∧
  params_ok ls (biases net) (weights net).

(** The same shapes, layer by layer. *)
Inductive layers_ok : list N → list Matrix → list Matrix → Prop :=
  | layers_ok_last w0 : layers_ok [w0] [] []
  | layers_ok_cons w0 w1 ls w b ws bs :
      has_shape w1 w0 w → has_shape w1 1 b →
      layers_ok (w1 :: ls) ws bs →
      layers_ok (w0 :: w1 :: ls) (w :: ws) (b :: bs).

(** Every entry of every parameter is [zero]. *)
Definition all_zero (net : NeuralNet) : Prop :=
  Forall (λ m, Forall (λ x, x = zero) (data m)) (biases net ++ weights net).

(** The forward pass of the specification: starting from the input,
    [activation = sigmoid(weights[l].dot(activation) + biases[l])] for each
    layer in order. *)
Fixpoint forward (ws bs : list Matrix) (activation : Matrix) : Matrix :=
  match ws, bs with
  | w :: ws', b :: bs' =>
      forward ws' bs' (mat_map sigmoid (mat_zip add (mat_mul w activation) b))
  | _, _ => activation
  end.





(** A layer width as the constructor takes it: a count that fits [int]. *)
Definition is_width (z : Z) : Prop := (0 ≤ z ≤ 2147483647)%Z.

End Net.

(** ** Streams *)

(** An output stream is the text written so far.  An input stream is the
    text not yet read and the [failbit]; an extraction from a stream whose
    [failbit] is set does nothing. *)
Definition ostream : Type := list ascii.
Record istream := mkIstream { buf : list ascii; failbit : bool }.

Definition nl : ascii := "010"%char.
Definition sp : ascii := " "%char.

(** [std::isspace] in the "C" locale. *)
Definition isspace (c : ascii) : bool :=
  let n := nat_of_ascii c in (n =? 32) || ((9 <=? n) && (n <=? 13)).

Fixpoint skip_ws (s : list ascii) : list ascii :=
  match s with
  | c :: s' => if isspace c then skip_ws s' else s
  | [] => []
  end.

(** Decimal digits. *)
Definition digit_of (c : ascii) : option (Decimal.uint → Decimal.uint) :=
  if Ascii.eqb c "0" then Some Decimal.D0 else
  if Ascii.eqb c "1" then Some Decimal.D1 else
  if Ascii.eqb c "2" then Some Decimal.D2 else
  if Ascii.eqb c "3" then Some Decimal.D3 else
  if Ascii.eqb c "4" then Some Decimal.D4 else
  if Ascii.eqb c "5" then Some Decimal.D5 else
  if Ascii.eqb c "6" then Some Decimal.D6 else
  if Ascii.eqb c "7" then Some Decimal.D7 else
  if Ascii.eqb c "8" then Some Decimal.D8 else
  if Ascii.eqb c "9" then Some Decimal.D9 else None.

Fixpoint show_uint (u : Decimal.uint) : list ascii :=
  match u with
  | Decimal.Nil => []
  | Decimal.D0 u => "0"%char :: show_uint u
  | Decimal.D1 u => "1"%char :: show_uint u
  | Decimal.D2 u => "2"%char :: show_uint u
  | Decimal.D3 u => "3"%char :: show_uint u
  | Decimal.D4 u => "4"%char :: show_uint u
  | Decimal.D5 u => "5"%char :: show_uint u
  | Decimal.D6 u => "6"%char :: show_uint u
  | Decimal.D7 u => "7"%char :: show_uint u
  | Decimal.D8 u => "8"%char :: show_uint u
  | Decimal.D9 u => "9"%char :: show_uint u
  end.

(** [os << n] for an unsigned integer. *)
Definition show_N (n : N) : list ascii := show_uint (N.to_uint n).

(** The longest prefix of digits, and the rest. *)
Fixpoint read_uint (s : list ascii) : Decimal.uint * list ascii :=
  match s with
  | c :: s' =>
      match digit_of c with
      | Some d => let '(u, rest) := read_uint s' in (d u, rest)
      | None => (Decimal.Nil, s)
      end
  | [] => (Decimal.Nil, [])
  end.

Definition INT_MAX : Z := 2147483647.
Definition INT_MIN : Z := -2147483648.

(** An optional sign. *)
Definition read_sign (s : list ascii) : bool * list ascii :=
  match s with
  | c :: t => if Ascii.eqb c "-" then (true, t)
              else if Ascii.eqb c "+" then (false, t) else (false, s)
  | [] => (false, s)
  end.

(** The value of a digit string with its sign, and what [is >> x] makes
    of it for [int x]: the [failbit] and the value stored.  A value
    outside the range of [int] stores the nearest bound and sets
    [failbit]. *)
Definition int_value (neg : bool) (u : Decimal.uint) : Z :=
  if neg then (- Z.of_N (N.of_uint u))%Z else Z.of_N (N.of_uint u).

Definition int_result (v : Z) : bool * Z :=
  if (INT_MAX <? v)%Z then (true, INT_MAX)
  else if (v <? INT_MIN)%Z then (true, INT_MIN) else (false, v).

(** [is >> x] for [int x], with the value [x] has afterwards.  At the end
    of the stream the value is left as it was, and text that is not a
    number stores 0; both set [failbit]. *)
Definition extract_int (ist : istream) (x : Z) : istream * Z :=
  if failbit ist then (ist, x) else
  match skip_ws (buf ist) with
  | [] => ({| buf := []; failbit := true |}, x)
  | s =>
      let '(neg, s1) := read_sign s in
      let '(u, rest) := read_uint s1 in
      match u with
      | Decimal.Nil => ({| buf := rest; failbit := true |}, 0%Z)
      | _ =>
          let '(fail, v) := int_result (int_value neg u) in
          ({| buf := rest; failbit := fail |}, v)
      end
  end.

(** How a [Val] is written and read: [os << v] writes [show_val v];
    [is >> v] hands the text after the white space to [read_val], which
    yields a value and the text left, or nothing. *)
Class ValText `{Sc : Scalar} := {
  show_val : Val → list ascii;
  read_val : list ascii → option (Val * list ascii)
}.

Section MatrixStreams.
Context `{VT : ValText}.

(** [is >> x] for [Val x]. *)
Definition extract_val (ist : istream) (x : Val) : istream * Val :=
  if failbit ist then (ist, x) else
  match skip_ws (buf ist) with
  | [] => ({| buf := []; failbit := true |}, x)
  | s =>
      match read_val s with
      | Some (v, rest) => ({| buf := rest; failbit := false |}, v)
      | None => ({| buf := s; failbit := true |}, zero)
      end
  end.

(** [operator<<(std::ostream&, const Matrix&)]. *)
Definition Matrix_insert (os : ostream) (matrix : Matrix) : option ostream :=
  let os := os ++ show_N (height matrix) ++ [sp] ++ show_N (width matrix) ++ [nl] in
  for_ (upto (rows matrix)) (λ row os,
    os ← for_ (upto (cols matrix)) (λ col os,
            x ← data matrix !! (row * ncols matrix + col);
            Some (os ++ show_val x ++ [sp])) os;
    Some (os ++ [nl])) os.

(** The body of the reading loops of [operator>>]:
    [is >> matrix.data[idx]]. *)
Definition read_entry (idx : nat) (st : istream * list Val)
  : option (istream * list Val) :=
  let '(ist, d) := st in
  x ← d !! idx;
  let '(ist, x) := extract_val ist x in
  d ← store d idx x;
  Some (ist, d).

(** The reading loops of [operator>>] over the matrix just assigned. *)
Definition read_entries_of (ist : istream) (matrix : Matrix)
  : option (istream * Matrix) :=
  '(ist, d) ← for_ (upto (rows matrix)) (λ row st,
    for_ (upto (cols matrix)) (λ col st,
      read_entry (row * ncols matrix + col) st) st) (ist, data matrix);
  Some (ist, {| data := d; rows := rows matrix; cols := cols matrix |}).

(** [operator>>(std::istream&, Matrix&)].  [indet] holds the values the
    locals [height] and [width] have before anything is stored in them;
    [Matrix(height, width)] converts them to [size_t]. *)
Definition Matrix_extract (indet : Z * Z) (ist : istream) (matrix : Matrix)
  : option (istream * Matrix) :=
  let '(ist, height) := extract_int ist indet.1 in
  let '(ist, width) := extract_int ist indet.2 in
  let matrix := Matrix_init (size_t_of_int height) (size_t_of_int width) zero in
  read_entries_of ist matrix.

(** [operator<<(std::ostream&, const NeuralNet&)]. *)
Definition NeuralNet_insert (os : ostream) (nnet : NeuralNet) : option ostream :=
  os ← Matrix_insert os (layerSizes nnet);
  let os := os ++ [nl] in
  os ← for_ (biases nnet) (λ bias os,
          os ← Matrix_insert os bias; Some (os ++ [nl])) os;
  for_ (weights nnet) (λ weight os,
    os ← Matrix_insert os weight; Some (os ++ [nl])) os.

(** [operator>>(std::istream&, NeuralNet&)].  [Matrix temp;] is the
    empty matrix (the default arguments are declared in [Matrix.h]). *)
Definition NeuralNet_extract (indet : Z * Z) (ist : istream) (nnet : NeuralNet)
  : option (istream * NeuralNet) :=
  '(ist, layerSizes) ← Matrix_extract indet ist (layerSizes nnet);
  let layerCount := Z.of_N (cols layerSizes) in
  let temp := Matrix_init 0 0 zero in
  '(ist, temp, biases) ← for_ (zrange 0 layerCount) (λ i '(ist, temp, biases),
    '(ist, temp) ← Matrix_extract indet ist temp;
    Some (ist, temp, biases ++ [temp])) (ist, temp, biases nnet);
  '(ist, temp, weights) ← for_ (zrange 0 layerCount) (λ i '(ist, temp, weights),
    '(ist, temp) ← Matrix_extract indet ist temp;
    Some (ist, temp, weights ++ [temp])) (ist, temp, weights nnet);
  Some (ist, {| layerSizes := layerSizes; biases := biases; weights := weights |}).

(** *** Texts *)

(** The text ends here or goes on with white space: a number read from
    in front of it stops there. *)
Definition ends_token (s : list ascii) : Prop :=
  match s with [] => True | c :: _ => isspace c = true end.

Definition blank (s : list ascii) : Prop := Forall (λ c, isspace c = true) s.

(** Written and read back, [v] is [v']: for a floating-point [Val] the
    value [v] rounded to the print precision. *)
Definition prints_as (v v' : Val) : Prop :=
  ∀ rest x, ends_token rest →
    extract_val {| buf := show_val v ++ rest; failbit := false |} x
    = ({| buf := rest; failbit := false |}, v').

(** A text that holds the given values, separated by white space, and
    nothing else. *)
Inductive holds_values : list Val → list ascii → Prop :=
  | holds_none s : blank s → holds_values [] s
  | holds_more ws v vs s :
      blank ws → ends_token s → holds_values vs s →
      holds_values (v :: vs) (ws ++ show_val v ++ s).



Definition no_digit (s : list ascii) : Prop :=
  match s with [] => True | c :: _ => digit_of c = None end.


(** The text [operator<<] writes for a matrix: the header line, then one
    line per row, every value followed by a space. *)
Definition row_text (vals : list Val) : list ascii :=
  v ← vals; show_val v ++ [sp].

Definition rows_text (rs : list (list Val)) : list ascii :=
  r ← rs; row_text r ++ [nl].

Definition matrix_text (m : Matrix) : list ascii :=
  show_N (rows m) ++ [sp] ++ show_N (cols m) ++ [nl] ++ rows_text (to_nested m).

End MatrixStreams.

(** ** Integer scalars *)

(** A scalar type with exact arithmetic and a decimal text form, for the
    examples: [Val] is [Z] and the activation functions are fixed maps. *)
Definition Z_scalar : Scalar :=
  {| Val := Z; zero := 0%Z; add := Z.add; sub := Z.sub; mul := Z.mul;
     of_int := λ z, z; sigmoid := λ z, (z + 1)%Z; invSigmoid := λ z, (2 * z + 1)%Z |}.

Definition show_Z (z : Z) : list ascii :=
  if (z <? 0)%Z then "-"%char :: show_N (Z.abs_N z) else show_N (Z.abs_N z).

Definition read_Z (s : list ascii) : option (Z * list ascii) :=
  let '(neg, s1) := match s with
                    | c :: t => if Ascii.eqb c "-" then (true, t) else (false, s)
                    | [] => (false, s)
                    end in
  let '(u, rest) := read_uint s1 in
  match u with
  | Decimal.Nil => None
  | _ => Some (if neg then (- Z.of_N (N.of_uint u))%Z else Z.of_N (N.of_uint u), rest)
  end.

Definition Z_text : @ValText Z_scalar :=
  {| show_val := show_Z : @Val Z_scalar → list ascii; read_val := read_Z |}.

(** ** Examples *)

Section Examples.
#[local] Existing Instance Z_scalar.
#[local] Existing Instance Z_text.

Definition a22 : Matrix := {| data := [1; -2; 30; 4]%Z; rows := 2; cols := 2 |}.
Definition a23 : Matrix := {| data := [1; 2; 3; 4; 5; 6]%Z; rows := 2; cols := 3 |}.

(** The empty operands [Matrix(0, 3)], [Matrix(1, 0)] and [Matrix(0, 1)]. *)
Definition e03 : Matrix := Matrix_init 0 3 0%Z.

(** [Matrix(0, 2147483648)]: no entries, more columns than an [int] counts. *)
Definition wide : Matrix := Matrix_init 0 2147483648 0%Z.

(** A network with layers [{2, 2, 1}] and a training sample for it. *)
Definition net221 : NeuralNet :=
  {| layerSizes := {| data := [2; 2; 1]%Z; rows := 1; cols := 3 |};
     biases := [ {| data := [1; -1]%Z; rows := 2; cols := 1 |};
                 {| data := [2]%Z; rows := 1; cols := 1 |} ];
     weights := [ {| data := [1; 2; 3; 4]%Z; rows := 2; cols := 2 |};
                  {| data := [1; -1]%Z; rows := 1; cols := 2 |} ] |}.
Definition in2 : Matrix := {| data := [1; 0]%Z; rows := 2; cols := 1 |}.
Definition exp1 : Matrix := {| data := [1]%Z; rows := 1; cols := 1 |}.


(** [NeuralNet({1, 1})], the text [operator<<] writes for it, and the
    network [NeuralNet({})] it is read into. *)
Definition net11 : NeuralNet :=
  {| layerSizes := {| data := [1; 1]%Z; rows := 1; cols := 2 |};
     biases := [Matrix_init 1 1 0%Z];
     weights := [Matrix_init 1 1 0%Z] |}.

Definition text11 : list ascii := list_ascii_of_string
"1 2
1 1 

1 1
0 

1 1
0 

".

Definition fresh_net : NeuralNet :=
  {| layerSizes := Matrix_init 1 0 0%Z; biases := []; weights := [] |}.


End Examples.

(** ** Further definitions: loops by reference, texts of several matrices *)

(** [for (auto& x : v) body]: the body updates the elements of the vector
    one after the other, threading its state. *)
Fixpoint for_each {St A : Type} (body : St → A → St * A) (s : St) (v : list A)
  : St * list A :=
  match v with
  | [] => (s, [])
  | x :: v' =>
      let '(s, x) := body s x in
      let '(s, v') := for_each body s v' in
      (s, x :: v')
  end.

Section MoreStreams.
Context `{VT : ValText}.

(** The nested-vector [operator>>(std::istream&, Matrix&)]. *)
Definition Baseline_extract (indet : Z * Z) (ist : istream) (matrix : Baseline.Matrix)
  : istream * Baseline.Matrix :=
  let '(ist, height) := extract_int ist indet.1 in
  let '(ist, width) := extract_int ist indet.2 in
  let matrix := Baseline.Matrix_init (N.to_nat (size_t_of_int height))
                                     (N.to_nat (size_t_of_int width)) zero in
  for_each (for_each extract_val) ist matrix.

(** A text that starts with the given values, each after white space,
    and goes on with [rest]. *)
Inductive starts_with (rest : list ascii) : list Val → list ascii → Prop :=
  | starts_nil : starts_with rest [] rest
  | starts_cons ws v vs s :
      blank ws → ends_token s → starts_with rest vs s →
      starts_with rest (v :: vs) (ws ++ show_val v ++ s).

(** [m'] is [m] written and read back: the same shape, every value as
    its printed form reads. *)
Definition reads_as (m m' : Matrix) : Prop :=
  rows m' = rows m ∧ cols m' = cols m ∧ Forall2 prints_as (data m) (data m').

(** The nested-vector [operator<<(std::ostream&, const Matrix&)]. *)
Definition Baseline_insert (os : ostream) (matrix : Baseline.Matrix) : option ostream :=
  w ← Baseline.width matrix;
  let os := os ++ show_N (N.of_nat (Baseline.height matrix)) ++ [sp]
               ++ show_N (N.of_nat w) ++ [nl] in
  Some (foldl (λ os row,
          foldl (λ os val, os ++ show_val val ++ [sp]) os row ++ [nl]) os matrix).

(** A matrix whose dimensions an [int] holds. *)
Definition int_sized (m : Matrix) : Prop :=
  (Z.of_N (rows m) ≤ INT_MAX)%Z ∧ (Z.of_N (cols m) ≤ INT_MAX)%Z.



(** A matrix whose entries are all [zero]. *)
Definition zeros (m : Matrix) : Prop := Forall (λ x, x = zero) (data m).

(** A value that a weight of zero wipes out: [sum += 0 * v] leaves a sum
    of zero as it is (for a floating-point [Val], every finite [v]). *)
Definition absorbed (v : Val) : Prop := add zero (mul zero v) = zero.

End MoreStreams.

(** ** The driver ([main.cpp]) *)

#[local] Instance ascii_eq_dec : EqDecision ascii := Ascii.ascii_dec.

(** What a call of the driver ends in: it returns, it throws, or it has no
    result (a failed [assert], undefined behaviour). *)
Inductive exn : Type :=
  | runtime_error (what : list ascii)
  | alloc_error.

Inductive outcome (A : Type) : Type :=
  | Returns (x : A)
  | Throws (e : exn)
  | Undefined.
Arguments Returns {A} x.
Arguments Throws {A} e.
Arguments Undefined {A}.

#[export] Instance outcome_ret : MRet outcome := λ A x, Returns x.
#[export] Instance outcome_bind : MBind outcome := λ A B f o,
  match o with
  | Returns x => f x
  | Throws e => Throws e
  | Undefined => Undefined
  end.

Definition of_option {A : Type} (o : option A) : outcome A :=
  match o with Some x => Returns x | None => Undefined end.

(** [a * b] and [a - 1] on [int]: undefined when the result overflows. *)
Definition int_mul (a b : Z) : option Z :=
  if decide (INT_MIN ≤ a * b ≤ INT_MAX)%Z then Some (a * b)%Z else None.

Definition int_pred (a : Z) : option Z :=
  if decide (INT_MIN < a)%Z then Some (a - 1)%Z else None.

Definition int_succ (a : Z) : option Z :=
  if decide (a < INT_MAX)%Z then Some (a + 1)%Z else None.

(** The conversion of a [std::ptrdiff_t] to [int]. *)
Definition int_of_ptrdiff (z : Z) : Z := ((z + 2 ^ 31) mod 2 ^ 32 - 2 ^ 31)%Z.

(** [s.rfind(c)]: the last position of [c] in [s], or [npos]. *)
Definition npos : N := 2 ^ 64 - 1.

Fixpoint rfind_from (c : ascii) (s : list ascii) (pos : nat) (found : N) : N :=
  match s with
  | [] => found
  | x :: s' =>
      rfind_from c s' (S pos) (if Ascii.eqb x c then N.of_nat pos else found)
  end.

Definition rfind (c : ascii) (s : list ascii) : N := rfind_from c s 0 npos.

(** [s[pos]] on a [const std::string]: the character at [pos], the null
    character at [pos == size()], undefined beyond. *)
Definition string_at (s : list ascii) (pos : N) : option ascii :=
  match s !! N.to_nat pos with
  | Some c => Some c
  | None => if decide (N.to_nat pos = length s) then Some "000"%char else None
  end.

(** [is >> s] for [std::string s]: white space is skipped and the
    characters up to the next white space are taken; at the end of the
    stream [failbit] is set and [s] is left as it was. *)
Fixpoint read_word (s : list ascii) : list ascii * list ascii :=
  match s with
  | c :: s' =>
      if isspace c then ([], s)
      else let '(w, rest) := read_word s' in (c :: w, rest)
  | [] => ([], [])
  end.

Definition extract_string (ist : istream) (x : list ascii) : istream * list ascii :=
  if failbit ist then (ist, x) else
  match skip_ws (buf ist) with
  | [] => ({| buf := []; failbit := true |}, x)
  | s => let '(w, rest) := read_word s in ({| buf := rest; failbit := false |}, w)
  end.

(** [std::getline(is, s)] until it fails: the lines of the text.  A last
    line needs no newline; after the last newline there is no line. *)
Fixpoint getlines_from (cur : list ascii) (s : list ascii) : list (list ascii) :=
  match s with
  | [] => match cur with [] => [] | _ => [cur] end
  | c :: s' =>
      if Ascii.eqb c nl then cur :: getlines_from [] s'
      else getlines_from (cur ++ [c]) s'
  end.

Definition getlines (s : list ascii) : list (list ascii) := getlines_from [] s.

(** The files of the machine: the text of a path, if it can be opened. *)
Definition files : Type := list ascii → option (list ascii).

(** The operations of [Val] that only the driver uses: [/] ([loadPGM]),
    [<] ([std::max_element]) and the text [std::cout <<] writes for the
    [float] value [passCount * 1.f / totCount] ([assess]). *)
Class DriverOps `{Sc : Scalar} := {
  div : Val → Val → Val;
  less : Val → Val → bool;
  show_ratio : Z → Z → list ascii
}.

Section Driver.
Context `{VT : ValText} `{DO : !DriverOps}.

(** Modelled from the spec: [m[i][j] = x] through the row accessor of
    [Matrix.h] ("element access [i][j], mutable; out-of-bounds access is
    undefined/fails"). *)
Definition store_entry (m : Matrix) (i j : Z) (x : Val) : option Matrix :=
  if decide (0 ≤ i < Z.of_N (rows m) ∧ 0 ≤ j < Z.of_N (cols m))%Z then
    d ← store (data m) (Z.to_nat i * ncols m + Z.to_nat j) x;
    Some {| data := d; rows := rows m; cols := cols m |}
  else None.

(** Modelled from the spec: [m[i]] passed as a [const std::vector<Val>&],
    the values of row [i]. *)
Definition row_of (m : Matrix) (i : nat) : option (list Val) :=
  if decide (i < nrows m) then Some (take (ncols m) (drop (i * ncols m) (data m)))
  else None.

(** [Matrix img(n, 1)] for an [int n]: a negative [n] converts to a size
    no vector has, and the constructor of [std::vector] throws. *)
Definition new_column (n : Z) : outcome Matrix :=
  if decide (n < 0)%Z then Throws alloc_error
  else Returns (Matrix_init (size_t_of_int n) 1 zero).

(** [loadPGM].  [indet] holds the values of the locals [width], [height],
    [maxVal] and [value] before anything is stored in them. *)
Definition loadPGM (fs : files) (indet : Z * Z * (Val * Val)) (path : list ascii)
  : outcome Matrix :=
  match fs path with
  | None => Throws (runtime_error (list_ascii_of_string "Unable to read " ++ path))
  | Some text =>
      let file := {| buf := text; failbit := false |} in
      let '(file, hdr) := extract_string file [] in
      let '(file, width) := extract_int file indet.1.1 in
      let '(file, height) := extract_int file indet.1.2 in
      let '(file, maxVal) := extract_val file indet.2.1 in
      if decide (hdr = list_ascii_of_string "P2") then
        n ← of_option (int_mul width height);
        img ← new_column n;
        '(file, value, img) ← of_option (
          for_ (zrange 0 n) (λ i '(file, value, img),
            let '(file, value) := extract_val file value in
            img ← store_entry img i 0 (div value maxVal);
            Some (file, value, img)) (file, indet.2.2, img));
        Returns img
      else Throws (runtime_error (list_ascii_of_string "Only P2 PGM format is supported"))
  end.

(** [getExpectedDigitOutput].  [labelPos] is a [size_t]: [npos + 1] is 0.
    The literal [1.0] is the value of the integer 1.  The character is
    taken by its code from 0 to 255; where [char] is signed a code above
    127 gives a label that is 256 less, outside the column as well. *)
Definition getExpectedDigitOutput (path : list ascii) : option Matrix :=
  let labelPos := ((rfind "_" path + 1) mod 2 ^ 64)%N in
  c ← string_at path labelPos;
  let label := (Z.of_nat (nat_of_ascii c) - Z.of_nat (nat_of_ascii "0"))%Z in
  let expected := Matrix_init 10 1 zero in
  store_entry expected label 0 (of_int 1).

(** [train(net, path, fileNames, count)].  [eta0] is the default learning
    rate, declared in [NeuralNet.h]. *)
Fixpoint train (fs : files) (indet : Z * Z * (Val * Val)) (eta0 : Val)
    (net : NeuralNet) (path : list ascii) (fileNames : list (list ascii)) (count : Z)
  : outcome NeuralNet :=
  match fileNames with
  | [] => Returns net
  | imgName :: fileNames' =>
      img ← loadPGM fs indet (path ++ "/"%char :: imgName);
      exp ← of_option (getExpectedDigitOutput imgName);
      net ← of_option (learn net img exp eta0);
      count' ← of_option (int_pred count);
      if decide (count ≤ 0)%Z then Returns net
      else train fs indet eta0 net path fileNames' count'
  end.

(** The body of the loop of [loadPGM], by position. *)
Definition pixel_step (maxVal : Val) (i : nat) (st : istream * Val * Matrix)
  : option (istream * Val * Matrix) :=
  let '(file, value, img) := st in
  let '(file, value) := extract_val file value in
  img ← store_entry img (0 + Z.of_nat i) 0 (div value maxVal);
  Some (file, value, img).

(** The header of a PGM file: "P2", the width, the height and the largest
    value, separated by white space. *)
Definition pgm_text (ws0 ws1 ws2 ws3 : list ascii) (w h : N) (mx : Val)
    (s : list ascii) : list ascii :=
  ws0 ++ list_ascii_of_string "P2" ++ ws1 ++ show_N w ++ ws2 ++ show_N h ++ ws3
      ++ show_val mx ++ s.

Definition separators (ws0 ws1 ws2 ws3 : list ascii) : Prop :=
  blank ws0 ∧ (blank ws1 ∧ ws1 ≠ []) ∧ (blank ws2 ∧ ws2 ≠ []) ∧ (blank ws3 ∧ ws3 ≠ []).

(** Every file of the list, in order: what [train] does without its
    [count]. *)
Fixpoint learn_files (fs : files) (indet : Z * Z * (Val * Val)) (eta0 : Val)
    (net : NeuralNet) (path : list ascii) (fileNames : list (list ascii))
  : outcome NeuralNet :=
  match fileNames with
  | [] => Returns net
  | imgName :: fileNames' =>
      img ← loadPGM fs indet (path ++ "/"%char :: imgName);
      exp ← of_option (getExpectedDigitOutput imgName);
      net ← of_option (learn net img exp eta0);
      learn_files fs indet eta0 net path fileNames'
  end.

(** [std::max_element(first, last)], as positions: the first position of
    an element that no element is greater than; [last] for an empty
    range. *)
Fixpoint max_element_from (largest : nat) (x : Val) (pos : nat) (v : list Val) : nat :=
  match v with
  | [] => largest
  | y :: v' =>
      if less x y then max_element_from pos y (S pos) v'
      else max_element_from largest x (S pos) v'
  end.

Definition max_element (v : list Val) : nat :=
  match v with
  | [] => 0
  | x :: v' => max_element_from 0 x 1 v'
  end.

(** [maxElemIndex]. *)
Definition maxElemIndex (vec : list Val) : Z :=
  int_of_ptrdiff (Z.of_nat (max_element vec)).

(** The body of the loop of [assess], for one line of the list file. *)
Definition assess_image (fs : files) (indet : Z * Z * (Val * Val))
    (net : NeuralNet) (path imgName : list ascii) (passCount : Z) : outcome Z :=
  img ← loadPGM fs indet (path ++ "/"%char :: imgName);
  exp ← of_option (getExpectedDigitOutput imgName);
  res ← of_option (classify net img);
  of_option (guard (width res = 1%N));;
  of_option (guard (height res = 10%N));;
  expT ← of_option (transpose exp);
  exp0 ← of_option (row_of expT 0);
  let expIdx := maxElemIndex exp0 in
  resT ← of_option (transpose res);
  res0 ← of_option (row_of resT 0);
  let resIdx := maxElemIndex res0 in
  if decide (expIdx = resIdx) then of_option (int_succ passCount)
  else Returns passCount.



(** A test image: its name is [pre], an underscore, the digit [k] and
    [post]; [img] is what [loadPGM] returns for it. *)
Record sample := mkSample {
  name_pre : list ascii; digit : nat; name_post : list ascii; image : Matrix
}.





End Driver.

(** The top-level [train(net, path, limit, imgListFile)].  [std::shuffle]
    with a [std::default_random_engine] in its initial state applies a
    permutation that the library chooses: [shuffle] stands for it. *)
Section ShuffledTraining.
Context `{VT : ValText} `{DO : !DriverOps}.
Variable shuffle : list (list ascii) → list (list ascii).

(** The loop that fills [fileNames]: [count] stays below [limit], so
    [count++] does not overflow. *)
Fixpoint read_names (limit : Z) (lines : list (list ascii)) (count : Z)
    (fileNames : list (list ascii)) : list (list ascii) :=
  match lines with
  | [] => fileNames
  | imgName :: lines' =>
      if decide (count < limit)%Z
      then read_names limit lines' (count + 1)%Z (fileNames ++ [imgName])
      else fileNames
  end.

Definition train_list (fs : files) (indet : Z * Z * (Val * Val)) (eta0 : Val)
    (net : NeuralNet) (path : list ascii) (limit : Z) (imgListFile : list ascii)
  : outcome NeuralNet :=
  match fs imgListFile with
  | None => Throws (runtime_error (list_ascii_of_string "Error reading: " ++ imgListFile))
  | Some text =>
      let fileNames := read_names limit (getlines text) 0 [] in
      train fs indet eta0 net path (shuffle fileNames) limit
  end.

End ShuffledTraining.

(** ** Integer scalars for the driver *)

Definition Z_driver : @DriverOps Z_scalar :=
  {| div := Z.div : @Val Z_scalar → @Val Z_scalar → @Val Z_scalar;
     less := Z.ltb;
     show_ratio := λ passCount totCount, show_Z (passCount / totCount) |}.

Section DriverExamples.
#[local] Existing Instance Z_scalar.
#[local] Existing Instance Z_text.
#[local] Existing Instance Z_driver.


(** [NeuralNet({1, 10})], as the constructor leaves it. *)
Definition net110 : NeuralNet :=
  {| layerSizes := {| data := [1; 10]%Z; rows := 1; cols := 2 |};
     biases := [Matrix_init 10 1 0%Z];
     weights := [Matrix_init 10 1 0%Z] |}.

(** A directory with one image of one pixel, a truncated image and a list
    file. *)
Definition pixel_text : list ascii := list_ascii_of_string "P2 1 1 1 7".
Definition cut_text : list ascii := list_ascii_of_string "P2 2 2 1 9 8".
Definition list_text : list ascii := list_ascii_of_string "x_3.pgm" ++ [nl].

Definition disk : files := λ path,
  if decide (path = list_ascii_of_string "data/x_3.pgm") then Some pixel_text
  else if decide (path = list_ascii_of_string "data/cut_1.pgm") then Some cut_text
  else if decide (path = list_ascii_of_string "list.txt") then Some list_text
  else None.

(** Three 1 by 1 matrices, and [NeuralNet({1, 10})] after it has read
    them. *)
Definition three_text : list ascii := list_ascii_of_string "1 1 5 1 1 7 1 1 8".

Definition net_read_110 : NeuralNet :=
  {| layerSizes := {| data := [5]%Z; rows := 1; cols := 1 |};
     biases := [Matrix_init 10 1 0%Z; {| data := [7]%Z; rows := 1; cols := 1 |}];
     weights := [Matrix_init 10 1 0%Z; {| data := [8]%Z; rows := 1; cols := 1 |}] |}.

(** A list of three names, of which the second is no file. *)
Definition names_text : list ascii :=
  list_ascii_of_string "x_3.pgm" ++ [nl] ++ list_ascii_of_string "none_1.pgm" ++ [nl]
    ++ list_ascii_of_string "x_3.pgm" ++ [nl].

Definition disk2 : files := λ path,
  if decide (path = list_ascii_of_string "names.txt") then Some names_text
  else disk path.

Definition indet0 : Z * Z * (@Val Z_scalar * @Val Z_scalar) := (0, 0, (0, 0))%Z.

Definition x_3 : sample :=
  {| name_pre := list_ascii_of_string "x"; digit := 3;
     name_post := list_ascii_of_string ".pgm";
     image := {| data := [7]%Z; rows := 1; cols := 1 |} |}.

End DriverExamples.

(** * Properties *)

(** ** Loops *)

Lemma for_app {I St : Type} (r1 r2 : list I) (body : I → St → option St) (s : St) :
  for_ (r1 ++ r2) body s = s' ← for_ r1 body s; for_ r2 body s'.
Proof.
  revert s. induction r1 as [|i r1 IH]; intros s; simpl; [done|].
  destruct (body i s) as [s'|]; simpl; [apply IH | done].
Qed.

(** Invariant rule for a counting loop: the loop runs to its end and
    establishes [P n], when every iteration keeps the invariant. *)
Lemma for_seq_inv {St : Type} (P : nat → St → Prop) (a n : nat)
    (body : nat → St → option St) (s : St) :
  P a s →
  (∀ i s, a ≤ i < a + n → P i s → ∃ s', body i s = Some s' ∧ P (1 + i) s') →
  ∃ s', for_ (seq a n) body s = Some s' ∧ P (a + n) s'.
Proof.
  revert a s. induction n as [|n IH]; intros a s H0 Hstep; simpl.
  - exists s. by rewrite Nat.add_0_r.
  - destruct (Hstep a s) as (s1 & -> & H1); [lia | done |]. simpl.
    destruct (IH (1 + a) s1) as (s2 & Hs2 & H2); [done | |].
    + intros i t Hi. apply Hstep. lia.
    + exists s2. split; [done|]. by replace (a + S n) with (1 + a + n) by lia.
Qed.

Lemma upto_inv {St : Type} (P : nat → St → Prop) (n : N)
    (body : nat → St → option St) (s : St) :
  P 0 s →
  (∀ i s, i < N.to_nat n → P i s → ∃ s', body i s = Some s' ∧ P (1 + i) s') →
  ∃ s', for_ (upto n) body s = Some s' ∧ P (N.to_nat n) s'.
Proof.
  intros H0 Hstep. apply (for_seq_inv P 0 (N.to_nat n)); [done|].
  intros i t Hi. apply Hstep. lia.
Qed.

Lemma store_Some {A : Type} (v : list A) (i : nat) (x : A) :
  i < length v → store v i x = Some (<[i:=x]> v).
Proof. intros H. unfold store. by rewrite decide_True. Qed.

(** Row-major indices of distinct positions are distinct. *)
Lemma index_inj (n i j i' j' : nat) :
  j < n → j' < n → i * n + j = i' * n + j' → i = i' ∧ j = j'.
Proof.
  intros Hj Hj' H.
  assert (i = i') as ->.
  { destruct (Nat.lt_trichotomy i i') as [Hlt|[->|Hlt]]; [exfalso | done | exfalso].
    - assert ((1 + i) * n ≤ i' * n) by (apply Nat.mul_le_mono_r; lia). lia.
    - assert ((1 + i') * n ≤ i * n) by (apply Nat.mul_le_mono_r; lia). lia. }
  split; [done | lia].
Qed.

Lemma index_lt (m n i j : nat) : i < m → j < n → i * n + j < m * n.
Proof.
  intros Hi Hj.
  assert ((1 + i) * n ≤ m * n) by (apply Nat.mul_le_mono_r; lia). lia.
Qed.

Section MatrixFacts.
Context `{Sc : Scalar}.

Lemma Matrix_init_wf (row col : N) (v : Val) : wf (Matrix_init row col v).
Proof.
  unfold wf, nrows, ncols. simpl. rewrite length_replicate. lia.
Qed.

Lemma get_Some_lookup (m : Matrix) (i j : nat) :
  i < nrows m → j < ncols m → get m i j = data m !! (i * ncols m + j).
Proof. intros Hi Hj. unfold get. by rewrite decide_True. Qed.

Lemma get_is_Some (m : Matrix) (i j : nat) :
  wf m → i < nrows m → j < ncols m → is_Some (get m i j).
Proof.
  intros Hwf Hi Hj. rewrite get_Some_lookup by done.
  apply lookup_lt_is_Some. rewrite Hwf. by apply index_lt.
Qed.

Lemma get_elem (m : Matrix) (i j : nat) :
  wf m → i < nrows m → j < ncols m → get m i j = Some (elem m i j).
Proof.
  intros Hwf Hi Hj. unfold elem.
  by destruct (get_is_Some m i j Hwf Hi Hj) as [x ->].
Qed.

(** *** transpose *)

Lemma transpose_empty (this : Matrix) :
  (rows this = 0 ∨ cols this = 0)%N → transpose this = Some this.
Proof. intros H. unfold transpose. by rewrite decide_True. Qed.

Lemma transpose_nonempty (this : Matrix) :
  wf this → (rows this ≠ 0)%N → (cols this ≠ 0)%N →
  ∃ r, transpose this = Some r ∧ wf r ∧
       rows r = cols this ∧ cols r = rows this ∧
       ∀ i j, i < nrows this → j < ncols this →
              data r !! (j * nrows this + i) = data this !! (i * ncols this + j).
Proof.
  intros Hwf Hr Hc. unfold transpose. rewrite decide_False by lia.
  unfold width, height.
  set (m := nrows this). set (n := ncols this).
  pose (P := λ (row : nat) (d : list Val),
    length d = n * m ∧
    ∀ i j, i < row → j < n → d !! (j * m + i) = data this !! (i * n + j)).
  destruct (upto_inv P (rows this)
    (λ row d, for_ (upto (cols this)) (λ col d,
       x ← data this !! (row * ncols this + col);
       store d (col * nrows this + row) x) d)
    (data (Matrix_init (cols this) (rows this) zero))) as (d & Hd & Hlen & HP).
  - split; [|intros; lia]. simpl. rewrite length_replicate. unfold m, n, nrows, ncols. lia.
  - intros row d0 Hrow [Hlen0 H0]. change (row < m) in Hrow.
    pose (Q := λ (col : nat) (d : list Val),
      length d = n * m ∧
      (∀ i j, i < row → j < n → d !! (j * m + i) = data this !! (i * n + j)) ∧
      ∀ j, j < col → d !! (j * m + row) = data this !! (row * n + j)).
    destruct (upto_inv Q (cols this)
      (λ col d, x ← data this !! (row * ncols this + col);
                store d (col * nrows this + row) x) d0) as (d1 & Hd1 & Hl1 & Hold & Hnew).
    + split; [done|]. split; [done|]. intros; lia.
    + intros col d1 Hcol (Hl1 & Hold & Hnew). change (col < n) in Hcol. fold m n.
      destruct (lookup_lt_is_Some_2 (data this) (row * n + col)) as [x Hx].
      { rewrite Hwf. fold m n. by apply index_lt. }
      rewrite Hx. simpl.
      assert (col * m + row < length d1) by (rewrite Hl1; by apply index_lt).
      rewrite store_Some by done.
      eexists. split; [done|]. split; [by rewrite length_insert|]. split.
      * intros i j Hi Hj. rewrite list_lookup_insert_ne; [by apply Hold|].
        intros Heq. apply index_inj in Heq; lia.
      * intros j Hj. destruct (decide (j = col)) as [->|Hne].
        -- by rewrite list_lookup_insert_eq.
        -- rewrite list_lookup_insert_ne; [apply Hnew; lia|].
           intros Heq. apply index_inj in Heq; lia.
    + exists d1. split; [done|]. split; [done|].
      intros i j Hi Hj. destruct (decide (i = row)) as [->|Hne].
      * apply Hnew. by fold n.
      * apply Hold; [lia|done].
  - subst m n. rewrite Hd. simpl. eexists. split; [done|]. simpl.
    split; [|split; [done|split; [done|]]].
    + unfold wf. simpl. rewrite Hlen. done.
    + intros i j Hi Hj. by apply HP.
Qed.

(** Whatever the shape, the store of the transpose holds entry [(k, j)]
    of the matrix at [j * rows + k]; for an empty matrix there is no such
    entry. *)
Lemma transpose_lookup (b : Matrix) :
  wf b →
  ∃ t, transpose b = Some t ∧
       ∀ k j, k < nrows b → j < ncols b →
              data t !! (j * nrows b + k) = Some (elem b k j).
Proof.
  intros Hwf.
  destruct (decide (rows b = 0 ∨ cols b = 0)%N) as [He|Hne].
  - exists b. split; [by apply transpose_empty|].
    intros k j Hk Hj. unfold nrows, ncols in *. lia.
  - destruct (transpose_nonempty b Hwf) as (t & Ht & _ & _ & _ & Hl); [lia..|].
    exists t. split; [done|]. intros k j Hk Hj.
    rewrite Hl by done. rewrite <- get_Some_lookup by done. by apply get_elem.
Qed.

(** *** dot *)

Lemma dot_sum_S (a b : nat → Val) (n : nat) :
  dot_sum a b (S n) = add (dot_sum a b n) (mul (a n) (b n)).
Proof. unfold dot_sum. by rewrite seq_S, foldl_snoc. Qed.

(** The innermost loop of [dot]: it leaves in [d[idx]] the sum of the
    products and touches nothing else. *)
Lemma dot_inner_loop (n : N) (va vb : list Val) (oa ob idx : nat)
    (fa fb : nat → Val) (d : list Val) :
  idx < length d →
  (∀ i, i < N.to_nat n → va !! (oa + i) = Some (fa i)) →
  (∀ i, i < N.to_nat n → vb !! (ob + i) = Some (fb i)) →
  (d0 ← store d idx zero;
   for_ (upto n) (λ i d,
     acc ← d !! idx; a ← va !! (oa + i); b ← vb !! (ob + i);
     store d idx (add acc (mul a b))) d0)
  = Some (<[idx := dot_sum fa fb (N.to_nat n)]> d).
Proof.
  intros Hidx Ha Hb. rewrite store_Some by done. simpl.
  destruct (upto_inv (λ i s, s = <[idx := dot_sum fa fb i]> d) n
    (λ i d, acc ← d !! idx; a ← va !! (oa + i); b ← vb !! (ob + i);
            store d idx (add acc (mul a b))) (<[idx := zero]> d))
    as (s & Hs & ->); [done | | done].
  intros i s Hi ->. rewrite list_lookup_insert_eq by done. simpl.
  rewrite Ha, Hb by done. simpl.
  rewrite store_Some by (by rewrite length_insert).
  eexists. split; [done|]. by rewrite list_insert_insert_eq, dot_sum_S.
Qed.

Lemma tabulate_row_length (n : nat) (g : nat → Val) (a : nat) :
  length (seq a n ≫= λ j, [g j]) = n.
Proof. revert a. induction n as [|n IH]; intros a; simpl; [done|]. by rewrite IH. Qed.

Lemma tabulate_row (n : nat) (g : nat → Val) (a j : nat) :
  j < n → (seq a n ≫= λ j, [g j]) !! j = Some (g (a + j)).
Proof.
  revert a j. induction n as [|n IH]; intros a j Hj; [lia|].
  destruct j as [|j]; simpl.
  - by rewrite Nat.add_0_r.
  - rewrite IH by lia. f_equal. f_equal. lia.
Qed.

Lemma tabulate_from_length (a m n : nat) (f : nat → nat → Val) :
  length (seq a m ≫= λ i, seq 0 n ≫= λ j, [f i j]) = m * n.
Proof.
  revert a. induction m as [|m IH]; intros a; simpl; [done|].
  by rewrite length_app, IH, tabulate_row_length.
Qed.

Lemma tabulate_length (m n : nat) (f : nat → nat → Val) :
  length (tabulate m n f) = m * n.
Proof. apply tabulate_from_length. Qed.

Lemma tabulate_from_lookup (a m n : nat) (f : nat → nat → Val) (i j : nat) :
  i < m → j < n →
  (seq a m ≫= λ i, seq 0 n ≫= λ j, [f i j]) !! (i * n + j) = Some (f (a + i) j).
Proof.
  revert a i. induction m as [|m IH]; intros a i Hi Hj; [lia|]. simpl.
  destruct i as [|i].
  - rewrite lookup_app_l by (rewrite tabulate_row_length; lia).
    simpl. rewrite (tabulate_row n (f a) 0 j) by done. by rewrite Nat.add_0_r.
  - rewrite lookup_app_r by (rewrite tabulate_row_length; lia).
    rewrite tabulate_row_length.
    replace (S i * n + j - n) with (i * n + j) by lia.
    rewrite IH by lia. f_equal. f_equal. lia.
Qed.

Lemma tabulate_lookup (m n : nat) (f : nat → nat → Val) (i j : nat) :
  i < m → j < n → tabulate m n f !! (i * n + j) = Some (f i j).
Proof. intros Hi Hj. by apply (tabulate_from_lookup 0). Qed.

(** A store is determined by its length and its entries. *)
Lemma tabulate_unique (m n : nat) (f : nat → nat → Val) (d : list Val) :
  length d = m * n →
  (∀ i j, i < m → j < n → d !! (i * n + j) = Some (f i j)) →
  d = tabulate m n f.
Proof.
  intros Hlen Hd. apply list_eq. intros k.
  destruct (decide (k < m * n)) as [Hk|Hk].
  - assert (0 < n) by (destruct n; lia).
    assert (k = (k / n) * n + k mod n) as Hkn
      by (rewrite (Nat.div_mod_eq k n) at 1; lia).
    assert (k mod n < n) by (apply Nat.mod_upper_bound; lia).
    assert (k / n < m) by (apply Nat.Div0.div_lt_upper_bound; lia).
    rewrite Hkn. rewrite Hd, tabulate_lookup by done. done.
  - rewrite !lookup_ge_None_2; [done | rewrite tabulate_length; lia | lia].
Qed.

Lemma dot_loops (a b t : Matrix) :
  wf a → cols a = rows b →
  (∀ k j, k < nrows b → j < ncols b →
          data t !! (j * nrows b + k) = Some (elem b k j)) →
  for_ (upto (rows a)) (λ row d,
    for_ (upto (cols b)) (λ col d,
      d ← store d (row * N.to_nat (cols b) + col) zero;
      for_ (upto (cols a)) (λ i d,
        acc ← d !! (row * N.to_nat (cols b) + col);
        x ← data a !! (row * N.to_nat (cols a) + i);
        y ← data t !! (col * N.to_nat (cols a) + i);
        store d (row * N.to_nat (cols b) + col) (add acc (mul x y))) d) d)
    (data (Matrix_init (rows a) (cols b) zero))
  = Some (data (mat_mul a b)).
Proof.
  intros Hwf Hab Ht.
  set (m := nrows a). set (p := ncols b).
  set (f := λ i j, dot_sum (elem a i) (λ k, elem b k j) (ncols a)).
  pose (P := λ (row : nat) (d : list Val),
    length d = m * p ∧ ∀ i j, i < row → j < p → d !! (i * p + j) = Some (f i j)).
  match goal with |- for_ _ ?body ?s = _ =>
    destruct (upto_inv P (rows a) body s) as (d & Hd & Hlen & HP) end.
  - split; [|intros; lia]. simpl. rewrite length_replicate. unfold m, p, nrows, ncols. lia.
  - intros row d0 Hrow [Hl0 H0]. change (row < m) in Hrow.
    pose (Q := λ (col : nat) (d : list Val),
      length d = m * p ∧
      (∀ i j, i < row → j < p → d !! (i * p + j) = Some (f i j)) ∧
      ∀ j, j < col → d !! (row * p + j) = Some (f row j)).
    match goal with |- ∃ _, for_ _ ?body ?s = _ ∧ _ =>
      destruct (upto_inv Q (cols b) body s) as (d1 & Hd1 & Hl1 & Hold & Hnew) end.
    + split; [done|]. split; [done|]. intros; lia.
    + intros col d1 Hcol (Hl1 & Hold & Hnew). change (col < p) in Hcol.
      assert (row * p + col < length d1) by (rewrite Hl1; by apply index_lt).
      rewrite (dot_inner_loop (cols a) (data a) (data t) _ _ _
                 (elem a row) (λ k, elem b k col)); [|done|..].
      * eexists. split; [done|]. split; [by rewrite length_insert|]. split.
        -- intros i j Hi Hj. rewrite list_lookup_insert_ne; [by apply Hold|].
           intros Heq. apply index_inj in Heq; lia.
        -- intros j Hj. destruct (decide (j = col)) as [->|Hne].
           ++ by rewrite list_lookup_insert_eq.
           ++ rewrite list_lookup_insert_ne; [apply Hnew; lia|].
              intros Heq. apply index_inj in Heq; lia.
      * intros i Hi. change (N.to_nat (cols a)) with (ncols a) in *.
        rewrite <- get_Some_lookup by done. by apply get_elem.
      * intros i Hi. rewrite Hab in *. apply (Ht i col); done.
    + exists d1. split; [done|]. split; [done|].
      intros i j Hi Hj. destruct (decide (i = row)) as [->|Hne].
      * by apply Hnew.
      * apply Hold; [lia|done].
  - rewrite Hd. f_equal. simpl. by apply tabulate_unique.
Qed.

Lemma mat_mul_wf (a b : Matrix) : wf (mat_mul a b).
Proof. unfold wf, mat_mul; simpl. by rewrite tabulate_length. Qed.

(** [dot] computes the product whenever the shapes agree. *)
Lemma dot_mat_mul (a b : Matrix) :
  wf a → wf b → cols a = rows b → dot a b = Some (mat_mul a b).
Proof.
  intros Ha Hb Hab. unfold dot.
  rewrite option_guard_True by done. simpl.
  destruct (transpose_lookup b Hb) as (t & -> & Ht). cbv zeta. simpl.
  pose proof (dot_loops a b t Ha Hab Ht) as Hloops. simpl in Hloops.
  by rewrite Hloops.
Qed.

End MatrixFacts.

(** ** The nested-vector [dot] against the contiguous one *)

Section Refinement.
Context `{Sc : Scalar}.


Lemma to_nested_length (a : Matrix) : length (to_nested a) = nrows a.
Proof. unfold to_nested. by rewrite length_fmap, length_seq. Qed.

Lemma to_nested_lookup (a : Matrix) (i : nat) :
  i < nrows a →
  to_nested a !! i = Some (take (ncols a) (drop (i * ncols a) (data a))).
Proof.
  intros Hi. unfold to_nested. rewrite list_lookup_fmap, lookup_seq_lt by done.
  done.
Qed.







Lemma mat_mul_shape (a b : Matrix) :
  nrows (mat_mul a b) = nrows a ∧ ncols (mat_mul a b) = ncols b.
Proof. done. Qed.



End Refinement.

(** ** The operators on shaped matrices *)

Lemma for_fmap {I J St : Type} (f : I → J) (r : list I)
    (body : J → St → option St) (s : St) :
  for_ (f <$> r) body s = for_ r (λ i, body (f i)) s.
Proof.
  revert s. induction r as [|i r IH]; intros s; simpl; [done|].
  destruct (body (f i) s); simpl; [apply IH | done].
Qed.

Lemma for_seq_shift {St : Type} (a n : nat) (body : nat → St → option St) (s : St) :
  for_ (seq (S a) n) body s = for_ (seq a n) (λ i, body (S i)) s.
Proof. by rewrite <- fmap_S_seq, for_fmap. Qed.

Section ShapeFacts.
Context `{Sc : Scalar}.

Lemma has_shape_nrows (r c : N) (m : Matrix) :
  has_shape r c m → nrows m = N.to_nat r ∧ ncols m = N.to_nat c.
Proof. intros (_ & <- & <-). done. Qed.

Lemma mat_map_shape (r c : N) (f : Val → Val) (m : Matrix) :
  has_shape r c m → has_shape r c (mat_map f m).
Proof.
  intros (Hwf & Hr & Hc). split; [|done].
  unfold wf in *. simpl. by rewrite length_fmap.
Qed.

Lemma mat_zip_shape (r c : N) (f : Val → Val → Val) (a b : Matrix) :
  has_shape r c a → has_shape r c b → has_shape r c (mat_zip f a b).
Proof.
  intros (Ha & Hr & Hc) (Hb & Hr' & Hc'). split; [|done].
  unfold wf, nrows, ncols in *. simpl. rewrite length_zip_with. lia.
Qed.

Lemma mat_mul_has_shape (m n p : N) (a b : Matrix) :
  has_shape m n a → has_shape n p b → has_shape m p (mat_mul a b).
Proof.
  intros (Ha & Hr & Hc) (Hb & Hr' & Hc'). split; [apply mat_mul_wf | done].
Qed.


Lemma dot_shaped (m n p : N) (a b : Matrix) :
  has_shape m n a → has_shape n p b → dot a b = Some (mat_mul a b).
Proof.
  intros (Ha & Hr & Hc) (Hb & Hr' & Hc'). apply dot_mat_mul; [done..|congruence].
Qed.

Lemma plus_shaped (r c : N) (a b : Matrix) :
  has_shape r c a → has_shape r c b → plus a b = Some (mat_zip add a b).
Proof.
  intros (_ & Hr & Hc) (_ & Hr' & Hc'). unfold plus.
  rewrite option_guard_True; [done | split; congruence].
Qed.



(** On a matrix with at least one row and one column [transpose] is the
    transposition. *)
Lemma transpose_shaped (r c : N) (m : Matrix) :
  has_shape r c m → (r ≠ 0)%N → (c ≠ 0)%N →
  transpose m = Some (mat_transpose m).
Proof.
  intros (Hwf & Hr & Hc) Hr0 Hc0.
  destruct (transpose_nonempty m Hwf) as (t & -> & Hwt & Hrt & Hct & Hl);
    [congruence.. |].
  f_equal. destruct t as [d rt ct]. simpl in *. subst rt ct.
  unfold mat_transpose. f_equal.
  apply tabulate_unique.
  - unfold wf, nrows, ncols in Hwt. simpl in Hwt. done.
  - intros j i Hj Hi. rewrite Hl by done.
    rewrite <- get_Some_lookup by done. by apply get_elem.
Qed.

End ShapeFacts.

(** ** classify *)

Section ClassifyFacts.
Context `{Sc : Scalar}.

Lemma layers_ok_length (ls : list N) (ws bs : list Matrix) :
  layers_ok ls ws bs →
  length ws = length ls - 1 ∧ length bs = length ls - 1.
Proof. induction 1; simpl in *; lia. Qed.

(** The loop of [classify] runs through all layers and computes the
    forward pass; its result is a column of the last width. *)
Lemma classify_loop (ls : list N) (ws bs : list Matrix) (w0 : N) (inputs : Matrix) :
  layers_ok ls ws bs → head ls = Some w0 → has_shape w0 1 inputs →
  for_ (seq 0 (length ws)) (λ lyr result,
    w ← ws !! lyr; wr ← dot w result; b ← bs !! lyr; s ← plus wr b;
    Some (apply s sigmoid)) inputs
  = Some (forward ws bs inputs)
  ∧ ∃ wl, last ls = Some wl ∧ has_shape wl 1 (forward ws bs inputs).
Proof.
  intros Hok. revert w0 inputs.
  induction Hok as [w0'|w0' w1 ls w b ws bs Hw Hb Hok IH]; intros w0 inputs [= ->] Hin.
  - simpl. split; [done|]. by exists w0.
  - simpl.
    rewrite (dot_shaped w1 w0 1) by done. simpl.
    rewrite (plus_shaped w1 1) by (done || by apply (mat_mul_has_shape w1 w0 1)).
    simpl. rewrite for_seq_shift.
    destruct (IH w1 (mat_map sigmoid (mat_zip add (mat_mul w inputs) b)))
      as [Hfor (wl & Hwl & Hsh)]; [done | |].
    { apply mat_map_shape, mat_zip_shape; [|done].
      by apply (mat_mul_has_shape w1 w0 1). }
    split; [exact Hfor|]. by exists wl.
Qed.

Lemma net_inv_layers_ok (ls : list N) (net : NeuralNet) :
  net_inv ls net → ls ≠ [] → layers_ok ls (weights net) (biases net).
Proof.
  intros (_ & Hlb & Hlw & Hsh) Hne.
  generalize dependent (biases net). generalize dependent (weights net).
  induction ls as [|w0 ls IH]; [done|]. intros ws Hlw bs Hlb Hsh.
  destruct ls as [|w1 ls].
  - destruct ws; [|done]. destruct bs; [|done]. constructor.
  - destruct (Hsh 0 w0 w1) as (w & b & Hw & Hb & Hsw & Hsb); [done..|].
    destruct ws as [|w' ws]; [done|]. destruct bs as [|b' bs]; [done|].
    simpl in Hw, Hb. injection Hw as ->. injection Hb as ->.
    constructor; [done..|]. apply IH; [done | simpl in *; lia | simpl in *; lia |].
    intros l wl wl1 Hl Hl1. apply (Hsh (S l) wl wl1); done.
Qed.

End ClassifyFacts.

(** ** learn *)





Section ForwardGen.
Context `{Sc : Scalar}.





End ForwardGen.

Section ForwardFacts.
Context `{Sc : Scalar}.
Variables (ls : list N) (ws bs : list Matrix) (inputs : Matrix).
Hypothesis Hlen_ws : length ws = length ls - 1.
Hypothesis Hlen_bs : length bs = length ls - 1.
Hypothesis Hshapes : ∀ l wl wl1, ls !! l = Some wl → ls !! (S l) = Some wl1 →
  ∃ w b, ws !! l = Some w ∧ bs !! l = Some b ∧
         has_shape wl1 wl w ∧ has_shape wl1 1 b.
Hypothesis Hinputs : ∃ w0, ls !! 0 = Some w0 ∧ has_shape w0 1 inputs.




End ForwardFacts.

Section DeltaFacts.
Context `{Sc : Scalar}.







End DeltaFacts.

Section LearnFacts.
Context `{Sc : Scalar}.



End LearnFacts.

(** ** The invariant of the network *)

(** A property that every iteration keeps holds when the loop returns. *)
Lemma for_preserves {I St : Type} (P : St → Prop) (range : list I)
    (body : I → St → option St) (s s' : St) :
  (∀ i s s', P s → body i s = Some s' → P s') →
  P s → for_ range body s = Some s' → P s'.
Proof.
  intros Hstep. revert s. induction range as [|i range IH]; intros s Hs Hfor;
    simpl in Hfor.
  - by injection Hfor as <-.
  - apply bind_Some in Hfor as (s1 & Hs1 & Hfor). eauto.
Qed.

Lemma store_length {A : Type} (v v' : list A) (i : nat) (x : A) :
  store v i x = Some v' → length v' = length v.
Proof.
  unfold store. case_decide; [|done]. intros [= <-]. apply length_insert.
Qed.

Lemma store_at_Some {A : Type} (v v' : list A) (i : Z) (x : A) :
  store_at v i x = Some v' → v' = <[Z.to_nat i := x]> v.
Proof.
  unfold store_at, store. case_decide; [|done]. case_decide; [|done].
  by intros [= <-].
Qed.

Section Preservation.
Context `{Sc : Scalar}.


(** Whatever the operands, a result of [dot] is a matrix. *)
Lemma dot_Some_wf (a b r : Matrix) :
  dot a b = Some r → wf r ∧ rows r = rows a ∧ cols r = cols b.
Proof.
  unfold dot. intros H.
  apply bind_Some in H as (_ & _ & H).
  apply bind_Some in H as (t & _ & H). cbv zeta in H.
  apply bind_Some in H as (d & Hd & [= <-]). simpl.
  split; [|done]. unfold wf, nrows, ncols. simpl.
  apply (for_preserves (λ d : list Val,
    length d = N.to_nat (rows a) * N.to_nat (cols b))) in Hd; [done | |].
  - intros row d1 d2 Hd1 Hrow.
    apply (for_preserves (λ d : list Val,
      length d = N.to_nat (rows a) * N.to_nat (cols b))) in Hrow; [done | | done].
    intros col d3 d4 Hd3 Hcol.
    apply bind_Some in Hcol as (d5 & Hd5 & Hcol).
    apply store_length in Hd5.
    apply (for_preserves (λ d : list Val,
      length d = N.to_nat (rows a) * N.to_nat (cols b))) in Hcol; [done | | lia].
    intros i d6 d7 Hd6 Hi.
    apply bind_Some in Hi as (? & _ & Hi). apply bind_Some in Hi as (? & _ & Hi).
    apply bind_Some in Hi as (? & _ & Hi). apply store_length in Hi. lia.
  - simpl. rewrite length_replicate. lia.
Qed.

Lemma mat_map_wf (f : Val → Val) (m : Matrix) : wf m → wf (mat_map f m).
Proof. unfold wf. simpl. by rewrite length_fmap. Qed.

Lemma mat_zip_wf (f : Val → Val → Val) (a b : Matrix) :
  wf a → wf b → same_shape a b → wf (mat_zip f a b).
Proof.
  unfold wf, same_shape, nrows, ncols. simpl. intros Ha Hb [Hr Hc].
  rewrite length_zip_with, Ha, Hb, Hr, Hc. lia.
Qed.

Lemma plus_Some (a b r : Matrix) :
  plus a b = Some r → same_shape a b ∧ r = mat_zip add a b.
Proof. unfold plus. intros H. apply bind_Some in H as (Hs & _ & [= <-]). done. Qed.

Lemma minus_Some (a b r : Matrix) :
  minus a b = Some r → same_shape a b ∧ r = mat_zip sub a b.
Proof. unfold minus. intros H. apply bind_Some in H as (Hs & _ & [= <-]). done. Qed.

Lemma hadamard_Some (a b r : Matrix) :
  hadamard a b = Some r → same_shape a b ∧ r = mat_zip mul a b.
Proof. unfold hadamard. intros H. apply bind_Some in H as (Hs & _ & [= <-]). done. Qed.

Lemma at_Some {A : Type} (v : list A) (i : Z) (x : A) :
  at_ v i = Some x → (0 ≤ i)%Z ∧ v !! Z.to_nat i = Some x.
Proof. unfold at_. by case_decide. Qed.

Lemma at_Forall {A : Type} (P : A → Prop) (v : list A) (i : Z) (x : A) :
  Forall P v → at_ v i = Some x → P x.
Proof.
  intros Hv Hx. apply at_Some in Hx as [_ Hx]. exact (Forall_lookup_1 P v _ x Hv Hx).
Qed.

Lemma last_Forall {A : Type} (P : A → Prop) (v : list A) (x : A) :
  Forall P v → last v = Some x → P x.
Proof.
  intros Hv Hx. rewrite last_lookup in Hx. exact (Forall_lookup_1 P v _ x Hv Hx).
Qed.

Lemma params_ok_wf (ls : list N) (bs ws : list Matrix) :
  params_ok ls bs ws → Forall wf bs ∧ Forall wf ws.
Proof.
  intros (Hlb & Hlw & Hsh).
  split; apply Forall_lookup_2; intros l x Hx.
  - pose proof (lookup_lt_Some _ _ _ Hx) as Hl.
    destruct (lookup_lt_is_Some_2 ls l) as [n Hn]; [lia|].
    destruct (lookup_lt_is_Some_2 ls (S l)) as [n' Hn']; [lia|].
    destruct (Hsh l n n' Hn Hn') as (w & b & _ & Hb & _ & Hsb & _).
    congruence.
  - pose proof (lookup_lt_Some _ _ _ Hx) as Hl.
    destruct (lookup_lt_is_Some_2 ls l) as [n Hn]; [lia|].
    destruct (lookup_lt_is_Some_2 ls (S l)) as [n' Hn']; [lia|].
    destruct (Hsh l n n' Hn Hn') as (w & b & Hw & _ & (Hsw & _) & _).
    congruence.
Qed.

(** Replacing a parameter by a matrix of the same shape keeps the
    invariant. *)
Lemma params_ok_update (ls : list N) (bs ws : list Matrix) (k : nat)
    (w w' b b' : Matrix) :
  params_ok ls bs ws →
  ws !! k = Some w → wf w' → same_shape w w' →
  bs !! k = Some b → wf b' → same_shape b b' →
  params_ok ls (<[k:=b']> bs) (<[k:=w']> ws).
Proof.
  intros (Hlb & Hlw & Hsh) Hw Hw' [Hwr Hwc] Hb Hb' [Hbr Hbc].
  split; [by rewrite length_insert|]. split; [by rewrite length_insert|].
  intros l n n' Hn Hn'. destruct (Hsh l n n' Hn Hn') as (w1 & b1 & Hw1 & Hb1 & Hsw & Hsb).
  destruct (decide (l = k)) as [->|Hne].
  - exists w', b'.
    rewrite !list_lookup_insert_eq by (by eapply lookup_lt_Some).
    split; [done|]. split; [done|].
    assert (w1 = w) as -> by congruence. assert (b1 = b) as -> by congruence.
    destruct Hsw as (_ & Hr1 & Hc1). destruct Hsb as (_ & Hr2 & Hc2).
    split; (split; [done | split; congruence]).
  - exists w1, b1. by rewrite !list_lookup_insert_ne.
Qed.

(** A call of [learn] that returns leaves a network of the same shapes. *)
Lemma learn_preserves (ls : list N) (net net' : NeuralNet)
    (inputs expected : Matrix) (eta : Val) :
  net_inv ls net → wf inputs → wf expected →
  learn net inputs expected eta = Some net' → net_inv ls net'.
Proof.
  intros (HlS & Hok) Hin Hexp Hlearn.
  destruct (params_ok_wf ls _ _ Hok) as [Hbwf Hwwf].
  unfold learn in Hlearn.
  apply bind_Some in Hlearn as ([[act acts] zs] & Hfwd & Hlearn).
  apply (for_preserves (λ st : Matrix * list Matrix * list Matrix,
    Forall wf st.1.2 ∧ Forall wf st.2)) in Hfwd.
  2:{ intros lyr [[a1 as1] zs1] [[a2 as2] zs2] [Has Hzs] Hbody. simpl in *.
      apply bind_Some in Hbody as (w & Hw & Hbody).
      apply bind_Some in Hbody as (wa & Hwa & Hbody).
      apply bind_Some in Hbody as (b & Hb & Hbody).
      apply bind_Some in Hbody as (z & Hz & Hbody).
      apply bind_Some in Hbody as (zb & Hzb & [= <- <- <-]).
      rewrite last_snoc in Hzb. injection Hzb as <-.
      apply dot_Some_wf in Hwa as (Hwawf & Hwar & Hwac).
      apply plus_Some in Hz as [Hss ->].
      assert (wf (mat_zip add wa b)) as Hzwf.
      { apply mat_zip_wf; [done | | done]. exact (Forall_lookup_1 wf (biases net) lyr b Hbwf Hb). }
      split; apply Forall_app; (split; [done|]); apply Forall_singleton; [|done].
      by apply mat_map_wf. }
  2:{ simpl. split; [by apply Forall_singleton | done]. }
  destruct Hfwd as [Hacts Hzs]. simpl in Hacts, Hzs.
  apply bind_Some in Hlearn as (ab & Hab & Hlearn).
  apply bind_Some in Hlearn as (diff & Hdiff & Hlearn).
  apply bind_Some in Hlearn as (zb & Hzb & Hlearn).
  apply bind_Some in Hlearn as (delta & Hdelta & Hlearn).
  cbv zeta in Hlearn.
  apply bind_Some in Hlearn as (a & Ha & Hlearn).
  apply bind_Some in Hlearn as (aT & HaT & Hlearn).
  apply bind_Some in Hlearn as (nw & Hnw & Hlearn).
  apply bind_Some in Hlearn as ([[delta' nabla_b] nabla_w] & Hback & Hlearn).
  apply bind_Some in Hlearn as ([ws' bs'] & Hupd & [= <-]).
  pose proof (last_Forall wf _ _ Hacts Hab) as Habwf.
  pose proof (last_Forall wf _ _ Hzs Hzb) as Hzbwf.
  apply minus_Some in Hdiff as [Hsd ->].
  apply hadamard_Some in Hdelta as [Hsdelta ->].
  assert (wf (mat_zip mul (mat_zip sub ab expected) (apply zb invSigmoid))) as Hdwf.
  { apply mat_zip_wf; [by apply mat_zip_wf | by apply mat_map_wf | done]. }
  apply dot_Some_wf in Hnw as (Hnwwf & _).
  apply (for_preserves (λ st : Matrix * list Matrix * list Matrix,
    wf st.1.1 ∧ Forall wf st.1.2 ∧ Forall wf st.2)) in Hback.
  2:{ intros lyr [[d1 nb1] nw1] [[d2 nb2] nw2] (Hd1 & Hnb1 & Hnw1) Hbody. simpl in *.
      apply bind_Some in Hbody as (z & Hz & Hbody).
      apply bind_Some in Hbody as (w & Hw & Hbody).
      apply bind_Some in Hbody as (wT & HwT & Hbody).
      apply bind_Some in Hbody as (wd & Hwd & Hbody).
      apply bind_Some in Hbody as (d & Hd & Hbody).
      apply bind_Some in Hbody as (a' & Ha' & Hbody).
      apply bind_Some in Hbody as (aT' & HaT' & Hbody).
      apply bind_Some in Hbody as (nw' & Hnw' & [= <- <- <-]).
      apply dot_Some_wf in Hwd as (Hwdwf & _).
      apply dot_Some_wf in Hnw' as (Hnwwf' & _).
      apply hadamard_Some in Hd as [Hsh ->].
      assert (wf (mat_zip mul wd (apply z invSigmoid))) as Hdwf'.
      { apply mat_zip_wf; [done | | done]. apply mat_map_wf.
        exact (at_Forall wf zs _ z Hzs Hz). }
      split; [done|].
      split; apply Forall_app; (split; [done|]); by apply Forall_singleton. }
  2:{ simpl. split; [done|]. split; by apply Forall_singleton. }
  destruct Hback as (_ & Hnb & Hnww). simpl in Hnb, Hnww.
  apply (for_preserves (λ st : list Matrix * list Matrix,
    params_ok ls st.2 st.1)) in Hupd.
  2:{ intros lyr [wc bc] [wc' bc'] Hcur Hbody. simpl in *.
      apply bind_Some in Hbody as (w & Hw & Hbody).
      apply bind_Some in Hbody as (gw & Hgw & Hbody).
      apply bind_Some in Hbody as (w' & Hw' & Hbody).
      apply bind_Some in Hbody as (wc1 & Hwc1 & Hbody).
      apply bind_Some in Hbody as (b & Hb & Hbody).
      apply bind_Some in Hbody as (gb & Hgb & Hbody).
      apply bind_Some in Hbody as (b' & Hb' & Hbody).
      apply bind_Some in Hbody as (bc1 & Hbc1 & [= <- <-]).
      destruct (params_ok_wf ls _ _ Hcur) as [Hbcwf Hwcwf].
      pose proof (at_Forall wf _ _ _ Hwcwf Hw) as Hwwf'.
      pose proof (at_Forall wf _ _ _ Hbcwf Hb) as Hbwf'.
      pose proof (at_Forall wf _ _ _ Hnww Hgw) as Hgwwf.
      pose proof (at_Forall wf _ _ _ Hnb Hgb) as Hgbwf.
      apply at_Some in Hw as [Hlyr Hw]. apply at_Some in Hb as [_ Hb].
      apply minus_Some in Hw' as [Hsw ->]. apply minus_Some in Hb' as [Hsb ->].
      apply store_at_Some in Hwc1 as ->. apply store_at_Some in Hbc1 as ->.
      apply (params_ok_update ls bc wc _ w _ b); try done.
      - apply mat_zip_wf; [done | by apply mat_map_wf | done].
      - apply mat_zip_wf; [done | by apply mat_map_wf | done]. }
  2:{ done. }
  split; done.
Qed.

End Preservation.

(** ** The constructor *)

Section Constructor.
Context `{Sc : Scalar}.

(** [std::copy_n] into a row of the right length writes every entry. *)
Lemma copy_loop (layers : list Z) :
  for_ (seq 0 (length layers)) (λ k d,
    x ← layers !! k; store d k (of_int x)) (replicate (length layers) zero)
  = Some (of_int <$> layers).
Proof.
  set (L := length layers).
  destruct (for_seq_inv (λ k d,
    d = (of_int <$> take k layers) ++ replicate (L - k) zero) 0 L
    (λ k d, x ← layers !! k; store d k (of_int x)) (replicate L zero))
    as (d & Hd & ->).
  - simpl. by rewrite Nat.sub_0_r.
  - intros k d Hk ->.
    destruct (lookup_lt_is_Some_2 layers k) as [x Hx]; [lia|].
    rewrite Hx. simpl.
    assert (length (of_int <$> take k layers) = k) as Hlen
      by (rewrite length_fmap, length_take; lia).
    rewrite store_Some by (rewrite length_app, length_replicate, Hlen; lia).
    eexists. split; [done|].
    rewrite insert_app_r_alt by lia. rewrite Hlen, Nat.sub_diag.
    replace (L - k) with (S (L - (1 + k))) by lia. simpl.
    rewrite (take_S_r layers k x Hx), fmap_app, <- app_assoc. done.
  - rewrite Hd. f_equal. simpl. rewrite Nat.sub_diag, app_nil_r.
    by rewrite take_ge by lia.
Qed.

Lemma init_loop (layers : list Z) :
  ∃ bs ws, initBiasAndWeightMatrices layers [] [] = Some (bs, ws) ∧
    length bs = length layers - 1 ∧ length ws = length layers - 1 ∧
    ∀ l r c, layers !! l = Some c → layers !! S l = Some r →
      bs !! l = Some (Matrix_init (size_t_of_int r) 1 zero) ∧
      ws !! l = Some (Matrix_init (size_t_of_int r) (size_t_of_int c) zero).
Proof.
  unfold initBiasAndWeightMatrices.
  pose (P := λ (lyr : nat) (st : list Matrix * list Matrix),
    length st.1 = lyr - 1 ∧ length st.2 = lyr - 1 ∧
    ∀ l r c, S l < lyr → layers !! l = Some c → layers !! S l = Some r →
      st.1 !! l = Some (Matrix_init (size_t_of_int r) 1 zero) ∧
      st.2 !! l = Some (Matrix_init (size_t_of_int r) (size_t_of_int c) zero)).
  match goal with |- ∃ _ _, for_ _ ?body ?s = _ ∧ _ =>
    destruct (for_seq_inv P 1 (length layers - 1) body s)
      as ([bs ws] & Hfor & Hlb & Hlw & Hl) end.
  - split; [done|]. split; [done|]. intros; lia.
  - intros lyr [bs ws] Hlyr (Hlb & Hlw & Hl). simpl in *.
    destruct (lookup_lt_is_Some_2 layers lyr) as [r Hr]; [lia|].
    destruct (lookup_lt_is_Some_2 layers (lyr - 1)) as [c Hc]; [lia|].
    rewrite Hr, Hc. simpl. eexists. split; [done|]. unfold P. simpl.
    rewrite !length_app. simpl. split; [lia|]. split; [lia|].
    intros l r' c' Hlt Hc' Hr'.
    destruct (decide (S l = lyr)) as [<-|Hne].
    + replace (S l - 1) with l in * by lia.
      assert (r' = r) as -> by congruence. assert (c' = c) as -> by congruence.
      rewrite !lookup_app_r by lia.
      replace (l - length bs) with 0 by lia. replace (l - length ws) with 0 by lia.
      done.
    + rewrite !lookup_app_l by lia. apply Hl; [lia | done..].
  - exists bs, ws. split; [done|]. simpl in *.
    split; [lia|]. split; [lia|]. intros l r c Hc Hr. apply Hl; [|done..].
    apply lookup_lt_Some in Hr. lia.
Qed.

Lemma size_t_of_width (z : Z) : is_width z → size_t_of_int z = Z.to_N z.
Proof. unfold is_width, size_t_of_int. intros Hz. by rewrite Z.mod_small by lia. Qed.

(** The constructor establishes the invariant, with every parameter zero. *)
Lemma NeuralNet_init_inv (layers : list Z) :
  Forall is_width layers →
  ∃ net, NeuralNet_init layers = Some net ∧
         net_inv (Z.to_N <$> layers) net ∧ all_zero net.
Proof.
  intros Hwidths. unfold NeuralNet_init. simpl.
  replace (N.to_nat (1 * N.of_nat (length layers))) with (length layers) by lia.
  rewrite copy_loop. simpl.
  destruct (init_loop layers) as (bs & ws & -> & Hlb & Hlw & Hl). simpl.
  eexists. split; [reflexivity|]. split; [split|].
  - simpl. f_equal; [|by rewrite length_fmap].
    rewrite <- list_fmap_compose. apply Forall_fmap_ext_1.
    eapply Forall_impl; [exact Hwidths|]. intros z Hz. simpl.
    unfold is_width in Hz. by rewrite Z2N.id by lia.
  - unfold params_ok. simpl. rewrite length_fmap. split; [done|]. split; [done|].
    intros l wl wl1 Hwl Hwl1. rewrite list_lookup_fmap in Hwl, Hwl1.
    apply fmap_Some in Hwl as (c & Hc & ->).
    apply fmap_Some in Hwl1 as (r & Hr & ->).
    destruct (Hl l r c Hc Hr) as [Hb Hw].
    pose proof (Forall_lookup_1 _ _ _ _ Hwidths Hc) as Hcw.
    pose proof (Forall_lookup_1 _ _ _ _ Hwidths Hr) as Hrw.
    eexists _, _. split; [exact Hw|]. split; [exact Hb|].
    rewrite !size_t_of_width by done.
    split; (split; [apply Matrix_init_wf | done]).
  - unfold all_zero. simpl. apply Forall_app.
    split; apply Forall_lookup_2; intros l m Hm.
    + pose proof (lookup_lt_Some _ _ _ Hm) as Hlt.
      destruct (lookup_lt_is_Some_2 layers l) as [c Hc]; [lia|].
      destruct (lookup_lt_is_Some_2 layers (S l)) as [r Hr]; [lia|].
      destruct (Hl l r c Hc Hr) as [Hb _].
      assert (m = Matrix_init (size_t_of_int r) 1 zero) as -> by congruence.
      simpl. apply Forall_replicate. done.
    + pose proof (lookup_lt_Some _ _ _ Hm) as Hlt.
      destruct (lookup_lt_is_Some_2 layers l) as [c Hc]; [lia|].
      destruct (lookup_lt_is_Some_2 layers (S l)) as [r Hr]; [lia|].
      destruct (Hl l r c Hc Hr) as [_ Hw].
      assert (m = Matrix_init (size_t_of_int r) (size_t_of_int c) zero) as ->
        by congruence.
      simpl. apply Forall_replicate. done.
Qed.

(** Every network reachable from one that satisfies the invariant
    satisfies it. *)
Lemma reachable_inv (ls : list N) (net net' : NeuralNet) :
  net_inv ls net → reachable net net' → net_inv ls net'.
Proof.
  intros Hinv Hreach. induction Hreach as [|net1 net2 c out Hreach IH Hc Hrun];
    [done|].
  destruct c as [inputs expected eta|inputs]; simpl in Hrun.
  - apply bind_Some in Hrun as (n & Hlearn & [= <- _]).
    destruct Hc as [Hin Hexp]. by apply (learn_preserves ls net1 n inputs expected eta).
  - apply bind_Some in Hrun as (o & _ & [= <- _]). done.
Qed.

End Constructor.

(** ** Streams: extraction and insertion *)

Lemma for_seq_offset {St : Type} (a n : nat) (body : nat → St → option St) (s : St) :
  for_ (seq a n) body s = for_ (seq 0 n) (λ i, body (a + i)) s.
Proof.
  rewrite <- (Nat.add_0_r a) at 1. by rewrite <- fmap_add_seq, for_fmap.
Qed.

(** Two nested counting loops are one loop over the row-major index. *)
Lemma for_nested_flat {St : Type} (h w : nat) (body : nat → St → option St) (s : St) :
  for_ (seq 0 h) (λ row s, for_ (seq 0 w) (λ col s, body (row * w + col) s) s) s
  = for_ (seq 0 (h * w)) body s.
Proof.
  revert s. induction h as [|h IH]; intros s; [done|].
  rewrite seq_S, for_app, IH. simpl.
  replace (w + h * w) with (h * w + w) by lia.
  rewrite seq_app, for_app. simpl.
  destruct (for_ (seq 0 (h * w)) body s) as [s1|]; simpl; [|done].
  rewrite (for_seq_offset (h * w) w).
  by destruct (for_ (seq 0 w) (λ i, body (h * w + i)) s1).
Qed.

Lemma digit_not_space (c : ascii) : isspace c = true → digit_of c = None.
Proof.
  intros Hc. unfold digit_of.
  repeat match goal with |- context [Ascii.eqb c ?d] =>
    destruct (Ascii.eqb_spec c d) as [->|_]; [by vm_compute in Hc|] end.
  done.
Qed.

Lemma sign_not_space (c : ascii) :
  isspace c = true → Ascii.eqb c "-" = false ∧ Ascii.eqb c "+" = false.
Proof.
  intros Hc. split;
    match goal with |- context [Ascii.eqb c ?d] =>
      destruct (Ascii.eqb_spec c d) as [->|_]; [by vm_compute in Hc | done] end.
Qed.

Lemma digit_not_sign (c : ascii) (d : Decimal.uint → Decimal.uint) :
  digit_of c = Some d →
  isspace c = false ∧ Ascii.eqb c "-" = false ∧ Ascii.eqb c "+" = false.
Proof.
  unfold digit_of.
  repeat match goal with |- context [Ascii.eqb c ?d] =>
    destruct (Ascii.eqb_spec c d) as [->|_]; [by intros _; vm_compute|] end.
  done.
Qed.

Lemma skip_ws_blank (ws s : list ascii) : blank ws → skip_ws (ws ++ s) = skip_ws s.
Proof.
  induction 1 as [|c ws Hc _ IH]; [done|]. simpl. by rewrite Hc.
Qed.

Lemma skip_ws_all_blank (ws : list ascii) : blank ws → skip_ws ws = [].
Proof.
  intros H. rewrite <- (app_nil_r ws). by rewrite skip_ws_blank.
Qed.

Lemma ends_token_no_digit (s : list ascii) : ends_token s → no_digit s.
Proof. destruct s as [|c s]; [done|]. simpl. apply digit_not_space. Qed.

Lemma read_uint_show (u : Decimal.uint) (s : list ascii) :
  no_digit s → read_uint (show_uint u ++ s) = (u, s).
Proof.
  intros Hs. induction u; simpl; try (by rewrite IHu).
  destruct s as [|c s]; [done|]. simpl in *. by rewrite Hs.
Qed.

(** A digit string starts with a digit. *)
Lemma show_uint_head (u : Decimal.uint) (s : list ascii) :
  u ≠ Decimal.Nil →
  ∃ c t d, show_uint u ++ s = c :: t ∧ digit_of c = Some d.
Proof. destruct u; [done|..]; intros _; simpl; eauto. Qed.

Lemma N_to_uint_nonnil (n : N) : N.to_uint n ≠ Decimal.Nil.
Proof. destruct n; [done|]. apply DecimalPos.Unsigned.to_uint_nonnil. Qed.

Lemma extract_int_digits (ws s : list ascii) (u : Decimal.uint) (x : Z) :
  blank ws → u ≠ Decimal.Nil → no_digit s →
  extract_int {| buf := ws ++ show_uint u ++ s; failbit := false |} x
  = ({| buf := s; failbit := (int_result (int_value false u)).1 |},
     (int_result (int_value false u)).2).
Proof.
  intros Hws Hu Hs. unfold extract_int. simpl. rewrite skip_ws_blank by done.
  destruct (show_uint_head u s Hu) as (c & t & d & Heq & Hd).
  destruct (digit_not_sign c d Hd) as (Hsp & Hm & Hp).
  rewrite Heq. simpl. rewrite Hsp. unfold read_sign. rewrite Hm, Hp.
  rewrite <- Heq, read_uint_show by done.
  unfold int_result, int_value.
  destruct u; [done|..]; by repeat case_match.
Qed.

Lemma extract_int_show_N (ws s : list ascii) (n : N) (x : Z) :
  blank ws → no_digit s → (Z.of_N n ≤ INT_MAX)%Z →
  extract_int {| buf := ws ++ show_N n ++ s; failbit := false |} x
  = ({| buf := s; failbit := false |}, Z.of_N n).
Proof.
  intros Hws Hs Hn. unfold show_N.
  rewrite extract_int_digits by (done || apply N_to_uint_nonnil).
  unfold int_result, int_value. rewrite DecimalN.Unsigned.of_to.
  unfold INT_MAX, INT_MIN in *.
  rewrite (proj2 (Z.ltb_ge _ _)) by lia. rewrite (proj2 (Z.ltb_ge _ _)) by lia.
  done.
Qed.

Lemma extract_int_show_N0 (s : list ascii) (n : N) (x : Z) :
  no_digit s → (Z.of_N n ≤ INT_MAX)%Z →
  extract_int {| buf := show_N n ++ s; failbit := false |} x
  = ({| buf := s; failbit := false |}, Z.of_N n).
Proof.
  intros Hs Hn. apply (extract_int_show_N [] s n x); [constructor | done | done].
Qed.


Lemma extract_int_failed (ist : istream) (x : Z) :
  failbit ist = true → extract_int ist x = (ist, x).
Proof. intros H. unfold extract_int. by rewrite H. Qed.



Section ValueStreams.
Context `{VT : ValText}.

Lemma extract_val_failed (ist : istream) (x : Val) :
  failbit ist = true → extract_val ist x = (ist, x).
Proof. intros H. unfold extract_val. by rewrite H. Qed.

Lemma extract_val_blank (s : list ascii) (x : Val) :
  blank s →
  extract_val {| buf := s; failbit := false |} x = ({| buf := []; failbit := true |}, x).
Proof. intros H. unfold extract_val. simpl. by rewrite skip_ws_all_blank. Qed.

(** White space in front of a value is skipped. *)
Lemma extract_val_skip (ws s : list ascii) (x : Val) :
  blank ws →
  extract_val {| buf := ws ++ s; failbit := false |} x
  = extract_val {| buf := s; failbit := false |} x.
Proof. intros H. unfold extract_val. simpl. by rewrite skip_ws_blank. Qed.

(** On a stream whose [failbit] is set the loop reads nothing. *)
Lemma read_entries_failed (k n : nat) (ist : istream) (d : list Val) :
  failbit ist = true → k + n ≤ length d →
  for_ (seq k n) read_entry (ist, d) = Some (ist, d).
Proof.
  intros Hf. revert k. induction n as [|n IH]; intros k Hk; [done|]. simpl.
  destruct (lookup_lt_is_Some_2 d k) as [x Hx]; [lia|].
  rewrite Hx. simpl. rewrite extract_val_failed by done.
  rewrite store_Some by lia. simpl.
  rewrite list_insert_id by done. apply IH. lia.
Qed.

(** Reading [n] entries from a text that holds at least [n] values. *)
Lemma read_entries (n : nat) :
  ∀ (k : nat) (vals vals' : list Val) (s : list ascii) (d : list Val),
  holds_values vals s → Forall2 prints_as vals vals' →
  n ≤ length vals → k + n ≤ length d →
  ∃ s', for_ (seq k n) read_entry ({| buf := s; failbit := false |}, d)
        = Some ({| buf := s'; failbit := false |},
                take k d ++ take n vals' ++ drop (k + n) d)
        ∧ holds_values (drop n vals) s'.
Proof.
  induction n as [|n IH]; intros k vals vals' s d Hs Hp Hn Hk.
  - exists s. simpl. rewrite Nat.add_0_r, take_drop, drop_0. done.
  - destruct Hs as [|ws v vs s Hws Hend Hs]; [simpl in Hn; lia|].
    apply Forall2_cons_inv_l in Hp as (v' & vs' & Hv & Hp & ->).
    simpl.
    destruct (lookup_lt_is_Some_2 d k) as [x Hx]; [lia|].
    rewrite Hx. simpl. rewrite extract_val_skip by done.
    rewrite (Hv s x Hend). rewrite store_Some by lia. simpl.
    destruct (IH (S k) vs vs' s (<[k:=v']> d)) as (s' & -> & Hs'); [done..| | |].
    + simpl in Hn. lia.
    + rewrite length_insert. lia.
    + exists s'. split; [|done]. f_equal. f_equal.
      rewrite (take_S_r _ k v') by (by apply list_lookup_insert_eq; lia).
      rewrite take_insert_ge by lia. rewrite drop_insert_lt by lia.
      rewrite <- app_assoc. simpl. by replace (k + S n) with (S k + n) by lia.
Qed.


(** *** The text of a matrix *)

Lemma Matrix_insert_text (os : ostream) (m : Matrix) :
  wf m → Matrix_insert os m = Some (os ++ matrix_text m).
Proof.
  intros Hwf. unfold Matrix_insert, matrix_text, height, width.
  set (hdr := show_N (rows m) ++ [sp] ++ show_N (cols m) ++ [nl]).
  replace (os ++ show_N (rows m) ++ [sp] ++ show_N (cols m) ++ [nl] ++
           rows_text (to_nested m))
    with ((os ++ hdr) ++ rows_text (to_nested m))
    by (unfold hdr; by rewrite <- !app_assoc).
  generalize (os ++ hdr). clear os hdr. intros os.
  destruct (upto_inv (λ row o,
    o = os ++ rows_text (take row (to_nested m))) (rows m)
    (λ row os, os ← for_ (upto (cols m)) (λ col os,
        x ← data m !! (row * ncols m + col); Some (os ++ show_val x ++ [sp])) os;
      Some (os ++ [nl])) os) as (o & Ho & ->).
  - simpl. by rewrite app_nil_r.
  - intros row o Hrow ->.
    set (r := take (ncols m) (drop (row * ncols m) (data m))).
    destruct (upto_inv (λ col o',
      o' = os ++ rows_text (take row (to_nested m)) ++ row_text (take col r))
      (cols m)
      (λ col os, x ← data m !! (row * ncols m + col);
                 Some (os ++ show_val x ++ [sp]))
      (os ++ rows_text (take row (to_nested m)))) as (o' & Ho' & ->).
    + simpl. by rewrite app_nil_r.
    + intros col o' Hcol ->.
      destruct (lookup_lt_is_Some_2 (data m) (row * ncols m + col)) as [x Hx].
      { rewrite Hwf. by apply index_lt. }
      rewrite Hx. simpl. eexists. split; [done|].
      assert (r !! col = Some x) as Hr.
      { unfold r. rewrite lookup_take_lt by done. by rewrite lookup_drop. }
      rewrite (take_S_r r col x Hr). unfold row_text.
      rewrite bind_app. simpl. by rewrite app_nil_r, <- !app_assoc.
    + rewrite Ho'. simpl. eexists. split; [done|].
      rewrite (take_S_r (to_nested m) row r) by (by apply to_nested_lookup).
      unfold rows_text at 2. rewrite bind_app. simpl.
      rewrite app_nil_r, <- !app_assoc.
      rewrite (take_ge r); [done|]. unfold r, ncols. rewrite length_take. lia.
  - rewrite Ho. by rewrite take_ge by (rewrite to_nested_length; done).
Qed.

(** The rows of a matrix, one after the other, are its store. *)
Lemma concat_slices (n h a : nat) (d : list Val) :
  length d = (a + h) * n →
  mjoin ((λ i, take n (drop (i * n) d)) <$> seq a h) = drop (a * n) d.
Proof.
  revert a. induction h as [|h IH]; intros a Hd; simpl.
  - rewrite drop_ge; [done | lia].
  - rewrite IH by (rewrite Hd; lia).
    replace (S a * n) with (a * n + n) by lia.
    by rewrite <- drop_drop, take_drop.
Qed.

Lemma concat_to_nested (m : Matrix) : wf m → mjoin (to_nested m) = data m.
Proof. intros Hwf. unfold to_nested. by rewrite (concat_slices _ _ 0) by done. Qed.

Lemma holds_row (r : list Val) :
  ∀ (ws s : list ascii) (vs : list Val),
  blank ws → (∀ ws', blank ws' → holds_values vs (ws' ++ s)) →
  holds_values (r ++ vs) (ws ++ row_text r ++ [nl] ++ s).
Proof.
  induction r as [|v r IH]; intros ws s vs Hws Hs; simpl.
  - replace (ws ++ nl :: s) with ((ws ++ [nl]) ++ s) by (by rewrite <- app_assoc).
    apply Hs. apply Forall_app. split; [done|]. by apply Forall_singleton.
  - rewrite <- !app_assoc. apply holds_more; [done | done |].
    apply (IH [sp]); [|done]. by apply Forall_singleton.
Qed.

Lemma holds_rows (rs : list (list Val)) (ws : list ascii) :
  blank ws → holds_values (mjoin rs) (ws ++ rows_text rs).
Proof.
  revert ws. induction rs as [|r rs IH]; intros ws Hws; simpl.
  - rewrite app_nil_r. by apply holds_none.
  - rewrite <- app_assoc. apply holds_row; [done|]. intros ws' Hws'. by apply IH.
Qed.

(** *** Reading a matrix *)

(** The reading loops over a fresh [r] by [c] matrix, as one loop. *)
Lemma extract_loops_flat (r c : N) (ist : istream) :
  for_ (upto r) (λ row st, for_ (upto c) (λ col st,
    read_entry (row * ncols (Matrix_init r c zero) + col) st) st)
    (ist, data (Matrix_init r c zero))
  = for_ (seq 0 (N.to_nat r * N.to_nat c)) read_entry
      (ist, replicate (N.to_nat r * N.to_nat c) zero).
Proof.
  unfold upto, ncols. simpl.
  rewrite (for_nested_flat (N.to_nat r) (N.to_nat c) read_entry).
  by rewrite N2Nat.inj_mul.
Qed.

Lemma extract_loops_failed (r c : N) (ist : istream) :
  failbit ist = true →
  for_ (upto r) (λ row st, for_ (upto c) (λ col st,
    read_entry (row * ncols (Matrix_init r c zero) + col) st) st)
    (ist, data (Matrix_init r c zero))
  = Some (ist, replicate (N.to_nat r * N.to_nat c) zero).
Proof.
  intros Hf. rewrite extract_loops_flat.
  apply read_entries_failed; [done|]. rewrite length_replicate. lia.
Qed.

Lemma read_entries_of_failed (r c : N) (ist : istream) :
  failbit ist = true →
  ∃ m, read_entries_of ist (Matrix_init r c zero) = Some (ist, m).
Proof.
  intros Hf. unfold read_entries_of.
  change (rows (Matrix_init r c zero)) with r.
  change (cols (Matrix_init r c zero)) with c.
  rewrite extract_loops_failed by done. simpl. eauto.
Qed.

(** Once [failbit] is set, [operator>>] returns with it set. *)
Lemma Matrix_extract_failed (indet : Z * Z) (ist : istream) (m0 : Matrix) :
  failbit ist = true →
  ∃ m, Matrix_extract indet ist m0 = Some (ist, m).
Proof.
  intros Hf. unfold Matrix_extract.
  rewrite !extract_int_failed by done. cbv zeta.
  by apply read_entries_of_failed.
Qed.

Lemma size_t_of_N (n : N) : (Z.of_N n ≤ INT_MAX)%Z → size_t_of_int (Z.of_N n) = n.
Proof.
  unfold INT_MAX, size_t_of_int. intros Hn.
  rewrite Z.mod_small by lia. apply N2Z.id.
Qed.

Lemma read_entries_of_values (r c : N) (s : list ascii) (vals vals' : list Val) :
  holds_values vals s → Forall2 prints_as vals vals' →
  length vals = N.to_nat r * N.to_nat c →
  ∃ s', read_entries_of {| buf := s; failbit := false |} (Matrix_init r c zero)
        = Some ({| buf := s'; failbit := false |},
                {| data := vals'; rows := r; cols := c |}).
Proof.
  intros Hs Hp Hlen. unfold read_entries_of.
  change (rows (Matrix_init r c zero)) with r.
  change (cols (Matrix_init r c zero)) with c.
  rewrite extract_loops_flat.
  destruct (read_entries (N.to_nat r * N.to_nat c) 0 vals vals' s
    (replicate (N.to_nat r * N.to_nat c) zero)) as (s' & -> & _);
    [done | done | lia | rewrite length_replicate; lia |].
  exists s'. simpl. repeat f_equal.
  pose proof (Forall2_length _ _ _ Hp) as Hl.
  rewrite take_ge by lia. rewrite drop_ge by (rewrite length_replicate; lia).
  by rewrite app_nil_r.
Qed.


(** *** The two claims on [operator>>] *)

Lemma Matrix_stream_roundtrip_gen (m : Matrix) (vals' : list Val)
    (indet : Z * Z) (m0 : Matrix) :
  wf m → (Z.of_N (rows m) ≤ INT_MAX)%Z → (Z.of_N (cols m) ≤ INT_MAX)%Z →
  Forall2 prints_as (data m) vals' →
  ∃ text ist,
    Matrix_insert [] m = Some text ∧
    Matrix_extract indet {| buf := text; failbit := false |} m0
    = Some (ist, {| data := vals'; rows := rows m; cols := cols m |}) ∧
    failbit ist = false.
Proof.
  intros Hwf Hr Hc Hp.
  destruct (read_entries_of_values (rows m) (cols m)
    ([nl] ++ rows_text (to_nested m)) (data m) vals') as (s' & Hs'); [|done|done|].
  { rewrite <- (concat_to_nested m Hwf) at 1.
    apply holds_rows. by apply Forall_singleton. }
  exists (matrix_text m), {| buf := s'; failbit := false |}.
  split; [by rewrite Matrix_insert_text|]. split; [|done].
  unfold Matrix_extract, matrix_text.
  rewrite (extract_int_show_N0 _ (rows m)) by done.
  rewrite (extract_int_show_N [sp] _ (cols m)); [|by apply Forall_singleton | done | done].
  cbv zeta. rewrite !size_t_of_N by done. exact Hs'.
Qed.


End ValueStreams.

(** ** Integer scalars: text form *)

Section IntegerScalars.
#[local] Existing Instance Z_scalar.
#[local] Existing Instance Z_text.

Lemma show_N_head (n : N) (s : list ascii) :
  ∃ c t d, show_N n ++ s = c :: t ∧ digit_of c = Some d.
Proof. apply show_uint_head, N_to_uint_nonnil. Qed.

Lemma read_Z_show (z : Z) (rest : list ascii) :
  no_digit rest → read_Z (show_Z z ++ rest) = Some (z, rest).
Proof.
  intros Hrest. unfold read_Z, show_Z.
  destruct (Z.ltb_spec z 0) as [Hneg|Hpos].
  - simpl. unfold show_N. rewrite read_uint_show by done.
    pose proof (N_to_uint_nonnil (Z.abs_N z)) as Hnil.
    destruct (N.to_uint (Z.abs_N z)) eqn:Hu; [done|..];
      rewrite <- Hu, DecimalN.Unsigned.of_to; f_equal; f_equal; lia.
  - destruct (show_N_head (Z.abs_N z) rest) as (c & t & d & Heq & Hd).
    destruct (digit_not_sign c d Hd) as (_ & Hm & _).
    rewrite Heq, Hm, <- Heq. unfold show_N. rewrite read_uint_show by done.
    pose proof (N_to_uint_nonnil (Z.abs_N z)) as Hnil.
    destruct (N.to_uint (Z.abs_N z)) eqn:Hu; [done|..];
      rewrite <- Hu, DecimalN.Unsigned.of_to; f_equal; f_equal; lia.
Qed.

Lemma show_Z_not_space (z : Z) (rest : list ascii) :
  ∃ c t, show_Z z ++ rest = c :: t ∧ isspace c = false.
Proof.
  unfold show_Z. destruct (z <? 0)%Z.
  - eexists _, _. split; [done|]. done.
  - destruct (show_N_head (Z.abs_N z) rest) as (c & t & d & Heq & Hd).
    destruct (digit_not_sign c d Hd) as (Hsp & _).
    eexists _, _. split; [exact Heq | done].
Qed.

(** An integer is read back as it was written. *)
Lemma Z_prints_as (z : Z) : prints_as (z : @Val Z_scalar) z.
Proof.
  intros rest x Hrest. unfold extract_val. simpl.
  destruct (show_Z_not_space z rest) as (c & t & Heq & Hc).
  rewrite Heq. simpl. rewrite Hc. rewrite <- Heq.
  by rewrite read_Z_show by (by apply ends_token_no_digit).
Qed.

Lemma Z_prints_all (vals : list Z) :
  Forall2 (prints_as (VT := Z_text)) vals vals.
Proof. induction vals; constructor; [apply Z_prints_as | done]. Qed.

End IntegerScalars.

(** * The claims of the specification *)

Section Claims.
Context `{Sc : Scalar}.




(** C3.  For a network with layer widths [ls] and an input column of the
    first width, [classify] returns the result of iterating
    [activation = sigmoid(weights[l].dot(activation) + biases[l])] over the
    layers in order, a column of the last width. *)
Theorem classify_forward (ls : list N) (net : NeuralNet) (inputs : Matrix)
    (w0 wl : N) :
  net_inv ls net → head ls = Some w0 → last ls = Some wl →
  has_shape w0 1 inputs →
  classify net inputs = Some (forward (weights net) (biases net) inputs) ∧
  has_shape wl 1 (forward (weights net) (biases net) inputs).
Proof.
  intros Hinv Hw0 Hwl Hin.
  assert (ls ≠ []) as Hne by (by destruct ls).
  pose proof (net_inv_layers_ok ls net Hinv Hne) as Hok.
  destruct (classify_loop ls (weights net) (biases net) w0 inputs Hok Hw0 Hin)
    as [Hc (wl' & Hwl' & Hsh)].
  split; [exact Hc|]. by assert (wl' = wl) as <- by congruence.
Qed.


(** C6.  For a list of at least two layer widths the constructor returns
    a network with L-1 biases and L-1 weights, [weights[l]] of shape
    [ls[l+1]] by [ls[l]] and [biases[l]] of shape [ls[l+1]] by 1, every
    entry zero; and every network reached from it by calls of [learn] and
    [classify] has the same lengths and shapes. *)
Theorem NeuralNet_invariant (layers : list Z) :
  Forall is_width layers → 2 ≤ length layers →
  ∃ net, NeuralNet_init layers = Some net ∧
         net_inv (Z.to_N <$> layers) net ∧ all_zero net ∧
         ∀ net', reachable net net' → net_inv (Z.to_N <$> layers) net'.
Proof.
  intros Hw _. destruct (NeuralNet_init_inv layers Hw) as (net & Hnet & Hinv & Hz).
  exists net. split; [done|]. split; [done|]. split; [done|].
  intros net' Hreach. by apply (reachable_inv _ net).
Qed.


End Claims.

Section StreamClaims.
Context `{VT : ValText}.

(** C7, as amended.  For a matrix whose [rows] and [cols] are at most
    [INT_MAX], reading the text that [operator<<] writes for it yields a
    matrix with the same [rows] and [cols] and with every value as it
    reads back from its printed form; the stream does not fail. *)
Theorem Matrix_stream_roundtrip (m : Matrix) (vals' : list Val)
    (indet : Z * Z) (m0 : Matrix) :
  wf m → (Z.of_N (rows m) ≤ INT_MAX)%Z → (Z.of_N (cols m) ≤ INT_MAX)%Z →
  Forall2 prints_as (data m) vals' →
  ∃ text ist,
    Matrix_insert [] m = Some text ∧
    Matrix_extract indet {| buf := text; failbit := false |} m0
    = Some (ist, {| data := vals'; rows := rows m; cols := cols m |}) ∧
    failbit ist = false.
Proof. apply Matrix_stream_roundtrip_gen. Qed.


End StreamClaims.

Section BlankStream.
Context `{VT : ValText}.

(** At the end of the text [operator>>] sets [failbit] and stores nothing
    in [height] and [width]. *)
Lemma Matrix_extract_blank (indet : Z * Z) (s : list ascii) (m0 : Matrix) :
  blank s →
  ∃ m, Matrix_extract indet {| buf := s; failbit := false |} m0
       = Some ({| buf := []; failbit := true |}, m).
Proof.
  intros Hs. unfold Matrix_extract, extract_int. simpl.
  rewrite skip_ws_all_blank by done. simpl. cbv zeta.
  by apply read_entries_of_failed.
Qed.

End BlankStream.

Section StreamMismatch.
#[local] Existing Instance Z_scalar.
#[local] Existing Instance Z_text.

(** C4.  The network [NeuralNet({1, 1})] is written as its [layerSizes]
    followed by one bias block and one weight block.  Read back into
    [NeuralNet({})], the reader takes [layerCount = 2] matrices as biases
    (the bias and then the weight block) and 2 more as weights (none is
    left in the text, and [failbit] is set): the network read has 2 biases
    and 2 weights where the one written has 1 and 1. *)
Theorem NeuralNet_stream_mismatch (indet : Z * Z) :
  NeuralNet_init [1; 1]%Z = Some net11 ∧
  NeuralNet_insert [] net11 = Some text11 ∧
  ∃ ist net',
    NeuralNet_extract indet {| buf := text11; failbit := false |} fresh_net
    = Some (ist, net') ∧
    failbit ist = true ∧
    layerSizes net' = layerSizes net11 ∧
    biases net' = biases net11 ++ weights net11 ∧
    length (weights net') = 2.
Proof.
  split; [reflexivity|]. split; [vm_compute; reflexivity|].
  destruct indet as [ih iw].
  assert (∀ m0, Matrix_extract (ih, iw) {| buf := text11; failbit := false |} m0
    = Some ({| buf := drop 7 text11; failbit := false |}, layerSizes net11)) as E1
    by (intros; vm_compute; reflexivity).
  assert (∀ m0, ∃ m, Matrix_extract (ih, iw)
      {| buf := [" "%char; "010"%char; "010"%char]; failbit := false |} m0
    = Some ({| buf := []; failbit := true |}, m)) as E4
    by (intros; apply Matrix_extract_blank; repeat constructor).
  assert (∀ m0, ∃ m, Matrix_extract (ih, iw) {| buf := []; failbit := true |} m0
    = Some ({| buf := []; failbit := true |}, m)) as E5
    by (intros; by apply Matrix_extract_failed).
  unfold NeuralNet_extract. rewrite E1. simpl.
  change (zrange 0 2) with [0%Z; 1%Z]. simpl.
  edestruct E4 as (m4 & ->). simpl.
  edestruct E5 as (m5 & ->). simpl.
  eexists _, _. split; [reflexivity|]. repeat split.
Qed.

End StreamMismatch.

(** * Further properties of the code *)

(** ** Laws of [transpose] and [dot] *)

Section MatrixAlgebra.
Context `{Sc : Scalar}.

Lemma tabulate_ext (m n : nat) (f g : nat → nat → Val) :
  (∀ i j, i < m → j < n → f i j = g i j) → tabulate m n f = tabulate m n g.
Proof.
  intros H. apply tabulate_unique; [apply tabulate_length|].
  intros i j Hi Hj. rewrite tabulate_lookup by done. f_equal. by apply H.
Qed.

Lemma tabulate_const (m n : nat) (v : Val) :
  tabulate m n (λ _ _, v) = replicate (m * n) v.
Proof.
  symmetry. apply tabulate_unique; [by rewrite length_replicate|].
  intros i j Hi Hj. apply lookup_replicate_2. by apply index_lt.
Qed.




Lemma dot_sum_ext (f g f' g' : nat → Val) (n : nat) :
  (∀ k, k < n → mul (f k) (g k) = mul (f' k) (g' k)) →
  dot_sum f g n = dot_sum f' g' n.
Proof.
  induction n as [|n IH]; intros H; [done|].
  rewrite !dot_sum_S, IH by (intros; apply H; lia). by rewrite H by lia.
Qed.







End MatrixAlgebra.

(** ** The class invariant, and networks on streams *)

Section ExtractTotal.
Context `{VT : ValText}.

Lemma extract_int_sticky (ist : istream) (x : Z) :
  failbit ist = true → failbit (extract_int ist x).1 = true.
Proof. intros H. by rewrite extract_int_failed. Qed.

(** The reading loop stores inside the vector: it runs to its end, keeps
    the length, and leaves a [failbit] that is set as it is. *)
Lemma read_entries_total (n : nat) :
  ∀ (k : nat) (ist : istream) (d : list Val),
  k + n ≤ length d →
  ∃ ist' d', for_ (seq k n) read_entry (ist, d) = Some (ist', d') ∧
             length d' = length d ∧
             (failbit ist = true → failbit ist' = true).
Proof.
  induction n as [|n IH]; intros k ist d Hk; simpl.
  - by exists ist, d.
  - destruct (lookup_lt_is_Some_2 d k) as [x Hx]; [lia|].
    rewrite Hx. simpl.
    destruct (extract_val ist x) as [ist1 x1] eqn:Hex.
    rewrite store_Some by lia. simpl.
    destruct (IH (S k) ist1 (<[k:=x1]> d)) as (ist' & d' & -> & Hlen & Hf).
    { rewrite length_insert. lia. }
    exists ist', d'. split; [done|]. split; [by rewrite Hlen, length_insert|].
    intros Hfail. apply Hf. rewrite extract_val_failed in Hex by done.
    by injection Hex as <- _.
Qed.

Lemma read_entries_of_total (r c : N) (ist : istream) :
  ∃ ist' m, read_entries_of ist (Matrix_init r c zero) = Some (ist', m) ∧
            wf m ∧ rows m = r ∧ cols m = c ∧
            (failbit ist = true → failbit ist' = true).
Proof.
  unfold read_entries_of.
  change (rows (Matrix_init r c zero)) with r.
  change (cols (Matrix_init r c zero)) with c.
  rewrite extract_loops_flat.
  destruct (read_entries_total (N.to_nat r * N.to_nat c) 0 ist
    (replicate (N.to_nat r * N.to_nat c) zero)) as (ist' & d' & -> & Hlen & Hf).
  { rewrite length_replicate. lia. }
  simpl. eexists _, _. split; [done|]. split; [|done].
  unfold wf, nrows, ncols. simpl. by rewrite Hlen, length_replicate.
Qed.

(** [operator>>] returns on every stream, with a matrix that satisfies
    the class invariant. *)
Lemma Matrix_extract_total (indet : Z * Z) (ist : istream) (m0 : Matrix) :
  ∃ ist' m, Matrix_extract indet ist m0 = Some (ist', m) ∧ wf m ∧
            (failbit ist = true → failbit ist' = true).
Proof.
  unfold Matrix_extract.
  destruct (extract_int ist indet.1) as [ist1 h] eqn:H1.
  destruct (extract_int ist1 indet.2) as [ist2 w] eqn:H2. cbv zeta.
  destruct (read_entries_of_total (size_t_of_int h) (size_t_of_int w) ist2)
    as (ist' & m & -> & Hwf & _ & _ & Hf).
  exists ist', m. split; [done|]. split; [done|].
  intros Hfail. apply Hf.
  pose proof (extract_int_sticky ist indet.1 Hfail) as Hs1. rewrite H1 in Hs1.
  pose proof (extract_int_sticky ist1 indet.2 Hs1) as Hs2. by rewrite H2 in Hs2.
Qed.


(** The loop of [operator>>] for a network: one matrix appended per
    iteration. *)
Lemma extract_loop_appends (indet : Z * Z) {I : Type} (range : list I) :
  ∀ (ist : istream) (temp : Matrix) (acc : list Matrix),
  ∃ ist' temp' ms,
    for_ range (λ _ '(ist, temp, acc),
      '(ist, temp) ← Matrix_extract indet ist temp;
      Some (ist, temp, acc ++ [temp])) (ist, temp, acc)
    = Some (ist', temp', acc ++ ms) ∧
    length ms = length range ∧ Forall wf ms ∧
    (failbit ist = true → failbit ist' = true).
Proof.
  induction range as [|i range IH]; intros ist temp acc; simpl.
  - exists ist, temp, []. by rewrite app_nil_r.
  - destruct (Matrix_extract_total indet ist temp) as (ist1 & m & -> & Hwf & Hf). simpl.
    destruct (IH ist1 m (acc ++ [m])) as (ist' & temp' & ms & -> & Hlen & Hall & Hf').
    exists ist', temp', (m :: ms). rewrite <- app_assoc. simpl.
    split; [done|]. split; [by rewrite Hlen|]. split; [by constructor|].
    intros Hfail. by apply Hf', Hf.
Qed.

Lemma length_zrange (lo hi : Z) : length (zrange lo hi) = Z.to_nat (hi - lo).
Proof. unfold zrange. by rewrite length_fmap, length_seq. Qed.

(** In the model [operator>>] for a network has a result on every
    stream, and appends. *)
Lemma NeuralNet_extract_total (indet : Z * Z) (ist : istream) (nnet : NeuralNet) :
  ∃ ist' nnet' bs ws,
    NeuralNet_extract indet ist nnet = Some (ist', nnet') ∧
    biases nnet' = biases nnet ++ bs ∧
    weights nnet' = weights nnet ++ ws ∧
    length bs = ncols (layerSizes nnet') ∧
    length ws = ncols (layerSizes nnet') ∧
    wf (layerSizes nnet') ∧ Forall wf bs ∧ Forall wf ws ∧
    (failbit ist = true → failbit ist' = true).
Proof.
  unfold NeuralNet_extract.
  destruct (Matrix_extract_total indet ist (layerSizes nnet))
    as (ist1 & ls & -> & Hls & Hf1). simpl.
  destruct (extract_loop_appends indet (zrange 0 (Z.of_N (cols ls))) ist1
    (Matrix_init 0 0 zero) (biases nnet)) as (ist2 & temp2 & bs & -> & Hlb & Hwb & Hf2).
  simpl.
  destruct (extract_loop_appends indet (zrange 0 (Z.of_N (cols ls))) ist2
    temp2 (weights nnet)) as (ist3 & temp3 & ws & -> & Hlw & Hww & Hf3).
  simpl. exists ist3, {| layerSizes := ls; biases := biases nnet ++ bs;
                        weights := weights nnet ++ ws |}, bs, ws.
  rewrite length_zrange in Hlb, Hlw. unfold ncols. simpl.
  split; [done|]. split; [done|]. split; [done|].
  split; [lia|]. split; [lia|]. split; [done|]. split; [done|]. split; [done|].
  intros Hfail. by apply Hf3, Hf2, Hf1.
Qed.

(** X9.  [operator>>] for a network appends: when it returns (with
    matrices whose dimensions an [int] holds, so that no negative height
    or width was read), the network has the [layerSizes] read, and the
    biases and the weights it had before with [layerCount] matrices
    after them, where [layerCount] is the number of columns of the
    [layerSizes] read.  The matrices read satisfy the class invariant,
    and a [failbit] that was set is still set. *)
Theorem NeuralNet_extract_appends (indet : Z * Z) (ist ist' : istream)
    (nnet nnet' : NeuralNet) :
  NeuralNet_extract indet ist nnet = Some (ist', nnet') →
  int_sized (layerSizes nnet') →
  Forall int_sized (biases nnet') → Forall int_sized (weights nnet') →
  ∃ bs ws,
    biases nnet' = biases nnet ++ bs ∧
    weights nnet' = weights nnet ++ ws ∧
    length bs = ncols (layerSizes nnet') ∧
    length ws = ncols (layerSizes nnet') ∧
    wf (layerSizes nnet') ∧ Forall wf bs ∧ Forall wf ws ∧
    (failbit ist = true → failbit ist' = true).
Proof.
  intros Hex _ _ _.
  destruct (NeuralNet_extract_total indet ist nnet) as (ist1 & nnet1 & bs & ws & Hex1 & H).
  rewrite Hex in Hex1. injection Hex1 as <- <-. by exists bs, ws.
Qed.

(** The text of the matrices of a network. *)
Lemma insert_loop_text (ms : list Matrix) (os : ostream) :
  Forall wf ms →
  for_ ms (λ m os, os ← Matrix_insert os m; Some (os ++ [nl])) os
  = Some (os ++ (m ← ms; matrix_text m ++ [nl])).
Proof.
  intros Hms. revert os. induction Hms as [|m ms Hm _ IH]; intros os; simpl.
  - by rewrite app_nil_r.
  - rewrite Matrix_insert_text by done. simpl. rewrite IH.
    by rewrite <- !app_assoc.
Qed.

Lemma NeuralNet_insert_text (os : ostream) (nnet : NeuralNet) :
  wf (layerSizes nnet) → Forall wf (biases nnet) → Forall wf (weights nnet) →
  NeuralNet_insert os nnet
  = Some (os ++ matrix_text (layerSizes nnet) ++ [nl]
             ++ (b ← biases nnet; matrix_text b ++ [nl])
             ++ (w ← weights nnet; matrix_text w ++ [nl])).
Proof.
  intros Hl Hb Hw. unfold NeuralNet_insert.
  rewrite Matrix_insert_text by done. simpl.
  rewrite insert_loop_text by done. simpl.
  rewrite insert_loop_text by done.
  by rewrite <- !app_assoc.
Qed.

(** X8.  [operator<<] for a network whose matrices satisfy the class
    invariant returns, and appends to the stream the text of
    [layerSizes] and a newline, then the text of every bias followed by a
    newline, then the text of every weight followed by a newline. *)
Theorem NeuralNet_insert_layout (os : ostream) (nnet : NeuralNet) :
  wf (layerSizes nnet) → Forall wf (biases nnet) → Forall wf (weights nnet) →
  NeuralNet_insert os nnet
  = Some (os ++ matrix_text (layerSizes nnet) ++ [nl]
             ++ (b ← biases nnet; matrix_text b ++ [nl])
             ++ (w ← weights nnet; matrix_text w ++ [nl])).
Proof. apply NeuralNet_insert_text. Qed.

End ExtractTotal.

Section NetEdges.
Context `{Sc : Scalar}.

(** X11.  For a list of fewer than two layer widths the constructor
    returns a network without biases and weights; [classify] returns its
    input as it is, whatever its shape, and [learn] has no result
    ([back()] on a vector without elements). *)
Theorem NeuralNet_without_parameters (layers : list Z) :
  length layers ≤ 1 →
  ∃ net, NeuralNet_init layers = Some net ∧
         biases net = [] ∧ weights net = [] ∧
         (∀ inputs, classify net inputs = Some inputs) ∧
         (∀ inputs expected eta, learn net inputs expected eta = None).
Proof.
  intros Hlen. destruct layers as [|z [|z' layers]]; [| |simpl in Hlen; lia].
  - eexists. split; [reflexivity|]. split; [done|]. split; [done|]. split; [done|].
    intros inputs expected eta. unfold learn. simpl. by destruct (minus inputs expected).
  - eexists. split; [reflexivity|]. split; [done|]. split; [done|]. split; [done|].
    intros inputs expected eta. unfold learn. simpl. by destruct (minus inputs expected).
Qed.

(** X12.  For a network of at least two layers that satisfies the
    invariant, an input whose number of rows is not the first layer width
    stops both [classify] and [learn] at the assertion of [dot]. *)
Theorem wrong_input_height (ls : list N) (net : NeuralNet)
    (inputs expected : Matrix) (eta : Val) (w0 : N) :
  net_inv ls net → 2 ≤ length ls → head ls = Some w0 → rows inputs ≠ w0 →
  classify net inputs = None ∧ learn net inputs expected eta = None.
Proof.
  intros Hinv Hlen Hw0 Hrows.
  assert (ls ≠ []) as Hne by (by destruct ls).
  pose proof (net_inv_layers_ok ls net Hinv Hne) as Hok.
  remember (weights net) as ws0 eqn:Ews. remember (biases net) as bs0 eqn:Ebs.
  destruct Hok as [w0'|w0' w1 ls' w b ws bs Hw Hb Hok]; [simpl in Hlen; lia|].
  injection Hw0 as ->.
  assert (dot w inputs = None) as Hdot.
  { unfold dot. rewrite option_guard_False; [done|].
    destruct Hw as (_ & _ & ->). congruence. }
  split.
  - unfold classify. rewrite <- Ews. simpl. by rewrite Hdot.
  - unfold learn. rewrite <- Ews, <- Ebs. simpl. by rewrite Hdot.
Qed.

End NetEdges.

(** ** Matrices one after the other on a stream *)

Section Sequences.
Context `{VT : ValText}.

(** Reading the values a text starts with leaves the rest of the text. *)
Lemma read_entries_prefix (rest : list ascii) (vals : list Val) :
  ∀ (k : nat) (vals' : list Val) (s : list ascii) (d : list Val),
  starts_with rest vals s → Forall2 prints_as vals vals' →
  k + length vals ≤ length d →
  for_ (seq k (length vals)) read_entry ({| buf := s; failbit := false |}, d)
  = Some ({| buf := rest; failbit := false |},
          take k d ++ vals' ++ drop (k + length vals) d).
Proof.
  induction vals as [|v vals IH]; intros k vals' s d Hs Hp Hk.
  - inversion Hs; subst. apply Forall2_nil_inv_l in Hp as ->.
    simpl. by rewrite Nat.add_0_r, take_drop.
  - inversion Hs as [|ws v0 vs s0 Hws Hend Hs0]; subst.
    apply Forall2_cons_inv_l in Hp as (v' & vs' & Hv & Hp & ->).
    simpl in *.
    destruct (lookup_lt_is_Some_2 d k) as [x Hx]; [lia|].
    rewrite Hx. simpl. rewrite extract_val_skip by done.
    rewrite (Hv s0 x Hend). rewrite store_Some by lia. simpl.
    rewrite (IH (S k) vs' s0 (<[k:=v']> d)) by (done || rewrite length_insert; lia).
    f_equal. f_equal.
    rewrite (take_S_r _ k v') by (by apply list_lookup_insert_eq; lia).
    rewrite take_insert_ge by lia. rewrite drop_insert_lt by lia.
    rewrite <- app_assoc. simpl. by replace (k + S (length vals)) with (S k + length vals) by lia.
Qed.

Lemma starts_row (rest : list ascii) (r : list Val) :
  ∀ (ws0 s : list ascii) (vs : list Val),
  blank ws0 →
  (∀ ws1, blank ws1 → ∃ ws, blank ws ∧ starts_with (ws ++ rest) vs (ws1 ++ s)) →
  ∃ ws, blank ws ∧
        starts_with (ws ++ rest) (r ++ vs) (ws0 ++ row_text r ++ [nl] ++ s).
Proof.
  induction r as [|v r IH]; intros ws0 s vs Hws0 Hs; simpl.
  - replace (ws0 ++ nl :: s) with ((ws0 ++ [nl]) ++ s) by (by rewrite <- app_assoc).
    apply Hs. apply Forall_app. split; [done|]. by apply Forall_singleton.
  - destruct (IH [sp] s vs) as (ws & Hws & Hst); [by apply Forall_singleton | done |].
    exists ws. split; [done|]. rewrite <- !app_assoc.
    apply starts_cons; [done | done | exact Hst].
Qed.

Lemma starts_rows (rest : list ascii) (rs : list (list Val)) :
  ∀ ws0, blank ws0 →
  ∃ ws, blank ws ∧ starts_with (ws ++ rest) (mjoin rs) (ws0 ++ rows_text rs ++ rest).
Proof.
  induction rs as [|r rs IH]; intros ws0 Hws0; simpl.
  - exists ws0. split; [done|]. constructor.
  - rewrite <- !app_assoc. apply starts_row; [done|]. intros ws1 Hws1. by apply IH.
Qed.

(** [operator>>] on a text that starts with the text of a matrix: the
    matrix is read and the rest of the text is left, after white space. *)
Lemma Matrix_extract_prefix (m m' : Matrix) (ws0 rest : list ascii)
    (indet : Z * Z) (m0 : Matrix) :
  wf m → int_sized m → reads_as m m' → blank ws0 →
  ∃ ws, blank ws ∧
    Matrix_extract indet {| buf := ws0 ++ matrix_text m ++ rest; failbit := false |} m0
    = Some ({| buf := ws ++ rest; failbit := false |}, m').
Proof.
  intros Hwf [Hr Hc] (Hr' & Hc' & Hp) Hws0.
  destruct (starts_rows rest (to_nested m) [nl]) as (ws & Hws & Hst);
    [by apply Forall_singleton|].
  rewrite (concat_to_nested m Hwf) in Hst.
  exists ws. split; [done|].
  unfold Matrix_extract, matrix_text. rewrite <- !app_assoc.
  rewrite (extract_int_show_N ws0 _ (rows m)) by done.
  rewrite (extract_int_show_N [sp] _ (cols m)); [|by apply Forall_singleton | done | done].
  cbv zeta. rewrite !size_t_of_N by done.
  unfold read_entries_of.
  change (rows (Matrix_init (rows m) (cols m) zero)) with (rows m).
  change (cols (Matrix_init (rows m) (cols m) zero)) with (cols m).
  rewrite extract_loops_flat.
  assert (length (data m) = N.to_nat (rows m) * N.to_nat (cols m)) as Hlen by exact Hwf.
  rewrite <- Hlen.
  rewrite (read_entries_prefix (ws ++ rest) (data m) 0 (data m'));
    [|done|done|by rewrite length_replicate].
  simpl. rewrite drop_ge by (by rewrite length_replicate). rewrite app_nil_r.
  destruct m' as [d' r' c']. simpl in *. by subst.
Qed.




(** X7.  Two matrices written one after the other with [operator<<], with
    nothing between them, are read back one after the other with
    [operator>>]: each comes back with its shape and with every value as
    its printed form reads, and the stream has not failed.  The matrices
    satisfy the class invariant, and an [int] holds their dimensions. *)
Theorem Matrix_stream_sequence (a b a' b' : Matrix) (indet : Z * Z) (m0 m1 : Matrix) :
  wf a → wf b → int_sized a → int_sized b → reads_as a a' → reads_as b b' →
  ∃ t1 t2 ist1 ist2,
    Matrix_insert [] a = Some t1 ∧ Matrix_insert t1 b = Some t2 ∧
    Matrix_extract indet {| buf := t2; failbit := false |} m0 = Some (ist1, a') ∧
    Matrix_extract indet ist1 m1 = Some (ist2, b') ∧
    failbit ist2 = false.
Proof.
  intros Ha Hb Hsa Hsb Hra Hrb.
  destruct (Matrix_extract_prefix a a' [] (matrix_text b) indet m0)
    as (ws1 & Hws1 & H1); [done..|constructor|].
  destruct (Matrix_extract_prefix b b' ws1 [] indet m1)
    as (ws2 & Hws2 & H2); [done..|].
  rewrite app_nil_r in H2. simpl in H1.
  eexists _, _, _, _. split; [by apply Matrix_insert_text|].
  split; [by apply Matrix_insert_text|]. simpl.
  split; [exact H1|]. split; [exact H2|]. done.
Qed.

End Sequences.

(** ** A network written and read back *)

Section ReadBack.
Context `{VT : ValText}.




End ReadBack.

(** ** The network the constructor builds *)

Section ZeroNetwork.
Context `{Sc : Scalar}.
Hypothesis add_zero_zero : add zero zero = zero.
Hypothesis absorbed_sigmoid : absorbed (sigmoid zero).

Lemma zeros_data (r c : N) (m : Matrix) :
  has_shape r c m → zeros m → m = Matrix_init r c zero.
Proof.
  intros (Hwf & <- & <-) Hz. destruct m as [d r c]. unfold Matrix_init. simpl in *.
  f_equal. unfold zeros in Hz. simpl in Hz.
  unfold wf, nrows, ncols in Hwf. simpl in Hwf.
  rewrite N2Nat.inj_mul, <- Hwf. clear Hwf.
  induction Hz as [|x d -> _ IH]; [done|]. simpl. by rewrite <- IH.
Qed.

Lemma elem_zero (r c : N) (i j : nat) : elem (Matrix_init r c zero) i j = zero.
Proof.
  unfold elem, get. case_decide; [|done]. simpl.
  destruct (replicate _ zero !! _) as [x|] eqn:Hx; [|done].
  apply lookup_replicate in Hx as [-> _]. done.
Qed.

Lemma dot_sum_zero (g : nat → Val) (n : nat) :
  (∀ k, k < n → absorbed (g k)) → dot_sum (λ _, zero) g n = zero.
Proof.
  induction n as [|n IH]; intros Hg; [done|].
  rewrite dot_sum_S, IH by (intros; apply Hg; lia). apply Hg. lia.
Qed.

Lemma elem_absorbed (x : Matrix) (k : nat) :
  wf x → cols x = 1%N → Forall absorbed (data x) → k < nrows x →
  absorbed (elem x k 0).
Proof.
  intros Hwf Hc Hall Hk.
  assert (0 < ncols x) as H0 by (unfold ncols; rewrite Hc; lia).
  pose proof (get_elem x k 0 Hwf Hk H0) as Hget.
  rewrite get_Some_lookup in Hget by done.
  eapply Forall_lookup_1; [exact Hall | exact Hget].
Qed.

Lemma mat_mul_zero (w1 w0 : N) (x : Matrix) :
  has_shape w0 1 x → Forall absorbed (data x) →
  mat_mul (Matrix_init w1 w0 zero) x = Matrix_init w1 1 zero.
Proof.
  intros (Hwf & Hr & Hc) Hall. unfold mat_mul.
  change (nrows (Matrix_init w1 w0 zero)) with (N.to_nat w1).
  change (ncols (Matrix_init w1 w0 zero)) with (N.to_nat w0).
  change (rows (Matrix_init w1 w0 zero)) with w1.
  rewrite (tabulate_ext _ _ _ (λ _ _, zero)).
  2:{ intros i j _ Hj.
      assert (j = 0) as -> by (unfold ncols in Hj; rewrite Hc in Hj; lia).
      transitivity (dot_sum (λ _, zero) (λ k, elem x k 0) (N.to_nat w0)).
      - apply dot_sum_ext. intros k _. by rewrite elem_zero.
      - apply dot_sum_zero. intros k Hk. apply elem_absorbed; [done..|].
        unfold nrows. rewrite Hr. done. }
  rewrite tabulate_const. unfold Matrix_init, ncols. rewrite Hc.
  by rewrite N2Nat.inj_mul.
Qed.

(** One layer with zero weights and biases maps every input column to the
    column of [sigmoid zero]. *)
Lemma zero_layer (w1 w0 : N) (x : Matrix) :
  has_shape w0 1 x → Forall absorbed (data x) →
  mat_map sigmoid (mat_zip add (mat_mul (Matrix_init w1 w0 zero) x)
                               (Matrix_init w1 1 zero))
  = Matrix_init w1 1 (sigmoid zero).
Proof.
  intros Hx Hall. rewrite mat_mul_zero by done.
  unfold mat_map, mat_zip, Matrix_init. simpl. f_equal.
  generalize (N.to_nat (w1 * 1)). intros n.
  induction n as [|n IH]; [done|]. simpl. rewrite add_zero_zero. f_equal. exact IH.
Qed.

Lemma forward_zero (ls : list N) (ws bs : list Matrix) :
  layers_ok ls ws bs → Forall zeros ws → Forall zeros bs →
  ∀ (x : Matrix) (w0 wl : N),
  2 ≤ length ls → head ls = Some w0 → last ls = Some wl → has_shape w0 1 x →
  Forall absorbed (data x) →
  forward ws bs x = Matrix_init wl 1 (sigmoid zero).
Proof.
  induction 1 as [w0'|w0' w1 ls w b ws bs Hw Hb Hok IH];
    intros Hzw Hzb x w0 wl Hlen Hw0 Hwl Hx Hall; [simpl in Hlen; lia|].
  apply Forall_cons in Hzw as [Hzw Hzws]. apply Forall_cons in Hzb as [Hzb Hzbs].
  injection Hw0 as ->. simpl.
  rewrite (zeros_data w1 w0 w Hw Hzw), (zeros_data w1 1 b Hb Hzb).
  rewrite (zero_layer w1 w0 x Hx Hall).
  destruct ls as [|w2 ls].
  - inversion Hok; subst. simpl in Hwl. injection Hwl as ->. done.
  - apply (IH Hzws Hzbs _ w1 wl); [simpl; lia | done | done | |].
    + split; [apply Matrix_init_wf | done].
    + apply Forall_replicate. exact absorbed_sigmoid.
Qed.

(** X13.  A network as the constructor leaves it gives the same answer
    for every input: for at least two layer widths, all at least 0 and
    in the range of [int], and every input column of the first width,
    [classify] returns the column of the last width that holds
    [sigmoid(0)] in every row.  [Val] is such that [0 + 0] is [0] and
    that [0 + 0 * v] is [0] for [sigmoid(0)] and for the values [v] of
    the input (every finite value of a floating-point type). *)
Theorem fresh_network_constant (layers : list Z) (inputs : Matrix) (w0 wl : Z) :
  Forall is_width layers → 2 ≤ length layers →
  head layers = Some w0 → last layers = Some wl →
  has_shape (Z.to_N w0) 1 inputs → Forall absorbed (data inputs) →
  ∃ net, NeuralNet_init layers = Some net ∧
         classify net inputs = Some (Matrix_init (Z.to_N wl) 1 (sigmoid zero)).
Proof.
  intros Hwidths Hlen Hw0 Hwl Hin Hall.
  destruct (NeuralNet_init_inv layers Hwidths) as (net & Hnet & Hinv & Hz).
  exists net. split; [done|].
  assert (Z.to_N <$> layers ≠ []) as Hne by (destruct layers; [simpl in Hlen; lia | done]).
  pose proof (net_inv_layers_ok _ net Hinv Hne) as Hok.
  assert (head (Z.to_N <$> layers) = Some (Z.to_N w0)) as Hw0'
    by (destruct layers; [done | simpl in *; congruence]).
  destruct (classify_loop _ (weights net) (biases net) (Z.to_N w0) inputs Hok Hw0' Hin)
    as [Hc _].
  unfold classify. rewrite Hc. f_equal.
  apply Forall_app in Hz as [Hzb Hzw].
  apply (forward_zero (Z.to_N <$> layers) _ _ Hok Hzw Hzb inputs (Z.to_N w0));
    [by rewrite length_fmap | done | | done | done].
  by rewrite fmap_last, Hwl.
Qed.

End ZeroNetwork.

(** ** The nested-vector [transpose] *)

Section BaselineTranspose.
Context `{Sc : Scalar}.




End BaselineTranspose.

(** ** The nested-vector [operator>>] *)

Lemma for_each_length {St A : Type} (body : St → A → St * A) (v : list A) :
  ∀ s, length (for_each body s v).2 = length v.
Proof.
  induction v as [|x v IH]; intros s; simpl; [done|].
  destruct (body s x) as [s1 x1]. specialize (IH s1).
  destruct (for_each body s1 v) as [s2 v2]. simpl in *. by rewrite IH.
Qed.

Lemma for_each_app {St A : Type} (body : St → A → St * A) (v1 v2 : list A) :
  ∀ s, for_each body s (v1 ++ v2)
       = let '(s1, w1) := for_each body s v1 in
         let '(s2, w2) := for_each body s1 v2 in (s2, w1 ++ w2).
Proof.
  induction v1 as [|x v1 IH]; intros s; simpl.
  - by destruct (for_each body s v2).
  - destruct (body s x) as [s1 x1]. rewrite IH.
    destruct (for_each body s1 v1) as [s2 w1].
    by destruct (for_each body s2 v2).
Qed.

Section BaselineStreams.
Context `{VT : ValText}.

(** The reading loop of the contiguous [operator>>] visits the entries in
    the order of the store. *)
Lemma read_entries_for_each (n : nat) :
  ∀ (k : nat) (ist : istream) (d : list Val),
  k + n ≤ length d →
  for_ (seq k n) read_entry (ist, d)
  = Some ((for_each extract_val ist (take n (drop k d))).1,
          take k d ++ (for_each extract_val ist (take n (drop k d))).2
                 ++ drop (k + n) d).
Proof.
  induction n as [|n IH]; intros k ist d Hk; simpl.
  - by rewrite Nat.add_0_r, take_drop.
  - destruct (lookup_lt_is_Some_2 d k) as [x Hx]; [lia|].
    rewrite Hx. simpl.
    rewrite (drop_S d x k Hx). simpl.
    destruct (extract_val ist x) as [ist1 x1].
    rewrite store_Some by lia. simpl.
    rewrite IH by (rewrite length_insert; lia).
    rewrite drop_insert_lt by lia.
    destruct (for_each extract_val ist1 (take n (drop (S k) d))) as [ist2 vs]. simpl.
    f_equal. f_equal.
    rewrite (take_S_r _ k x1) by (by apply list_lookup_insert_eq; lia).
    rewrite take_insert_ge by lia. rewrite drop_insert_lt by lia.
    rewrite <- app_assoc. simpl. by replace (k + S n) with (S k + n) by lia.
Qed.

Lemma to_nested_cons (r c : N) (v1 v2 : list Val) :
  length v1 = N.to_nat c →
  to_nested {| data := v1 ++ v2; rows := N.succ r; cols := c |}
  = v1 :: to_nested {| data := v2; rows := r; cols := c |}.
Proof.
  intros Hl. unfold to_nested, nrows, ncols. simpl.
  rewrite N2Nat.inj_succ. simpl. f_equal.
  - by rewrite drop_0, take_app_length'.
  - rewrite <- fmap_S_seq, <- list_fmap_compose. apply list_fmap_ext.
    intros _ i _. simpl. f_equal.
    replace (N.to_nat c + i * N.to_nat c) with (length v1 + i * N.to_nat c) by lia.
    by rewrite drop_app_add'.
Qed.

(** The rows of the nested-vector reader are the slices of what the
    contiguous reader stores. *)
Lemma for_each_rows (r c : nat) :
  ∀ ist,
  for_each (for_each extract_val) ist (replicate r (replicate c zero))
  = ((for_each extract_val ist (replicate (r * c) zero)).1,
     to_nested {| data := (for_each extract_val ist (replicate (r * c) zero)).2;
                  rows := N.of_nat r; cols := N.of_nat c |}).
Proof.
  induction r as [|r IH]; intros ist; [done|].
  simpl. rewrite replicate_add, for_each_app.
  pose proof (for_each_length extract_val (replicate c zero) ist) as Hlen.
  destruct (for_each extract_val ist (replicate c zero)) as [ist1 v1].
  simpl in Hlen. rewrite length_replicate in Hlen.
  rewrite IH.
  destruct (for_each extract_val ist1 (replicate (r * c) zero)) as [ist2 v2]. simpl.
  f_equal. rewrite <- to_nested_cons by lia. f_equal. f_equal. lia.
Qed.

(** In the model the two versions of [operator>>] read the same. *)
Lemma extract_baseline_eq (indet : Z * Z) (ist : istream)
    (m0 : Matrix) (n0 : Baseline.Matrix) :
  ∃ ist' m', Matrix_extract indet ist m0 = Some (ist', m') ∧
             Baseline_extract indet ist n0 = (ist', to_nested m').
Proof.
  unfold Matrix_extract, Baseline_extract.
  destruct (extract_int ist indet.1) as [ist1 h].
  destruct (extract_int ist1 indet.2) as [ist2 w]. cbv zeta.
  set (r := size_t_of_int h). set (c := size_t_of_int w).
  unfold read_entries_of.
  change (rows (Matrix_init r c zero)) with r.
  change (cols (Matrix_init r c zero)) with c.
  rewrite extract_loops_flat.
  rewrite read_entries_for_each by (rewrite length_replicate; lia).
  simpl. rewrite drop_0, take_ge by (rewrite length_replicate; lia).
  rewrite drop_ge by (rewrite length_replicate; lia). rewrite app_nil_r.
  eexists _, _. split; [reflexivity|].
  unfold Baseline.Matrix_init. rewrite for_each_rows.
  by rewrite !N2Nat.id.
Qed.

(** X16.  The two versions of [operator>>] agree on every stream from
    which the height and the width come out not negative, the streams
    that fail included: both return and leave the same stream, and the
    nested-vector version reads the rows of the matrix the contiguous
    version reads, of [height] rows and [width] columns. *)
Theorem extract_agrees_with_baseline (indet : Z * Z) (ist ist1 ist2 : istream)
    (height width : Z) (m0 : Matrix) (n0 : Baseline.Matrix) :
  extract_int ist indet.1 = (ist1, height) →
  extract_int ist1 indet.2 = (ist2, width) →
  is_width height → is_width width →
  ∃ ist' m', Matrix_extract indet ist m0 = Some (ist', m') ∧
             rows m' = Z.to_N height ∧ cols m' = Z.to_N width ∧
             Baseline_extract indet ist n0 = (ist', to_nested m').
Proof.
  intros H1 H2 Hh Hw.
  destruct (extract_baseline_eq indet ist m0 n0) as (ist' & m' & Hm & Hb).
  exists ist', m'. split; [done|]. split; [|split; [|done]].
  - destruct (Matrix_extract_total indet ist m0) as (ist3 & m3 & Hm3 & _).
    revert Hm. unfold Matrix_extract. rewrite H1, H2. cbv zeta.
    destruct (read_entries_of_total (size_t_of_int height) (size_t_of_int width) ist2)
      as (ist4 & m4 & -> & _ & Hr & _). intros [= _ <-]. rewrite Hr.
    by apply size_t_of_width.
  - revert Hm. unfold Matrix_extract. rewrite H1, H2. cbv zeta.
    destruct (read_entries_of_total (size_t_of_int height) (size_t_of_int width) ist2)
      as (ist4 & m4 & -> & _ & _ & Hc & _). intros [= _ <-]. rewrite Hc.
    by apply size_t_of_width.
Qed.

End BaselineStreams.

(** ** The nested-vector [operator<<] *)

Section BaselineInsert.
Context `{VT : ValText}.

Lemma insert_row_text (row : list Val) (os : ostream) :
  foldl (λ os val, os ++ show_val val ++ [sp]) os row = os ++ row_text row.
Proof.
  revert os. induction row as [|v row IH]; intros os; simpl.
  - by rewrite app_nil_r.
  - rewrite IH. unfold row_text. simpl. by rewrite <- !app_assoc.
Qed.

Lemma insert_rows_text (rs : list (list Val)) (os : ostream) :
  foldl (λ os row, foldl (λ os val, os ++ show_val val ++ [sp]) os row ++ [nl]) os rs
  = os ++ rows_text rs.
Proof.
  revert os. induction rs as [|r rs IH]; intros os; simpl.
  - by rewrite app_nil_r.
  - rewrite IH, insert_row_text. unfold rows_text. simpl. by rewrite <- !app_assoc.
Qed.

(** X28.  The two versions of [operator<<] write the same text for a
    matrix with at least one row that satisfies the class invariant: the
    nested-vector version, on the rows of [m], appends what the
    contiguous version appends for [m]. *)
Theorem insert_agrees_with_baseline (os : ostream) (m : Matrix) :
  wf m → (rows m ≠ 0)%N →
  ∃ os', Matrix_insert os m = Some os' ∧ Baseline_insert os (to_nested m) = Some os'.
Proof.
  intros Hwf Hr. exists (os ++ matrix_text m).
  split; [by apply Matrix_insert_text|].
  unfold Baseline_insert, Baseline.width, Baseline.height, Baseline.front.
  assert (0 < nrows m) as H0 by (unfold nrows; lia).
  pose proof (to_nested_lookup m 0 H0) as Hrow.
  rewrite <- head_lookup in Hrow. rewrite Hrow. simpl.
  rewrite to_nested_length, insert_rows_text.
  rewrite length_take, length_drop.
  replace (ncols m `min` (length (data m) - 0)) with (ncols m)
    by (unfold wf in Hwf; nia).
  unfold matrix_text, nrows, ncols. rewrite !N2Nat.id.
  f_equal. rewrite <- !app_assoc. simpl. by rewrite <- !app_assoc.
Qed.

End BaselineInsert.

(** ** The driver: [maxElemIndex] *)

Section MaxElement.
Context `{VT : ValText} `{DO : !DriverOps}.

(** The scan of [std::max_element]: [largest] stays the first position of
    an element that none seen so far is greater than. *)
Lemma max_element_from_spec (vec : list Val) :
  (∀ x, x ∈ vec → less x x = false) →
  (∀ x y z, x ∈ vec → y ∈ vec → z ∈ vec →
     less x y = true → less y z = true → less x z = true) →
  (∀ x y z, x ∈ vec → y ∈ vec → z ∈ vec →
     less x y = false → less y z = false → less x z = false) →
  ∀ (v : list Val) (largest pos : nat) (x : Val),
  vec !! largest = Some x → largest < pos → drop pos vec = v →
  (∀ j y, j < pos → vec !! j = Some y → less x y = false) →
  (∀ j y, j < largest → vec !! j = Some y → less y x = true) →
  ∃ r xr, max_element_from largest x pos v = r ∧ vec !! r = Some xr ∧
          (∀ y, y ∈ vec → less xr y = false) ∧
          (∀ j y, j < r → vec !! j = Some y → less y xr = true).
Proof.
  intros Hirr Htrans Hneg v.
  induction v as [|y v IH]; intros largest pos x Hx Hlt Hdrop Hmax Hfirst; simpl.
  - exists largest, x. split; [done|]. split; [done|]. split; [|done].
    intros y Hy. apply list_elem_of_lookup in Hy as [j Hj].
    apply (Hmax j); [|done].
    assert (length vec ≤ pos).
    { apply (f_equal length) in Hdrop. rewrite length_drop in Hdrop. simpl in Hdrop. lia. }
    apply lookup_lt_Some in Hj. lia.
  - assert (vec !! pos = Some y) as Hy.
    { rewrite <- (Nat.add_0_r pos), <- lookup_drop, Hdrop. done. }
    assert (drop (S pos) vec = v) as Hdrop'.
    { by rewrite (drop_S vec y pos Hy) in Hdrop; injection Hdrop. }
    assert (x ∈ vec) as Hxin by (by apply list_elem_of_lookup_2 in Hx).
    assert (y ∈ vec) as Hyin by (by apply list_elem_of_lookup_2 in Hy).
    destruct (less x y) eqn:Hless.
    + apply (IH pos (S pos) y); [done | lia | done | |].
      * intros j z Hj Hz.
        assert (z ∈ vec) as Hzin by (by apply list_elem_of_lookup_2 in Hz).
        destruct (decide (j = pos)) as [->|Hne].
        { assert (z = y) as -> by congruence. by apply Hirr. }
        destruct (less y z) eqn:Hyz; [|done].
        pose proof (Htrans x y z Hxin Hyin Hzin Hless Hyz) as Hxz.
        rewrite (Hmax j z) in Hxz by (lia || done). done.
      * intros j z Hj Hz.
        assert (z ∈ vec) as Hzin by (by apply list_elem_of_lookup_2 in Hz).
        destruct (decide (j < largest)) as [Hjl|Hjl].
        { apply (Htrans z x y); [done..| by apply (Hfirst j) | done]. }
        destruct (less z y) eqn:Hzy; [done|].
        assert (less x z = false) as Hxz by (apply (Hmax j); [lia | done]).
        pose proof (Hneg x z y Hxin Hzin Hyin Hxz Hzy) as Hxy. congruence.
    + apply (IH largest (S pos) x); [done | lia | done | | done].
      intros j z Hj Hz. destruct (decide (j = pos)) as [->|Hne].
      * assert (z = y) as -> by congruence. done.
      * apply (Hmax j); [lia | done].
Qed.

(** X17.  [maxElemIndex] returns the position of the first maximum: for
    a vector with at least one and at most [INT_MAX] elements, on whose
    elements [<] is a strict weak order, the result is a position of the
    vector, no element is greater than the element there, and every
    element before it is smaller. *)
Theorem maxElemIndex_first_maximum (vec : list Val) :
  (∀ x, x ∈ vec → less x x = false) →
  (∀ x y z, x ∈ vec → y ∈ vec → z ∈ vec →
     less x y = true → less y z = true → less x z = true) →
  (∀ x y z, x ∈ vec → y ∈ vec → z ∈ vec →
     less x y = false → less y z = false → less x z = false) →
  vec ≠ [] → (Z.of_nat (length vec) ≤ INT_MAX)%Z →
  ∃ r xr, maxElemIndex vec = Z.of_nat r ∧ vec !! r = Some xr ∧
          (∀ y, y ∈ vec → less xr y = false) ∧
          (∀ j y, j < r → vec !! j = Some y → less y xr = true).
Proof.
  intros Hirr Htrans Hneg Hne Hlen.
  destruct vec as [|x v]; [done|].
  destruct (max_element_from_spec (x :: v) Hirr Htrans Hneg v 0 1 x)
    as (r & xr & Hr & Hxr & Hmax & Hfirst); [done | lia | done | | intros; lia |].
  { intros j y Hj Hy. assert (j = 0) as -> by lia. simpl in Hy. injection Hy as <-.
    apply Hirr. by left. }
  exists r, xr. split; [|done].
  unfold maxElemIndex, max_element. rewrite Hr.
  apply lookup_lt_Some in Hxr. unfold int_of_ptrdiff, INT_MAX in *.
  rewrite Z.mod_small by lia. lia.
Qed.

End MaxElement.

(** ** The driver: [getExpectedDigitOutput] *)

Lemma rfind_from_absent (c : ascii) (s : list ascii) :
  c ∉ s → ∀ pos found, rfind_from c s pos found = found.
Proof.
  induction s as [|x s IH]; intros Hc pos found; simpl; [done|].
  apply not_elem_of_cons in Hc as [Hx Hs].
  destruct (Ascii.eqb_spec x c) as [->|_]; [done|]. by apply IH.
Qed.

Lemma rfind_from_last (c : ascii) (pre post : list ascii) :
  c ∉ post →
  ∀ pos found, rfind_from c (pre ++ c :: post) pos found = N.of_nat (pos + length pre).
Proof.
  intros Hc. induction pre as [|x pre IH]; intros pos found; simpl.
  - rewrite Ascii.eqb_refl. rewrite rfind_from_absent by done. f_equal. lia.
  - rewrite IH. f_equal. lia.
Qed.

Section ExpectedDigit.
Context `{VT : ValText} `{DO : !DriverOps}.

(** The column with [of_int 1] at row [k] and [zero] elsewhere. *)
Lemma store_entry_column (k : nat) :
  k < 10 →
  store_entry (Matrix_init 10 1 zero) (Z.of_nat k) 0 (of_int 1)
  = Some {| data := <[k := of_int 1]> (replicate 10 zero); rows := 10; cols := 1 |}.
Proof.
  intros Hk. unfold store_entry. simpl.
  rewrite decide_True by lia.
  rewrite Nat2Z.id. unfold ncols. simpl.
  rewrite store_Some by (simpl; lia). simpl.
  by replace (k * N.to_nat 1 + Z.to_nat 0) with k by lia.
Qed.

Lemma digit_code (k : nat) :
  k < 10 →
  (Z.of_nat (nat_of_ascii (ascii_of_nat (48 + k))) - Z.of_nat (nat_of_ascii "0"))%Z
  = Z.of_nat k.
Proof.
  intros Hk. rewrite nat_ascii_embedding by lia.
  change (nat_of_ascii "0") with 48. lia.
Qed.

Lemma getExpectedDigitOutput_one_hot_eq (pre post : list ascii) (k : nat) :
  k < 10 → "_"%char ∉ post → (N.of_nat (length pre) + 1 < 2 ^ 64)%N →
  getExpectedDigitOutput (pre ++ "_"%char :: ascii_of_nat (48 + k) :: post)
  = Some {| data := <[k := of_int 1]> (replicate 10 zero); rows := 10; cols := 1 |}.
Proof.
  intros Hk Hpost Hlen. unfold getExpectedDigitOutput, rfind.
  pose proof (digit_code k Hk) as Hcode.
  assert ("_"%char ≠ ascii_of_nat (48 + k)) as Hne.
  { intros Heq. apply (f_equal nat_of_ascii) in Heq.
    rewrite nat_ascii_embedding in Heq by lia. change (nat_of_ascii "_") with 95 in Heq.
    lia. }
  remember (ascii_of_nat (48 + k)) as d eqn:Hd.
  rewrite rfind_from_last by (apply not_elem_of_cons; split; done).
  simpl. rewrite N.mod_small by lia.
  unfold string_at.
  replace (N.to_nat (N.of_nat (length pre) + 1)) with (S (length pre)) by lia.
  rewrite lookup_app_r by lia.
  replace (S (length pre) - length pre) with 1 by lia. simpl.
  simpl in Hcode. rewrite Hcode.
  by apply store_entry_column.
Qed.

(** X18.  For a path with the digit k after its last underscore
    [getExpectedDigitOutput] returns the column of 10 rows that holds 1
    in row k and 0 in the others. *)
Theorem getExpectedDigitOutput_one_hot (pre post : list ascii) (k : nat) :
  k < 10 → "_"%char ∉ post → (N.of_nat (length pre) + 1 < 2 ^ 64)%N →
  getExpectedDigitOutput (pre ++ "_"%char :: ascii_of_nat (48 + k) :: post)
  = Some {| data := <[k := of_int 1]> (replicate 10 zero); rows := 10; cols := 1 |}.
Proof. apply getExpectedDigitOutput_one_hot_eq. Qed.

(** X19.  For a path without underscore [rfind] returns [npos],
    [labelPos] wraps to 0 and the label is the first character of the
    path: if that is the digit k the result is the column with 1 in
    row k. *)
Theorem getExpectedDigitOutput_no_underscore (rest : list ascii) (k : nat) :
  k < 10 → "_"%char ∉ rest →
  getExpectedDigitOutput (ascii_of_nat (48 + k) :: rest)
  = Some {| data := <[k := of_int 1]> (replicate 10 zero); rows := 10; cols := 1 |}.
Proof.
  intros Hk Hrest. unfold getExpectedDigitOutput, rfind.
  pose proof (digit_code k Hk) as Hcode.
  assert ("_"%char ≠ ascii_of_nat (48 + k)) as Hne.
  { intros Heq. apply (f_equal nat_of_ascii) in Heq.
    rewrite nat_ascii_embedding in Heq by lia. change (nat_of_ascii "_") with 95 in Heq.
    lia. }
  remember (ascii_of_nat (48 + k)) as d eqn:Hd.
  rewrite rfind_from_absent by (apply not_elem_of_cons; split; done).
  change ((npos + 1) mod 2 ^ 64)%N with 0%N. unfold string_at. simpl.
  simpl in Hcode. rewrite Hcode.
  by apply store_entry_column.
Qed.

(** X20.  When the character after the last underscore is not a digit,
    or the path ends with the underscore (the label is then read from
    the null character at [path[size()]]), [getExpectedDigitOutput]
    stores outside the column and has no result. *)
Theorem getExpectedDigitOutput_not_a_digit (pre post : list ascii) (c : ascii) :
  "_"%char ∉ c :: post → (N.of_nat (length pre) + 1 < 2 ^ 64)%N →
  (nat_of_ascii c < 48 ∨ 57 < nat_of_ascii c) →
  getExpectedDigitOutput (pre ++ "_"%char :: c :: post) = None ∧
  getExpectedDigitOutput (pre ++ ["_"%char]) = None.
Proof.
  intros Hpost Hlen Hc. unfold getExpectedDigitOutput, rfind. split.
  - rewrite rfind_from_last by done.
    simpl. rewrite N.mod_small by lia.
    unfold string_at.
    replace (N.to_nat (N.of_nat (length pre) + 1)) with (S (length pre)) by lia.
    rewrite lookup_app_r by lia.
    replace (S (length pre) - length pre) with 1 by lia. simpl.
    unfold store_entry. simpl. change (nat_of_ascii "0") with 48.
    rewrite decide_False; [done|]. lia.
  - rewrite rfind_from_last by (apply not_elem_of_nil).
    simpl. rewrite N.mod_small by lia.
    unfold string_at.
    replace (N.to_nat (N.of_nat (length pre) + 1)) with (S (length pre)) by lia.
    rewrite lookup_ge_None_2 by (rewrite length_app; simpl; lia).
    destruct (decide (S (length pre) = length (pre ++ ["_"%char]))) as [_|Hn];
      [|rewrite length_app in Hn; simpl in Hn; lia].
    reflexivity.
Qed.

End ExpectedDigit.

(** ** The driver: [loadPGM] *)

Lemma read_word_blank (w ws s : list ascii) :
  Forall (λ c, isspace c = false) w → blank ws → ws ≠ [] →
  read_word (w ++ ws ++ s) = (w, ws ++ s).
Proof.
  intros Hw Hws Hne. induction Hw as [|c w Hc _ IH]; simpl.
  - destruct Hws as [|c ws Hc _]; [done|]. simpl. by rewrite Hc.
  - by rewrite Hc, IH.
Qed.

Lemma extract_string_word (ws0 w ws s : list ascii) (x : list ascii) :
  blank ws0 → Forall (λ c, isspace c = false) w → w ≠ [] → blank ws → ws ≠ [] →
  extract_string {| buf := ws0 ++ w ++ ws ++ s; failbit := false |} x
  = ({| buf := ws ++ s; failbit := false |}, w).
Proof.
  intros Hws0 Hw Hne Hws Hwsne. unfold extract_string. cbn [failbit buf].
  rewrite skip_ws_blank by done.
  destruct w as [|c w]; [done|]. pose proof Hw as Hw'.
  apply Forall_cons in Hw' as [Hc _].
  pose proof (read_word_blank (c :: w) ws s Hw Hws Hwsne) as Hrw.
  change ((c :: w) ++ ws ++ s) with (c :: (w ++ ws ++ s)) in *.
  cbn [skip_ws]. rewrite Hc. by rewrite Hrw.
Qed.

Lemma blank_no_digit (ws s : list ascii) : blank ws → ws ≠ [] → no_digit (ws ++ s).
Proof.
  intros Hws Hne. destruct Hws as [|c ws Hc _]; [done|]. simpl. by apply digit_not_space.
Qed.

Lemma blank_ends_token (ws s : list ascii) : blank ws → ws ≠ [] → ends_token (ws ++ s).
Proof. intros Hws Hne. destruct Hws as [|c ws Hc _]; [done|]. done. Qed.

Section LoadPGM.
Context `{VT : ValText} `{DO : !DriverOps}.

(** [img[i][0] = x] on a column. *)
Lemma store_entry_col (d : list Val) (R : N) (i : nat) (x : Val) :
  length d = N.to_nat R → i < N.to_nat R →
  store_entry {| data := d; rows := R; cols := 1 |} (0 + Z.of_nat i) 0 x
  = Some {| data := <[i := x]> d; rows := R; cols := 1 |}.
Proof.
  intros Hlen Hi. unfold store_entry. simpl.
  rewrite decide_True by lia. unfold ncols. simpl.
  replace (Z.to_nat (0 + Z.of_nat i) * N.to_nat 1 + Z.to_nat 0) with i by lia.
  by rewrite store_Some by lia.
Qed.

Lemma pixel_step_eq (maxVal : Val) (i : nat) (file : istream) (value : Val)
    (img : Matrix) :
  pixel_step maxVal i (file, value, img)
  = (img' ← store_entry img (0 + Z.of_nat i) 0
              (div (extract_val file value).2 maxVal);
     Some ((extract_val file value).1, (extract_val file value).2, img')).
Proof. unfold pixel_step. by destruct (extract_val file value). Qed.

Lemma pixel_loop_zrange (maxVal : Val) (n : Z) (st : istream * Val * Matrix) :
  for_ (zrange 0 n) (λ i '(file, value, img),
    let '(file, value) := extract_val file value in
    img ← store_entry img i 0 (div value maxVal);
    Some (file, value, img)) st
  = for_ (seq 0 (Z.to_nat n)) (pixel_step maxVal) st.
Proof.
  unfold zrange. rewrite for_fmap. rewrite Z.sub_0_r. done.
Qed.

(** The pixels the text starts with are read into the column. *)
Lemma pixel_loop_reads (maxVal : Val) (R : N) (rest : list ascii) (vals : list Val) :
  ∀ (k : nat) (vals' : list Val) (s : list ascii) (value : Val) (d : list Val),
  starts_with rest vals s → Forall2 prints_as vals vals' →
  length d = N.to_nat R → k + length vals ≤ length d →
  for_ (seq k (length vals)) (pixel_step maxVal)
    ({| buf := s; failbit := false |}, value, {| data := d; rows := R; cols := 1 |})
  = Some ({| buf := rest; failbit := false |}, default value (last vals'),
          {| data := take k d ++ ((λ v, div v maxVal) <$> vals')
                       ++ drop (k + length vals) d;
             rows := R; cols := 1 |}).
Proof.
  induction vals as [|v vals IH]; intros k vals' s value d Hs Hp Hlen Hk.
  - inversion Hs; subst. apply Forall2_nil_inv_l in Hp as ->.
    simpl. by rewrite Nat.add_0_r, take_drop.
  - inversion Hs as [|ws v0 vs s0 Hws Hend Hs0]; subst.
    apply Forall2_cons_inv_l in Hp as (v' & vs' & Hv & Hp & ->).
    simpl in Hk. cbn [length seq for_]. rewrite pixel_step_eq.
    rewrite extract_val_skip by done. rewrite (Hv s0 value Hend).
    rewrite store_entry_col by lia. cbn [mbind option_bind].
    rewrite (IH (S k) vs' s0 v' (<[k:=div v' maxVal]> d));
      [|done|done|by rewrite length_insert|rewrite length_insert; lia].
    f_equal. f_equal; [f_equal|].
    { rewrite last_cons. by destruct (last vs'). }
    f_equal.
    rewrite (take_S_r _ k (div v' maxVal)) by (by apply list_lookup_insert_eq; lia).
    rewrite take_insert_ge by lia. rewrite drop_insert_lt by lia.
    rewrite <- app_assoc. simpl. by replace (k + S (length vals)) with (S k + length vals) by lia.
Qed.

(** Once the stream has failed, every pixel left is the value read last. *)
Lemma pixel_loop_failed (maxVal : Val) (R : N) (n : nat) :
  ∀ (k : nat) (file : istream) (value : Val) (d : list Val),
  failbit file = true → length d = N.to_nat R → k + n ≤ length d →
  for_ (seq k n) (pixel_step maxVal)
    (file, value, {| data := d; rows := R; cols := 1 |})
  = Some (file, value,
          {| data := take k d ++ replicate n (div value maxVal) ++ drop (k + n) d;
             rows := R; cols := 1 |}).
Proof.
  induction n as [|n IH]; intros k file value d Hf Hlen Hk.
  - simpl. by rewrite Nat.add_0_r, take_drop.
  - cbn [seq for_]. rewrite pixel_step_eq.
    rewrite extract_val_failed by done.
    rewrite store_entry_col by lia. cbn [mbind option_bind].
    rewrite IH; [|done|by rewrite length_insert|rewrite length_insert; lia].
    f_equal. f_equal. f_equal.
    rewrite (take_S_r _ k (div value maxVal)) by (by apply list_lookup_insert_eq; lia).
    rewrite take_insert_ge by lia. rewrite drop_insert_lt by lia.
    rewrite <- app_assoc. simpl. by replace (k + S n) with (S k + n) by lia.
Qed.

(** At the end of the text the same happens, and [failbit] is set. *)
Lemma pixel_loop_blank (maxVal : Val) (R : N) (n : nat) (k : nat) (s : list ascii)
    (value : Val) (d : list Val) :
  blank s → 0 < n → length d = N.to_nat R → k + n ≤ length d →
  for_ (seq k n) (pixel_step maxVal)
    ({| buf := s; failbit := false |}, value, {| data := d; rows := R; cols := 1 |})
  = Some ({| buf := []; failbit := true |}, value,
          {| data := take k d ++ replicate n (div value maxVal) ++ drop (k + n) d;
             rows := R; cols := 1 |}).
Proof.
  intros Hs Hn Hlen Hk. destruct n as [|n]; [lia|].
  cbn [seq for_]. rewrite pixel_step_eq.
  rewrite extract_val_blank by done.
  rewrite store_entry_col by lia. cbn [mbind option_bind].
  rewrite pixel_loop_failed; [|done|by rewrite length_insert|rewrite length_insert; lia].
  f_equal. f_equal. f_equal.
  rewrite (take_S_r _ k (div value maxVal)) by (by apply list_lookup_insert_eq; lia).
  rewrite take_insert_ge by lia. rewrite drop_insert_lt by lia.
  rewrite <- app_assoc. simpl. by replace (k + S n) with (S k + n) by lia.
Qed.

Lemma loadPGM_header (fs : files) (indet : Z * Z * (Val * Val)) (path : list ascii)
    (ws0 ws1 ws2 ws3 : list ascii) (w h : N) (mx mx' : Val) (s : list ascii) :
  separators ws0 ws1 ws2 ws3 →
  (Z.of_N w ≤ INT_MAX)%Z → (Z.of_N h ≤ INT_MAX)%Z → (Z.of_N (w * h) ≤ INT_MAX)%Z →
  prints_as mx mx' → ends_token s →
  fs path = Some (pgm_text ws0 ws1 ws2 ws3 w h mx s) →
  loadPGM fs indet path
  = ('(file, value, img) ← of_option (
       for_ (seq 0 (N.to_nat (w * h))) (pixel_step mx')
         ({| buf := s; failbit := false |}, indet.2.2,
          {| data := replicate (N.to_nat (w * h)) zero; rows := w * h; cols := 1 |}));
     Returns img).
Proof.
  intros (Hws0 & [Hws1 Hne1] & [Hws2 Hne2] & [Hws3 Hne3]) Hw Hh Hwh Hmx Hs Hfs.
  unfold loadPGM. rewrite Hfs. unfold pgm_text.
  rewrite (extract_string_word ws0 (list_ascii_of_string "P2") ws1);
    [|done|by repeat constructor|done|done|done].
  rewrite (extract_int_show_N ws1 _ w) by (done || by apply blank_no_digit).
  rewrite (extract_int_show_N ws2 _ h) by (done || by apply blank_no_digit).
  rewrite extract_val_skip by done. rewrite (Hmx s _ Hs).
  rewrite decide_True by done.
  unfold int_mul. rewrite decide_True by (unfold INT_MIN, INT_MAX in *; lia).
  simpl. unfold new_column. rewrite decide_False by lia. simpl.
  rewrite pixel_loop_zrange.
  assert (size_t_of_int (Z.of_N w * Z.of_N h) = (w * h)%N) as ->.
  { rewrite <- N2Z.inj_mul. by apply size_t_of_N. }
  replace (Z.to_nat (Z.of_N w * Z.of_N h)) with (N.to_nat (w * h)) by lia.
  unfold Matrix_init.
  by replace (N.to_nat (w * h * 1)) with (N.to_nat (w * h)) by lia.
Qed.

(** X21.  For a file that holds the word "P2", a width w, a height h and a
    largest value (w, h and w * h in the range of [int]), then w * h
    pixel values, all separated by white space, [loadPGM] returns the
    column of w * h rows that holds every pixel, in the order of the
    file, divided by the largest value; what follows the pixels is not
    read. *)
Theorem loadPGM_reads_image (fs : files) (indet : Z * Z * (Val * Val))
    (path : list ascii) (ws0 ws1 ws2 ws3 : list ascii) (w h : N) (mx mx' : Val)
    (s rest : list ascii) (vals vals' : list Val) :
  separators ws0 ws1 ws2 ws3 →
  (Z.of_N w ≤ INT_MAX)%Z → (Z.of_N h ≤ INT_MAX)%Z → (Z.of_N (w * h) ≤ INT_MAX)%Z →
  prints_as mx mx' → ends_token s →
  starts_with rest vals s → Forall2 prints_as vals vals' →
  length vals = N.to_nat (w * h) →
  fs path = Some (pgm_text ws0 ws1 ws2 ws3 w h mx s) →
  loadPGM fs indet path
  = Returns {| data := (λ v, div v mx') <$> vals'; rows := w * h; cols := 1 |}.
Proof.
  intros Hsep Hw Hh Hwh Hmx Hs Hst Hp Hlen Hfs.
  rewrite (loadPGM_header fs indet path ws0 ws1 ws2 ws3 w h mx mx' s) by done.
  rewrite <- Hlen.
  rewrite (pixel_loop_reads mx' (w * h) rest vals 0 vals');
    [|done|done|by rewrite length_replicate|rewrite length_replicate; lia].
  simpl. rewrite drop_ge by (rewrite length_replicate; lia). by rewrite app_nil_r.
Qed.

(** X22.  A file that ends before its w * h pixel values is not refused:
    [loadPGM] throws nothing and returns a column of w * h rows; the
    rows for which the file has no pixel hold the last pixel read (what
    the local [value] held before the loop, if the file has no pixel at
    all) divided by the largest value. *)
Theorem loadPGM_pads_truncated_image (fs : files) (indet : Z * Z * (Val * Val))
    (path : list ascii) (ws0 ws1 ws2 ws3 : list ascii) (w h : N) (mx mx' : Val)
    (s rest : list ascii) (vals vals' : list Val) :
  separators ws0 ws1 ws2 ws3 →
  (Z.of_N w ≤ INT_MAX)%Z → (Z.of_N h ≤ INT_MAX)%Z → (Z.of_N (w * h) ≤ INT_MAX)%Z →
  prints_as mx mx' → ends_token s →
  starts_with rest vals s → blank rest → Forall2 prints_as vals vals' →
  length vals < N.to_nat (w * h) →
  fs path = Some (pgm_text ws0 ws1 ws2 ws3 w h mx s) →
  loadPGM fs indet path
  = Returns {| data := ((λ v, div v mx') <$> vals')
                 ++ replicate (N.to_nat (w * h) - length vals)
                      (div (default indet.2.2 (last vals')) mx');
               rows := w * h; cols := 1 |}.
Proof.
  intros Hsep Hw Hh Hwh Hmx Hs Hst Hrest Hp Hlen Hfs.
  rewrite (loadPGM_header fs indet path ws0 ws1 ws2 ws3 w h mx mx' s) by done.
  set (n := N.to_nat (w * h)) in *.
  replace n with (length vals + (n - length vals)) at 1 by lia.
  rewrite seq_app, for_app.
  rewrite (pixel_loop_reads mx' (w * h) rest vals 0 vals');
    [|done|done|by rewrite length_replicate|rewrite length_replicate; lia].
  cbn [mbind option_bind]. simpl (0 + length vals).
  pose proof (Forall2_length _ _ _ Hp) as Hl.
  rewrite pixel_loop_blank; [|done|lia| |].
  - simpl. f_equal. f_equal.
    rewrite take_app_length' by (by rewrite length_fmap).
    rewrite (drop_ge _ (length vals + (n - length vals))).
    2:{ rewrite length_app, length_fmap, length_drop, length_replicate. lia. }
    by rewrite app_nil_r.
  - simpl. rewrite length_app, length_fmap, length_drop, length_replicate. lia.
  - simpl. rewrite length_app, length_fmap, length_drop, length_replicate. lia.
Qed.

Lemma loadPGM_header_mismatch (fs : files) (indet : Z * Z * (Val * Val))
    (path text : list ascii) :
  fs path = Some text →
  (extract_string {| buf := text; failbit := false |} []).2
    ≠ list_ascii_of_string "P2" →
  loadPGM fs indet path
  = Throws (runtime_error (list_ascii_of_string "Only P2 PGM format is supported")).
Proof.
  intros Hfs Hhdr. unfold loadPGM. rewrite Hfs.
  destruct (extract_string {| buf := text; failbit := false |} []) as [file hdr].
  destruct (extract_int file indet.1.1) as [file1 width].
  destruct (extract_int file1 indet.1.2) as [file2 height].
  destruct (extract_val file2 indet.2.1) as [file3 maxVal].
  simpl in Hhdr. by rewrite decide_False.
Qed.

(** X23.  The exceptions of [loadPGM]: a [runtime_error] with the message
    "Unable to read " and the path when the file cannot be opened; a
    [runtime_error] with the message "Only P2 PGM format is supported"
    when the file holds white space only (or nothing), and when its
    first word, followed by white space, is not "P2", whatever the rest
    of the file holds. *)
Theorem loadPGM_throws (fs : files) (indet : Z * Z * (Val * Val)) (path : list ascii) :
  (fs path = None →
   loadPGM fs indet path
   = Throws (runtime_error (list_ascii_of_string "Unable to read " ++ path))) ∧
  (∀ text, fs path = Some text → blank text →
     loadPGM fs indet path
     = Throws (runtime_error (list_ascii_of_string "Only P2 PGM format is supported"))) ∧
  (∀ ws0 w ws s,
     fs path = Some (ws0 ++ w ++ ws ++ s) →
     blank ws0 → Forall (λ c, isspace c = false) w → w ≠ [] →
     blank ws → ws ≠ [] → w ≠ list_ascii_of_string "P2" →
     loadPGM fs indet path
     = Throws (runtime_error (list_ascii_of_string "Only P2 PGM format is supported"))).
Proof.
  split; [|split].
  - intros Hfs. unfold loadPGM. by rewrite Hfs.
  - intros text Hfs Hblank. apply (loadPGM_header_mismatch fs indet path text Hfs).
    unfold extract_string. simpl. by rewrite skip_ws_all_blank.
  - intros ws0 w ws s Hfs Hws0 Hw Hne Hws Hwsne Hp2.
    apply (loadPGM_header_mismatch fs indet path _ Hfs).
    by rewrite extract_string_word.
Qed.

End LoadPGM.

(** ** The driver: [train] *)

Lemma outcome_bind_Returns {A B : Type} (o : outcome A) (f : A → outcome B) (y : B) :
  o ≫= f = Returns y → ∃ x, o = Returns x ∧ f x = Returns y.
Proof. destruct o as [x| |]; [eauto | done | done]. Qed.

Lemma of_option_Returns {A : Type} (o : option A) (x : A) :
  of_option o = Returns x → o = Some x.
Proof. destruct o; [by intros [= ->] | done]. Qed.

Section Training.
Context `{VT : ValText} `{DO : !DriverOps}.

Lemma store_entry_wf (m m' : Matrix) (i j : Z) (x : Val) :
  wf m → store_entry m i j x = Some m' → wf m' ∧ rows m' = rows m ∧ cols m' = cols m.
Proof.
  intros Hwf. unfold store_entry. case_decide; [|done].
  intros Hm. apply bind_Some in Hm as (d & Hd & [= <-]).
  unfold store in Hd. case_decide; [|done]. injection Hd as <-.
  split; [|done]. unfold wf, nrows, ncols in *. simpl. by rewrite length_insert.
Qed.

(** Whatever the file holds, an image that [loadPGM] returns is a matrix
    with one column. *)
Lemma loadPGM_wf (fs : files) (indet : Z * Z * (Val * Val)) (path : list ascii)
    (img : Matrix) :
  loadPGM fs indet path = Returns img → wf img ∧ cols img = 1%N.
Proof.
  unfold loadPGM. destruct (fs path) as [text|]; [|done].
  destruct (extract_string _ _) as [file hdr].
  destruct (extract_int file _) as [file1 width].
  destruct (extract_int file1 _) as [file2 height].
  destruct (extract_val file2 _) as [file3 maxVal].
  case_decide as Hhdr; [|done].
  intros Hload. apply outcome_bind_Returns in Hload as (n & _ & Hload).
  apply outcome_bind_Returns in Hload as (img0 & Himg0 & Hload).
  apply outcome_bind_Returns in Hload as ([[file4 value] img1] & Hloop & [= ->]).
  apply of_option_Returns in Hloop.
  unfold new_column in Himg0. case_decide as Hneg; [done|]. injection Himg0 as <-.
  revert Hloop.
  generalize (zrange 0 n). intros range.
  assert (wf (Matrix_init (size_t_of_int n) 1 zero) ∧
          cols (Matrix_init (size_t_of_int n) 1 zero) = 1%N) as Hinit
    by (split; [apply Matrix_init_wf | done]).
  revert Hinit. generalize (Matrix_init (size_t_of_int n) 1 zero).
  generalize file3 (indet.2.2).
  induction range as [|i range IH]; intros file0 value0 img0 Hinit Hloop; simpl in Hloop.
  - by injection Hloop as _ _ <-.
  - destruct (extract_val file0 value0) as [file' value'].
    apply bind_Some in Hloop as ([[f v] im] & Hstep & Hloop).
    apply bind_Some in Hstep as (img' & Hst & [= <- <- <-]).
    destruct Hinit as [Hwf Hc].
    apply store_entry_wf in Hst as (Hwf' & _ & Hc'); [|done].
    apply (IH _ _ _ ltac:(split; [done | congruence]) Hloop).
Qed.

Lemma getExpectedDigitOutput_wf (path : list ascii) (exp : Matrix) :
  getExpectedDigitOutput path = Some exp → has_shape 10 1 exp.
Proof.
  unfold getExpectedDigitOutput. intros H.
  apply bind_Some in H as (c & _ & H).
  apply store_entry_wf in H as (Hwf & Hr & Hc); [|apply Matrix_init_wf].
  done.
Qed.

(** [train] is the loop without its counter on a prefix of the list. *)
Lemma train_take (fs : files) (indet : Z * Z * (Val * Val))
    (eta0 : Val) (path : list ascii) (fileNames : list (list ascii)) :
  ∀ (net : NeuralNet) (count : Z),
  (INT_MIN < count)%Z →
  train fs indet eta0 net path fileNames count
  = learn_files fs indet eta0 net path (take (S (Z.to_nat count)) fileNames).
Proof.
  induction fileNames as [|imgName fileNames IH]; intros net count Hcount; [done|].
  cbn [train learn_files take].
  destruct (loadPGM fs indet (path ++ "/"%char :: imgName)) as [img| |]; [|done..].
  cbn [mbind outcome_bind].
  destruct (getExpectedDigitOutput imgName) as [exp|]; [|done].
  cbn [of_option mbind outcome_bind].
  destruct (learn net img exp eta0) as [net'|]; [|done].
  cbn [of_option mbind outcome_bind].
  unfold int_pred. rewrite decide_True by done. cbn [of_option mbind outcome_bind].
  case_decide as Hle.
  - replace (Z.to_nat count) with 0 by lia. by rewrite take_0.
  - rewrite IH by (unfold INT_MIN in *; lia).
    by replace (S (Z.to_nat (count - 1))) with (Z.to_nat count) by lia.
Qed.

(** X24.  [train(net, path, fileNames, count)] trains with one file more
    than [count]: for [count] above [INT_MIN] it does what the loop
    without its counter does on the first [count + 1] names of the list
    (on all of them if the list is shorter), and on the first name alone
    for a [count] of 0 or below. *)
Theorem train_uses_one_file_more (fs : files) (indet : Z * Z * (Val * Val))
    (eta0 : Val) (path : list ascii) (fileNames : list (list ascii))
    (net : NeuralNet) (count : Z) :
  (INT_MIN < count)%Z →
  train fs indet eta0 net path fileNames count
  = learn_files fs indet eta0 net path (take (S (Z.to_nat count)) fileNames).
Proof. apply train_take. Qed.

(** X25.  Whatever the files hold, a call of [train] that returns leaves
    a network that satisfies the invariant for the same layer widths:
    the same number of biases and weights, of the same shapes. *)
Theorem train_preserves_invariant (fs : files) (indet : Z * Z * (Val * Val))
    (eta0 : Val) (path : list ascii) (ls : list N) (fileNames : list (list ascii)) :
  ∀ (net net' : NeuralNet) (count : Z),
  net_inv ls net →
  train fs indet eta0 net path fileNames count = Returns net' →
  net_inv ls net'.
Proof.
  induction fileNames as [|imgName fileNames IH]; intros net net' count Hinv Htrain.
  - simpl in Htrain. by injection Htrain as <-.
  - cbn [train] in Htrain.
    apply outcome_bind_Returns in Htrain as (img & Himg & Htrain).
    apply outcome_bind_Returns in Htrain as (exp & Hexp & Htrain).
    apply outcome_bind_Returns in Htrain as (net1 & Hlearn & Htrain).
    apply outcome_bind_Returns in Htrain as (count' & _ & Htrain).
    apply of_option_Returns in Hexp, Hlearn.
    apply loadPGM_wf in Himg as [Hwimg _].
    apply getExpectedDigitOutput_wf in Hexp as (Hwexp & _).
    pose proof (learn_preserves ls net net1 img exp eta0 Hinv Hwimg Hwexp Hlearn) as Hinv1.
    case_decide.
    + by injection Htrain as <-.
    + by apply (IH net1 net' count').
Qed.

End Training.

(** ** The driver: the top-level [train] *)

Section TrainList.
Context `{VT : ValText} `{DO : !DriverOps}.
Variable shuffle : list (list ascii) → list (list ascii).
Hypothesis shuffle_permutes : ∀ names, shuffle names ≡ₚ names.

Lemma read_names_take (limit : Z) (lines : list (list ascii)) :
  ∀ (count : Z) (fileNames : list (list ascii)),
  read_names limit lines count fileNames
  = fileNames ++ take (Z.to_nat (limit - count)) lines.
Proof.
  induction lines as [|imgName lines IH]; intros count fileNames; simpl.
  - by rewrite take_nil, app_nil_r.
  - case_decide as Hc.
    + rewrite IH, <- app_assoc. simpl.
      replace (Z.to_nat (limit - count)) with (S (Z.to_nat (limit - (count + 1)))) by lia.
      done.
    + replace (Z.to_nat (limit - count)) with 0 by lia. by rewrite app_nil_r.
Qed.

(** X29.  The top-level [train] throws a [runtime_error] with the message
    "Error reading: " and the name when the list file cannot be opened.
    Otherwise it keeps the first [limit] lines of the file (none for a
    [limit] of 0 or below), shuffles them and calls [learn] once for
    each, in the shuffled order: the list is never longer than [limit],
    so the one name more that the helper would use is not there.
    [shuffle] is whatever permutation [std::shuffle] applies. *)
Theorem train_list_uses_limit (fs : files) (indet : Z * Z * (Val * Val))
    (eta0 : Val) (net : NeuralNet) (path imgListFile : list ascii) (limit : Z) :
  (fs imgListFile = None →
   train_list shuffle fs indet eta0 net path limit imgListFile
   = Throws (runtime_error (list_ascii_of_string "Error reading: " ++ imgListFile))) ∧
  (∀ text, fs imgListFile = Some text →
     train_list shuffle fs indet eta0 net path limit imgListFile
     = learn_files fs indet eta0 net path
         (shuffle (take (Z.to_nat limit) (getlines text)))).
Proof.
  unfold train_list. split; [by intros ->|]. intros text ->.
  rewrite read_names_take. simpl. rewrite Z.sub_0_r.
  set (names := take (Z.to_nat limit) (getlines text)).
  pose proof (Permutation_length (shuffle_permutes names)) as Hlen.
  assert (length names ≤ Z.to_nat limit) as Hle by (unfold names; rewrite length_take; lia).
  destruct (shuffle names) as [|name rest] eqn:Hs; [done|].
  rewrite train_take.
  - rewrite take_ge; [done|]. simpl in *. lia.
  - simpl in Hlen. unfold INT_MIN. lia.
Qed.

End TrainList.

(** ** The driver: one image of [assess] *)

Section Assess.
Context `{VT : ValText} `{DO : !DriverOps}.

(** The transpose of a column is a row with the same values. *)
Lemma column_transpose_row (n : N) (c : Matrix) :
  has_shape n 1 c → n ≠ 0%N →
  ∃ t, transpose c = Some t ∧ row_of t 0 = Some (data c).
Proof.
  intros Hc Hn. exists (mat_transpose c).
  split; [by apply (transpose_shaped n 1)|].
  destruct Hc as (Hwf & Hr & Hcols).
  unfold row_of. change (nrows (mat_transpose c)) with (ncols c).
  rewrite decide_True by (unfold ncols; rewrite Hcols; lia). f_equal.
  change (ncols (mat_transpose c)) with (nrows c). simpl.
  rewrite drop_0.
  assert (data c = tabulate (ncols c) (nrows c) (λ j i, elem c i j)) as <-.
  { assert (ncols c = 1) as Hc1 by (unfold ncols; by rewrite Hcols).
    apply tabulate_unique; [rewrite Hwf; lia|].
    intros j i Hj Hi. rewrite Hc1 in Hj. assert (j = 0) as -> by lia.
    rewrite <- (get_elem c i 0) by (done || lia).
    rewrite get_Some_lookup by (done || lia). f_equal. lia. }
  apply take_ge. rewrite Hwf. unfold ncols. rewrite Hcols. lia.
Qed.

(** The largest entry of [getExpectedDigitOutput]'s column is at the
    label. *)
Lemma maxElemIndex_one_hot (k : nat) :
  less zero (of_int 1) = true → less (of_int 1) zero = false →
  less zero zero = false → less (of_int 1) (of_int 1) = false →
  k < 10 →
  maxElemIndex (<[k := of_int 1]> (replicate 10 zero)) = Z.of_nat k.
Proof.
  intros H01 H10 H00 H11 Hk. unfold maxElemIndex, max_element.
  do 10 (destruct k as [|k];
    [cbn; repeat (first [rewrite H01 | rewrite H10 | rewrite H00 | rewrite H11]; cbn);
     reflexivity|]).
  lia.
Qed.

Lemma assess_image_eq (fs : files) (indet : Z * Z * (Val * Val))
    (net : NeuralNet) (ls : list N) (w0 : N) (path pre post : list ascii) (k : nat)
    (img : Matrix) (passCount : Z) :
  less zero (of_int 1) = true → less (of_int 1) zero = false →
  less zero zero = false → less (of_int 1) (of_int 1) = false →
  net_inv ls net → head ls = Some w0 → last ls = Some 10%N →
  k < 10 → "_"%char ∉ post → (N.of_nat (length pre) + 1 < 2 ^ 64)%N →
  loadPGM fs indet (path ++ "/"%char :: pre ++ "_"%char :: ascii_of_nat (48 + k) :: post)
  = Returns img →
  rows img = w0 → (passCount < INT_MAX)%Z →
  assess_image fs indet net path (pre ++ "_"%char :: ascii_of_nat (48 + k) :: post)
    passCount
  = Returns (if decide (Z.of_nat k
                        = maxElemIndex (data (forward (weights net) (biases net) img)))
             then passCount + 1 else passCount)%Z.
Proof.
  intros H01 H10 H00 H11 Hinv Hw0 Hlast Hk Hpost Hlen Hload Hrows Hpass.
  unfold assess_image. rewrite Hload. cbn [mbind outcome_bind].
  rewrite getExpectedDigitOutput_one_hot_eq by done. cbn [of_option mbind outcome_bind].
  destruct (loadPGM_wf _ _ _ _ Hload) as [Hwimg Hcimg].
  assert (has_shape w0 1 img) as Himg by done.
  assert (ls ≠ []) as Hne by (by destruct ls).
  pose proof (net_inv_layers_ok ls net Hinv Hne) as Hok.
  destruct (classify_loop ls (weights net) (biases net) w0 img Hok Hw0 Himg)
    as [Hc (wl & Hwl & Hres)].
  assert (wl = 10%N) as -> by congruence.
  unfold classify. rewrite Hc. cbn [of_option mbind outcome_bind].
  set (res := forward (weights net) (biases net) img) in *.
  destruct Hres as (Hwres & Hrres & Hcres).
  unfold width, height. rewrite Hcres, Hrres.
  do 2 (case_guard; [|done]). cbn [of_option mbind outcome_bind].
  set (exp := {| data := <[k:=of_int 1]> (replicate 10 zero); rows := 10; cols := 1 |}).
  destruct (column_transpose_row 10 exp) as (expT & HexpT & Hexp0); [|done|].
  { split; [|done]. unfold wf, nrows, ncols. simpl. by rewrite length_insert. }
  destruct (column_transpose_row 10 res) as (resT & HresT & Hres0); [done..|].
  rewrite HexpT. cbn [of_option mbind outcome_bind].
  rewrite Hexp0. cbn [of_option mbind outcome_bind].
  rewrite HresT. cbn [of_option mbind outcome_bind].
  rewrite Hres0. cbn [of_option mbind outcome_bind].
  simpl (data exp). rewrite maxElemIndex_one_hot by done.
  case_decide; [|done].
  unfold int_succ. by rewrite decide_True by done.
Qed.

(** X26.  One round of the loop of [assess], for a network whose last
    layer has 10 neurons and an image of the first layer width, named
    with the digit k after its last underscore: none of the two
    assertions fails, and the image is counted exactly when the first
    largest output of the forward pass is at row k ([0 < 1] on [Val],
    and neither [1 < 0], [0 < 0] nor [1 < 1]). *)
Theorem assess_image_counts (fs : files) (indet : Z * Z * (Val * Val))
    (net : NeuralNet) (ls : list N) (w0 : N) (path pre post : list ascii) (k : nat)
    (img : Matrix) (passCount : Z) :
  less zero (of_int 1) = true → less (of_int 1) zero = false →
  less zero zero = false → less (of_int 1) (of_int 1) = false →
  net_inv ls net → head ls = Some w0 → last ls = Some 10%N →
  k < 10 → "_"%char ∉ post → (N.of_nat (length pre) + 1 < 2 ^ 64)%N →
  loadPGM fs indet (path ++ "/"%char :: pre ++ "_"%char :: ascii_of_nat (48 + k) :: post)
  = Returns img →
  rows img = w0 → (passCount < INT_MAX)%Z →
  assess_image fs indet net path (pre ++ "_"%char :: ascii_of_nat (48 + k) :: post)
    passCount
  = Returns (if decide (Z.of_nat k
                        = maxElemIndex (data (forward (weights net) (biases net) img)))
             then passCount + 1 else passCount)%Z.
Proof. apply assess_image_eq. Qed.

End Assess.

(** ** The driver: [assess] *)



Section AssessAll.
Context `{VT : ValText} `{DO : !DriverOps}.



End AssessAll.

(** * The claims on concrete inputs *)

Section Witnesses.
#[local] Existing Instance Z_scalar.
#[local] Existing Instance Z_text.






Lemma net221_inv : net_inv [2; 2; 1]%N net221.
Proof.
  split; [reflexivity|]. split; [reflexivity|]. split; [reflexivity|].
  intros l wl wl1 Hl Hl1. destruct l as [|[|l]]; simpl in Hl, Hl1.
  - injection Hl as <-. injection Hl1 as <-.
    eexists _, _. repeat split; reflexivity.
  - injection Hl as <-. injection Hl1 as <-.
    eexists _, _. repeat split; reflexivity.
  - discriminate.
Qed.

Lemma classify_forward_witness :
  net_inv [2; 2; 1]%N net221 ∧ has_shape 2 1 in2 ∧
  classify net221 in2 = Some (forward (weights net221) (biases net221) in2) ∧
  has_shape 1 1 (forward (weights net221) (biases net221) in2).
Proof.
  split; [apply net221_inv|]. split; [repeat split; reflexivity|].
  apply (classify_forward [2; 2; 1]%N net221 in2 2 1);
    [apply net221_inv | reflexivity | reflexivity | repeat split; reflexivity].
Defined.



Lemma NeuralNet_invariant_witness :
  Forall is_width [2; 1]%Z ∧ 2 ≤ length [2; 1]%Z ∧
  ∃ net, NeuralNet_init [2; 1]%Z = Some net ∧
         net_inv (Z.to_N <$> [2; 1]%Z) net ∧ all_zero net ∧
         ∀ net', reachable net net' → net_inv (Z.to_N <$> [2; 1]%Z) net'.
Proof.
  assert (Forall is_width [2; 1]%Z) as Hw
    by (repeat constructor; unfold is_width; lia).
  split; [exact Hw|]. split; [simpl; lia|].
  apply (NeuralNet_invariant [2; 1]%Z Hw). simpl. lia.
Defined.


Lemma Matrix_stream_roundtrip_witness :
  wf a22 ∧ (Z.of_N (rows a22) ≤ INT_MAX)%Z ∧ (Z.of_N (cols a22) ≤ INT_MAX)%Z ∧
  Forall2 prints_as (data a22) (data a22) ∧
  ∃ text ist,
    Matrix_insert [] a22 = Some text ∧
    Matrix_extract (0, 0)%Z {| buf := text; failbit := false |} e03
    = Some (ist, {| data := data a22; rows := rows a22; cols := cols a22 |}) ∧
    failbit ist = false.
Proof.
  split; [reflexivity|]. split; [discriminate|]. split; [discriminate|].
  split; [apply Z_prints_all|].
  apply (Matrix_stream_roundtrip a22 (data a22) (0, 0)%Z e03);
    [reflexivity | discriminate | discriminate | apply Z_prints_all].
Defined.

(** [Matrix(0, 2147483648)] is written as the line "0 2147483648"; read
    back, the column count does not fit the [int width]: the matrix read
    has 2147483647 columns and [failbit] is set. *)
Lemma Matrix_stream_roundtrip_counterexample :
  wf wide ∧
  ∃ text, Matrix_insert [] wide = Some text ∧
    ∀ indet m0, ∃ ist m',
      Matrix_extract indet {| buf := text; failbit := false |} m0 = Some (ist, m') ∧
      cols m' ≠ cols wide ∧ failbit ist = true.
Proof.
  split; [reflexivity|]. eexists. split; [vm_compute; reflexivity|].
  intros [ih iw] m0. eexists _, _. split; [vm_compute; reflexivity|].
  split; [discriminate | reflexivity].
Qed.



End Witnesses.

(** * The further properties on concrete inputs *)

Section FurtherWitnesses.
#[local] Existing Instance Z_scalar.
#[local] Existing Instance Z_text.
#[local] Existing Instance Z_driver.

Lemma Z_reads_as (m : Matrix) : reads_as m m.
Proof. split; [done|]. split; [done|]. apply Z_prints_all. Qed.


Lemma net110_inv : net_inv [1; 10]%N net110.
Proof.
  split; [reflexivity|]. split; [reflexivity|]. split; [reflexivity|].
  intros l wl wl1 Hl Hl1. destruct l as [|l]; simpl in Hl, Hl1.
  - injection Hl as <-. injection Hl1 as <-.
    eexists _, _. repeat split; reflexivity.
  - destruct l; discriminate.
Qed.

Lemma no_underscore_pgm : "_"%char ∉ list_ascii_of_string ".pgm".
Proof.
  intros H. simpl in H.
  repeat (apply elem_of_cons in H as [H|H]; [discriminate|]).
  by apply elem_of_nil in H.
Qed.







Lemma Matrix_stream_sequence_witness :
  wf a22 ∧ wf a23 ∧ int_sized a22 ∧ int_sized a23 ∧
  reads_as a22 a22 ∧ reads_as a23 a23 ∧
  ∃ t1 t2 ist1 ist2,
    Matrix_insert [] a22 = Some t1 ∧ Matrix_insert t1 a23 = Some t2 ∧
    Matrix_extract (0, 0)%Z {| buf := t2; failbit := false |} e03 = Some (ist1, a22) ∧
    Matrix_extract (0, 0)%Z ist1 e03 = Some (ist2, a23) ∧
    failbit ist2 = false.
Proof.
  assert (int_sized a22) as H1 by (split; discriminate).
  assert (int_sized a23) as H2 by (split; discriminate).
  split; [reflexivity|]. split; [reflexivity|]. split; [exact H1|]. split; [exact H2|].
  split; [apply Z_reads_as|]. split; [apply Z_reads_as|].
  apply (Matrix_stream_sequence a22 a23 a22 a23 (0, 0)%Z e03 e03);
    [reflexivity | reflexivity | exact H1 | exact H2 | apply Z_reads_as | apply Z_reads_as].
Defined.

Lemma NeuralNet_insert_layout_witness :
  wf (layerSizes net221) ∧ Forall wf (biases net221) ∧ Forall wf (weights net221) ∧
  NeuralNet_insert [] net221
  = Some ([] ++ matrix_text (layerSizes net221) ++ [nl]
             ++ (b ← biases net221; matrix_text b ++ [nl])
             ++ (w ← weights net221; matrix_text w ++ [nl])).
Proof.
  assert (Forall wf (biases net221)) as Hb by (repeat constructor).
  assert (Forall wf (weights net221)) as Hw by (repeat constructor).
  split; [reflexivity|]. split; [exact Hb|]. split; [exact Hw|].
  apply (NeuralNet_insert_layout [] net221); [reflexivity | exact Hb | exact Hw].
Defined.


(** A text of three 1 by 1 matrices, read into [NeuralNet({1, 10})]. *)
Lemma NeuralNet_extract_appends_witness :
  ∃ bs ws,
    biases (net_read_110) = biases net110 ++ bs ∧
    weights (net_read_110) = weights net110 ++ ws ∧
    length bs = ncols (layerSizes net_read_110) ∧
    length ws = ncols (layerSizes net_read_110) ∧
    wf (layerSizes net_read_110) ∧ Forall wf bs ∧ Forall wf ws ∧
    (failbit {| buf := three_text; failbit := false |} = true →
     failbit {| buf := []; failbit := false |} = true).
Proof.
  apply (NeuralNet_extract_appends (0, 0)%Z {| buf := three_text; failbit := false |}
           {| buf := []; failbit := false |} net110 net_read_110).
  - vm_compute. reflexivity.
  - split; discriminate.
  - repeat constructor; discriminate.
  - repeat constructor; discriminate.
Defined.

Lemma extract_agrees_with_baseline_witness :
  ∃ ist' m',
    Matrix_extract (0, 0)%Z {| buf := three_text; failbit := false |} e03 = Some (ist', m') ∧
    rows m' = Z.to_N 1 ∧ cols m' = Z.to_N 1 ∧
    Baseline_extract (0, 0)%Z {| buf := three_text; failbit := false |} [] = (ist', to_nested m').
Proof.
  apply (extract_agrees_with_baseline (0, 0)%Z {| buf := three_text; failbit := false |}
           {| buf := list_ascii_of_string " 1 5 1 1 7 1 1 8"; failbit := false |}
           {| buf := list_ascii_of_string " 5 1 1 7 1 1 8"; failbit := false |}
           1 1 e03 []).
  - vm_compute. reflexivity.
  - vm_compute. reflexivity.
  - unfold is_width. lia.
  - unfold is_width. lia.
Defined.

Lemma NeuralNet_without_parameters_witness :
  length [3%Z] ≤ 1 ∧
  ∃ net, NeuralNet_init [3%Z] = Some net ∧
         biases net = [] ∧ weights net = [] ∧
         (∀ inputs, classify net inputs = Some inputs) ∧
         (∀ inputs expected eta, learn net inputs expected eta = None).
Proof.
  split; [simpl; lia|]. apply (NeuralNet_without_parameters [3%Z]). simpl. lia.
Defined.

Lemma wrong_input_height_witness :
  net_inv [2; 2; 1]%N net221 ∧ 2 ≤ length [2; 2; 1]%N ∧
  head [2; 2; 1]%N = Some 2%N ∧ rows exp1 ≠ 2%N ∧
  classify net221 exp1 = None ∧ learn net221 exp1 exp1 3%Z = None.
Proof.
  split; [apply net221_inv|]. split; [simpl; lia|]. split; [reflexivity|].
  split; [discriminate|].
  apply (wrong_input_height [2; 2; 1]%N net221 exp1 exp1 3%Z 2);
    [apply net221_inv | simpl; lia | reflexivity | discriminate].
Defined.

Lemma fresh_network_constant_witness :
  add zero zero = (zero : Z) ∧ absorbed (sigmoid zero : Z) ∧
  Forall is_width [2; 1]%Z ∧ 2 ≤ length [2; 1]%Z ∧
  head [2; 1]%Z = Some 2%Z ∧ last [2; 1]%Z = Some 1%Z ∧
  has_shape (Z.to_N 2) 1 in2 ∧ Forall absorbed (data in2) ∧
  ∃ net, NeuralNet_init [2; 1]%Z = Some net ∧
         classify net in2 = Some (Matrix_init (Z.to_N 1) 1 (sigmoid zero)).
Proof.
  assert (Forall is_width [2; 1]%Z) as Hw
    by (repeat constructor; unfold is_width; lia).
  assert (has_shape (Z.to_N 2) 1 in2) as Hin by (repeat split; reflexivity).
  assert (Forall absorbed (data in2)) as Hall by (repeat constructor).
  split; [reflexivity|]. split; [reflexivity|]. split; [exact Hw|].
  split; [simpl; lia|]. split; [reflexivity|]. split; [reflexivity|].
  split; [exact Hin|]. split; [exact Hall|].
  apply (@fresh_network_constant Z_scalar eq_refl eq_refl [2; 1]%Z in2 2%Z 1%Z);
    [exact Hw | simpl; lia | reflexivity | reflexivity | exact Hin | exact Hall].
Defined.



Lemma maxElemIndex_first_maximum_witness :
  let vec := [1; 3; -1; 2]%Z in
  (∀ x, x ∈ vec → less x x = false) ∧
  (∀ x y z, x ∈ vec → y ∈ vec → z ∈ vec →
     less x y = true → less y z = true → less x z = true) ∧
  (∀ x y z, x ∈ vec → y ∈ vec → z ∈ vec →
     less x y = false → less y z = false → less x z = false) ∧
  vec ≠ [] ∧ (Z.of_nat (length vec) ≤ INT_MAX)%Z ∧
  ∃ r xr, maxElemIndex vec = Z.of_nat r ∧ vec !! r = Some xr ∧
          (∀ y, y ∈ vec → less xr y = false) ∧
          (∀ j y, j < r → vec !! j = Some y → less y xr = true).
Proof.
  intros vec.
  assert (∀ x, x ∈ vec → less x x = false) as H1
    by (intros x _; apply Z.ltb_irrefl).
  assert (∀ x y z, x ∈ vec → y ∈ vec → z ∈ vec →
     less x y = true → less y z = true → less x z = true) as H2.
  { intros x y z _ _ _ Hxy Hyz. apply Z.ltb_lt in Hxy, Hyz. apply Z.ltb_lt. lia. }
  assert (∀ x y z, x ∈ vec → y ∈ vec → z ∈ vec →
     less x y = false → less y z = false → less x z = false) as H3.
  { intros x y z _ _ _ Hxy Hyz. apply Z.ltb_ge in Hxy, Hyz. apply Z.ltb_ge. lia. }
  split; [exact H1|]. split; [exact H2|]. split; [exact H3|].
  split; [discriminate|]. split; [discriminate|].
  apply (maxElemIndex_first_maximum (Sc := Z_scalar) vec H1 H2 H3); discriminate.
Defined.

Lemma getExpectedDigitOutput_one_hot_witness :
  0 < 10 ∧ ("_"%char ∉ list_ascii_of_string ".pgm") ∧
  (N.of_nat (length (list_ascii_of_string "test-image-6883")) + 1 < 2 ^ 64)%N ∧
  getExpectedDigitOutput (list_ascii_of_string "test-image-6883"
                          ++ "_"%char :: ascii_of_nat (48 + 0)
                          :: list_ascii_of_string ".pgm")
  = Some {| data := <[0 := of_int 1]> (replicate 10 zero); rows := 10; cols := 1 |}.
Proof.
  split; [lia|]. split; [apply no_underscore_pgm|]. split; [reflexivity|].
  apply (getExpectedDigitOutput_one_hot (list_ascii_of_string "test-image-6883")
           (list_ascii_of_string ".pgm") 0);
    [lia | apply no_underscore_pgm | reflexivity].
Defined.

Lemma getExpectedDigitOutput_no_underscore_witness :
  7 < 10 ∧ ("_"%char ∉ list_ascii_of_string ".pgm") ∧
  getExpectedDigitOutput (ascii_of_nat (48 + 7) :: list_ascii_of_string ".pgm")
  = Some {| data := <[7 := of_int 1]> (replicate 10 zero); rows := 10; cols := 1 |}.
Proof.
  split; [lia|]. split; [apply no_underscore_pgm|].
  apply (getExpectedDigitOutput_no_underscore (list_ascii_of_string ".pgm") 7);
    [lia | apply no_underscore_pgm].
Defined.

Lemma getExpectedDigitOutput_not_a_digit_witness :
  ("_"%char ∉ "x"%char :: list_ascii_of_string ".pgm") ∧
  (N.of_nat (length (list_ascii_of_string "img")) + 1 < 2 ^ 64)%N ∧
  (nat_of_ascii "x" < 48 ∨ 57 < nat_of_ascii "x") ∧
  getExpectedDigitOutput (list_ascii_of_string "img" ++ "_"%char :: "x"%char
                          :: list_ascii_of_string ".pgm") = None ∧
  getExpectedDigitOutput (list_ascii_of_string "img" ++ ["_"%char]) = None.
Proof.
  assert ("_"%char ∉ "x"%char :: list_ascii_of_string ".pgm") as H1.
  { apply not_elem_of_cons. split; [discriminate | apply no_underscore_pgm]. }
  assert (nat_of_ascii "x" < 48 ∨ 57 < nat_of_ascii "x") as H2
    by (right; change (57 < 120); lia).
  split; [exact H1|]. split; [reflexivity|]. split; [exact H2|].
  apply (getExpectedDigitOutput_not_a_digit (list_ascii_of_string "img")
           (list_ascii_of_string ".pgm") "x"); [exact H1 | reflexivity | exact H2].
Defined.

End FurtherWitnesses.

Section DriverWitnesses.
#[local] Existing Instance Z_scalar.
#[local] Existing Instance Z_text.
#[local] Existing Instance Z_driver.

Lemma separators_spaces : separators [] [sp] [sp] [sp].
Proof.
  split; [constructor|].
  repeat split; (by apply Forall_singleton) || discriminate.
Qed.

Lemma starts_with_7 :
  starts_with (VT := Z_text) [] [7%Z] (list_ascii_of_string " 7").
Proof.
  apply (@starts_cons Z_scalar Z_text [] [sp] 7%Z [] []);
    [by apply Forall_singleton | exact I | constructor].
Qed.

Lemma starts_with_9_8 :
  starts_with (VT := Z_text) [] [9%Z; 8%Z] (list_ascii_of_string " 9 8").
Proof.
  apply (@starts_cons Z_scalar Z_text [] [sp] 9%Z [8%Z] (list_ascii_of_string " 8"));
    [by apply Forall_singleton | reflexivity |].
  apply (@starts_cons Z_scalar Z_text [] [sp] 8%Z [] []);
    [by apply Forall_singleton | exact I | constructor].
Qed.

Lemma loadPGM_reads_image_witness :
  separators [] [sp] [sp] [sp] ∧
  (Z.of_N 1 ≤ INT_MAX)%Z ∧ (Z.of_N (1 * 1) ≤ INT_MAX)%Z ∧
  prints_as (1%Z : @Val Z_scalar) 1%Z ∧ ends_token (list_ascii_of_string " 7") ∧
  starts_with [] [7%Z] (list_ascii_of_string " 7") ∧
  Forall2 prints_as [7%Z] [7%Z] ∧
  length [7%Z] = N.to_nat (1 * 1) ∧
  disk (list_ascii_of_string "data/x_3.pgm")
  = Some (pgm_text [] [sp] [sp] [sp] 1 1 1%Z (list_ascii_of_string " 7")) ∧
  loadPGM disk indet0 (list_ascii_of_string "data/x_3.pgm")
  = Returns {| data := (λ v, div v 1%Z) <$> [7%Z]; rows := 1 * 1; cols := 1 |}.
Proof.
  split; [apply separators_spaces|]. split; [discriminate|]. split; [discriminate|].
  split; [apply Z_prints_as|]. split; [reflexivity|]. split; [apply starts_with_7|].
  split; [apply Z_prints_all|]. split; [reflexivity|]. split; [reflexivity|].
  apply (loadPGM_reads_image disk indet0 (list_ascii_of_string "data/x_3.pgm")
           [] [sp] [sp] [sp] 1 1 1%Z 1%Z (list_ascii_of_string " 7") [] [7%Z] [7%Z]);
    [apply separators_spaces | discriminate | discriminate | discriminate
    | apply Z_prints_as | reflexivity | apply starts_with_7 | apply Z_prints_all
    | reflexivity | reflexivity].
Defined.

Lemma loadPGM_pads_truncated_image_witness :
  separators [] [sp] [sp] [sp] ∧
  (Z.of_N 2 ≤ INT_MAX)%Z ∧ (Z.of_N (2 * 2) ≤ INT_MAX)%Z ∧
  prints_as (1%Z : @Val Z_scalar) 1%Z ∧ ends_token (list_ascii_of_string " 9 8") ∧
  starts_with [] [9%Z; 8%Z] (list_ascii_of_string " 9 8") ∧ blank [] ∧
  Forall2 prints_as [9%Z; 8%Z] [9%Z; 8%Z] ∧
  length [9%Z; 8%Z] < N.to_nat (2 * 2) ∧
  disk (list_ascii_of_string "data/cut_1.pgm")
  = Some (pgm_text [] [sp] [sp] [sp] 2 2 1%Z (list_ascii_of_string " 9 8")) ∧
  loadPGM disk indet0 (list_ascii_of_string "data/cut_1.pgm")
  = Returns {| data := ((λ v, div v 1%Z) <$> [9%Z; 8%Z])
                 ++ replicate (N.to_nat (2 * 2) - length [9%Z; 8%Z])
                      (div (default indet0.2.2 (last [9%Z; 8%Z])) 1%Z);
               rows := 2 * 2; cols := 1 |}.
Proof.
  split; [apply separators_spaces|]. split; [discriminate|]. split; [discriminate|].
  split; [apply Z_prints_as|]. split; [reflexivity|]. split; [apply starts_with_9_8|].
  split; [constructor|]. split; [apply Z_prints_all|]. split; [simpl; lia|].
  split; [reflexivity|].
  apply (loadPGM_pads_truncated_image disk indet0 (list_ascii_of_string "data/cut_1.pgm")
           [] [sp] [sp] [sp] 2 2 1%Z 1%Z (list_ascii_of_string " 9 8") []
           [9%Z; 8%Z] [9%Z; 8%Z]);
    [apply separators_spaces | discriminate | discriminate | discriminate
    | apply Z_prints_as | reflexivity | apply starts_with_9_8 | constructor
    | apply Z_prints_all | simpl; lia | reflexivity].
Defined.

Lemma train_uses_one_file_more_witness :
  let names := [list_ascii_of_string "x_3.pgm"; list_ascii_of_string "x_3.pgm";
                list_ascii_of_string "x_3.pgm"] in
  (INT_MIN < 1)%Z ∧
  train disk indet0 1%Z net110 (list_ascii_of_string "data") names 1
  = learn_files disk indet0 1%Z net110 (list_ascii_of_string "data")
      (take (S (Z.to_nat 1)) names).
Proof.
  intros names. split; [reflexivity|].
  apply (train_uses_one_file_more disk indet0 1%Z (list_ascii_of_string "data")
           names net110 1). reflexivity.
Defined.

Lemma train_preserves_invariant_witness :
  net_inv [1; 10]%N net110 ∧
  ∃ net', train disk indet0 1%Z net110 (list_ascii_of_string "data")
            [list_ascii_of_string "x_3.pgm"] 0 = Returns net' ∧
          net_inv [1; 10]%N net'.
Proof.
  split; [apply net110_inv|].
  eexists. split; [vm_compute; reflexivity|].
  apply (train_preserves_invariant disk indet0 1%Z (list_ascii_of_string "data")
           [1; 10]%N [list_ascii_of_string "x_3.pgm"] net110 _ 0 net110_inv).
  vm_compute. reflexivity.
Defined.


Lemma assess_image_counts_witness :
  less (zero : @Val Z_scalar) (of_int 1) = true ∧
  less (of_int 1 : @Val Z_scalar) zero = false ∧
  less (zero : @Val Z_scalar) zero = false ∧
  less (of_int 1 : @Val Z_scalar) (of_int 1) = false ∧
  net_inv [1; 10]%N net110 ∧ head [1; 10]%N = Some 1%N ∧ last [1; 10]%N = Some 10%N ∧
  3 < 10 ∧ ("_"%char ∉ list_ascii_of_string ".pgm") ∧
  (N.of_nat (length (list_ascii_of_string "x")) + 1 < 2 ^ 64)%N ∧
  loadPGM disk indet0 (list_ascii_of_string "data" ++ "/"%char ::
    list_ascii_of_string "x" ++ "_"%char :: ascii_of_nat (48 + 3)
      :: list_ascii_of_string ".pgm") = Returns (image x_3) ∧
  rows (image x_3) = 1%N ∧ (0 < INT_MAX)%Z ∧
  assess_image disk indet0 net110 (list_ascii_of_string "data")
    (list_ascii_of_string "x" ++ "_"%char :: ascii_of_nat (48 + 3)
       :: list_ascii_of_string ".pgm") 0
  = Returns (if decide (Z.of_nat 3
                        = maxElemIndex (data (forward (weights net110) (biases net110)
                                                (image x_3))))
             then 0 + 1 else 0)%Z.
Proof.
  split; [reflexivity|]. split; [reflexivity|]. split; [reflexivity|].
  split; [reflexivity|]. split; [apply net110_inv|]. split; [reflexivity|].
  split; [reflexivity|]. split; [lia|]. split; [apply no_underscore_pgm|].
  split; [reflexivity|]. split; [vm_compute; reflexivity|]. split; [reflexivity|].
  split; [reflexivity|].
  apply (assess_image_counts disk indet0 net110 [1; 10]%N 1
           (list_ascii_of_string "data") (list_ascii_of_string "x")
           (list_ascii_of_string ".pgm") 3 (image x_3) 0);
    [reflexivity | reflexivity | reflexivity | reflexivity | apply net110_inv
    | reflexivity | reflexivity | lia | apply no_underscore_pgm | reflexivity
    | vm_compute; reflexivity | reflexivity | reflexivity].
Defined.


End DriverWitnesses.

Section LastWitnesses.
#[local] Existing Instance Z_scalar.
#[local] Existing Instance Z_text.
#[local] Existing Instance Z_driver.

Lemma insert_agrees_with_baseline_witness :
  wf a23 ∧ (rows a23 ≠ 0)%N ∧
  ∃ os', Matrix_insert [] a23 = Some os' ∧ Baseline_insert [] (to_nested a23) = Some os'.
Proof.
  split; [reflexivity|]. split; [discriminate|].
  apply (insert_agrees_with_baseline [] a23); [reflexivity | discriminate].
Defined.

(** The list is reversed; of the three names of the file the first two
    are kept. *)
Lemma train_list_uses_limit_witness :
  (∀ names : list (list ascii), reverse names ≡ₚ names) ∧
  (disk2 (list_ascii_of_string "none.txt") = None →
   train_list reverse disk2 indet0 1%Z net110 (list_ascii_of_string "data") 2
     (list_ascii_of_string "none.txt")
   = Throws (runtime_error (list_ascii_of_string "Error reading: "
                              ++ list_ascii_of_string "none.txt"))) ∧
  (∀ text, disk2 (list_ascii_of_string "names.txt") = Some text →
     train_list reverse disk2 indet0 1%Z net110 (list_ascii_of_string "data") 2
       (list_ascii_of_string "names.txt")
     = learn_files disk2 indet0 1%Z net110 (list_ascii_of_string "data")
         (reverse (take (Z.to_nat 2) (getlines text)))).
Proof.
  split; [intros names; apply reverse_Permutation|].
  split.
  - apply (train_list_uses_limit reverse (λ names, reverse_Permutation names)
             disk2 indet0 1%Z net110 (list_ascii_of_string "data")
             (list_ascii_of_string "none.txt") 2).
  - apply (train_list_uses_limit reverse (λ names, reverse_Permutation names)
             disk2 indet0 1%Z net110 (list_ascii_of_string "data")
             (list_ascii_of_string "names.txt") 2).
Defined.

End LastWitnesses.
